(** * FEALPy NumPy backend: finite-element kernels and sparse kernels

    A shallow embedding of the hand-written kernels of
    [fealpy/backend/numpy_backend.py] and of the closed-form
    [multi_index_matrix] of [fealpy/jax/mesh/mesh_base.py].

    Conventions of the embedding.
    - Python integers are [Z] (or [nat] where the code only counts);
      NumPy fixed-width integers are [Z] reduced by [wrap].
    - Floating-point arrays hold exact rationals ([Q]); rounding is not
      modelled.  Where IEEE arithmetic leaves the finite numbers (a
      division by zero) the value is [None] in [option Q].
    - An [ndarray] axis is a [list]; the leading batch axes ([...] in the
      source) are modelled by one entity at a time. *)

From Stdlib Require Import ZArith QArith Qfield Lia List String Ascii.
From stdpp Require Import base list sorting gmap strings pretty.
Import ListNotations.

Local Open Scope Z_scope.

(** ** Exceptions raised by the kernels *)

Inductive exn : Type :=
  | ValueError (msg : string)
  | NotImplementedError (msg : string)
  | RuntimeError (msg : string)
  | TypeError (msg : string)
  | LinAlgError (msg : string)
  | IndexError.

(** Outcome of a call: a value, a raised exception, or [Undefined] when a
    compiled kernel of SciPy reads or writes outside the arrays it was
    given (it checks no bounds). *)
Inductive result (A : Type) : Type :=
  | Ok (a : A)
  | Raise (e : exn)
  | Undefined.
Arguments Ok {A} a.
Arguments Raise {A} e.
Arguments Undefined {A}.

Definition bind {A B : Type} (m : result A) (k : A -> result B) : result B :=
  match m with
  | Ok a => k a
  | Raise e => Raise e
  | Undefined => Undefined
  end.

Notation "'let*' x ':=' m 'in' k" := (bind m (fun x => k))
  (at level 10, x pattern, m at level 100, k at level 200).

(** Run [f] on every element, left to right, stopping at the first failure. *)
Fixpoint traverse {A B : Type} (f : A -> result B) (l : list A)
  : result (list B) :=
  match l with
  | [] => Ok []
  | x :: tl =>
      let* y := f x in
      let* ys := traverse f tl in
      Ok (y :: ys)
  end.

(** The result of a compiled kernel: [None] is undefined behaviour. *)
Definition of_kernel {A : Type} (o : option A) : result A :=
  match o with
  | Some a => Ok a
  | None => Undefined
  end.

(** [a[i]] along one axis, with Python's negative indices. *)
Definition getitem {A : Type} (l : list A) (i : Z) : result A :=
  let n := Z.of_nat (length l) in
  let j := if i <? 0 then i + n else i in
  if (0 <=? j) && (j <? n)
  then match l !! Z.to_nat j with
       | Some x => Ok x
       | None => Raise IndexError
       end
  else Raise IndexError.

(** ** Floating-point values

    A finite float is an exact rational.  A value of type [option Q] is a
    float that may have left the finite numbers: [None] is [inf] or
    [nan]. *)

Definition fdiv (x y : Q) : option Q :=
  if Qeq_bool y 0 then None else Some (x / y)%Q.

Definition fmul (x y : option Q) : option Q :=
  match x, y with
  | Some a, Some b => Some (a * b)%Q
  | _, _ => None
  end.

Definition fadd (x y : option Q) : option Q :=
  match x, y with
  | Some a, Some b => Some (a + b)%Q
  | _, _ => None
  end.

(** [np.prod] and [np.sum] along one axis. *)
Definition fprod (l : list (option Q)) : option Q := foldl fmul (Some 1%Q) l.
Definition fsum (l : list (option Q)) : option Q := foldl fadd (Some 0%Q) l.
Definition qsum (l : list Q) : Q := foldl Qplus 0%Q l.
Definition qprod (l : list Q) : Q := foldl Qmult 1%Q l.

(** The list [l] without its element at position [i]. *)
Definition remove_index {X : Type} (i : nat) (l : list X) : list X :=
  take i l ++ drop (S i) l.

(** [np.arange(lo, lo + n)] *)
Definition arange (lo : Z) (n : nat) : list Z :=
  map (fun k => lo + Z.of_nat k) (seq 0 n).

(** [math.factorial] *)
Fixpoint factorial (n : nat) : Z :=
  match n with
  | O => 1
  | S k => Z.of_nat (S k) * factorial k
  end.

(** ** Fixed-width integers *)

(** Two's-complement reduction of [z] to [w] bits. *)
Definition wrap (w : Z) (z : Z) : Z :=
  (z + 2 ^ (w - 1)) mod 2 ^ w - 2 ^ (w - 1).

Definition int32 (z : Z) : Z := wrap 32 z.
Definition int64 (z : Z) : Z := wrap 64 z.

(** ** Multi-index matrix *)

Module MultiIndex.

(** [itertools.combinations_with_replacement(pool, r)]: the [r]-tuples of
    elements of [pool] taken at non-decreasing positions, emitted in
    lexicographic order of the positions. *)
Fixpoint combinations_with_replacement {A : Type} (r : nat) (pool : list A)
  : list (list A) :=
  match r with
  | O => [[]]
  | S r' =>
      (fix from (l : list A) : list (list A) :=
         match l with
         | [] => []
         | x :: tl =>
             map (cons x) (combinations_with_replacement r' l) ++ from tl
         end) pool
  end.

(** [range(n)] *)
Definition range (n : nat) : list Z := map Z.of_nat (seq 0 n).

(** [a[1:] - a[:-1]] on one row, in a [w]-bit integer dtype. *)
Fixpoint diff_row (cast : Z -> Z) (a : list Z) : list Z :=
  match a with
  | x :: (y :: _) as tl => cast (y - x) :: diff_row cast tl
  | _ => []
  end.

(** [NumPyBackend.multi_index_matrix(p, dim, dtype=np.int32)].
    [sep] is the flipped array of combinations, [raw] pads every row with
    a leading [0] and a trailing [p]. *)
Definition multi_index_matrix (p : nat) (dim : nat) : list (list Z) :=
  let sep :=
    rev (map (map int32)
           (combinations_with_replacement dim (range (p + 1)))) in
  let raw := map (fun s => 0 :: s ++ [int32 (Z.of_nat p)]) sep in
  map (diff_row int32) raw.

End MultiIndex.

(** ** Simplex shape functions and their gradients *)

Module Shape.

(** [np.multiply.accumulate(c)] on an array of dtype [np.int_] (64 bits):
    the running products, each reduced to the dtype. *)
Fixpoint accumulate_from (acc : Z) (c : list Z) : list Z :=
  match c with
  | [] => []
  | x :: tl => let a := int64 (acc * x) in a :: accumulate_from a tl
  end.

Definition multiply_accumulate (c : list Z) : list Z :=
  match c with
  | [] => []
  | x :: tl => x :: accumulate_from x tl
  end.

(** [P = 1.0/np.multiply.accumulate(c)] with [c = np.arange(1, p+1)]. *)
Definition inverse_factorials (p : nat) : list (option Q) :=
  let c := map int64 (arange 1 p) in
  map (fun z => fdiv 1 (inject_Z z)) (multiply_accumulate c).

(** The rows [A[..., 1:, :] = p*bc[..., None, :] - t.reshape(-1, 1)] with
    [t = np.arange(0, p)]. *)
Definition shifted_rows (p : nat) (bc : list Q) : list (list Q) :=
  map (fun t => map (fun x => inject_Z (Z.of_nat p) * x - inject_Z t)%Q bc)
      (arange 0 p).

(** [np.cumprod(A, axis=-2)]: the running element-wise product of the rows. *)
Fixpoint cumprod_from (acc : list Q) (rows : list (list Q)) : list (list Q) :=
  match rows with
  | [] => []
  | r :: tl => let a := zip_with Qmult acc r in a :: cumprod_from a tl
  end.

Definition cumprod (rows : list (list Q)) : list (list Q) :=
  match rows with
  | [] => []
  | r :: tl => r :: cumprod_from r tl
  end.

(** [A[..., 1:, :] *= P.reshape(-1, 1)]: row [k >= 1] is scaled by [P[k-1]],
    row [0] is left as it is. *)
Definition scale_rows (A : list (list Q)) (P : list (option Q))
  : list (list (option Q)) :=
  match A with
  | [] => []
  | r0 :: tl =>
      map Some r0 :: zip_with (fun r c => map (fun x => fmul (Some x) c) r) tl P
  end.

(** The table [A] of [simplex_shape_function], of shape [(p+1, TD+1)]. *)
Definition table (p : nat) (bc : list Q) : list (list (option Q)) :=
  let A := map (fun _ => 1%Q) bc :: shifted_rows p bc in
  scale_rows (cumprod A) (inverse_factorials p).

(** [T[..., mi, idx]] with [idx = np.arange(TD+1)]: entry [(a, i)] of the
    result is [T[mi[a, i], i]]. *)
Definition gather_row {X : Type} (T : list (list X)) (alpha : list Z)
  : result (list X) :=
  traverse (fun '(k, i) => let* row := getitem T k in getitem row (Z.of_nat i))
           (zip alpha (seq 0 (length alpha))).

Definition gather {X : Type} (T : list (list X)) (mi : list (list Z))
  : result (list (list X)) :=
  traverse (gather_row T) mi.

(** [NumPyBackend.simplex_shape_function(bc, p)] at one barycentric point
    [bc], with the default [mi = None]. *)
Definition simplex_shape_function (bc : list Q) (p : nat)
  : result (list (option Q)) :=
  if (p =? 1)%nat then Ok (map Some bc)
  else
    match bc with
    | [] => Raise (ValueError "r must be non-negative")
    | _ :: rest =>
        let TD := length rest in
        let mi := MultiIndex.multi_index_matrix p TD in
        let A := table p bc in
        let* entries := gather A mi in
        Ok (map fprod entries)
    end.

(** [np.einsum('...jk, m->...kjm', A[..., 1:, :], np.ones(p))]:
    [FF[k][j][m] = A[1+j][k]]. *)
Definition transpose {X : Type} (d : X) (ncols : nat) (rows : list (list X))
  : list (list X) :=
  map (fun i => map (fun r => nth i r d) rows) (seq 0 ncols).

Definition einsum_kjm (p : nat) (rows : list (list Q)) (ncols : nat)
  : list (list (list Q)) :=
  map (fun col => map (fun a => map (fun one => a * one)%Q (replicate p 1%Q)) col)
      (transpose 0%Q ncols rows).

(** [FF[..., range(p), range(p)] = p] on one [(j, m)] matrix. *)
Definition set_diagonal (p : nat) (M : list (list Q)) : list (list Q) :=
  imap (fun j row => <[j := inject_Z (Z.of_nat p)]> row) M.

(** [np.tril] on one [(j, m)] matrix: entries with [m > j] become [0]. *)
Definition tril (M : list (list Q)) : list (list Q) :=
  imap (fun j row => imap (fun m x => if (m <=? j)%nat then x else 0%Q) row) M.

(** The table [F] of [simplex_grad_shape_function], of shape [(p+1, TD+1)]. *)
Definition grad_table (p : nat) (bc : list Q) : list (list (option Q)) :=
  let ncols := length bc in
  let FF := map (set_diagonal p) (einsum_kjm p (shifted_rows p bc) ncols) in
  let FF := map cumprod FF in
  let S := map (fun M => map qsum (tril M)) FF in
  let F := map (fun _ => 0%Q) bc :: transpose 0%Q p S in
  scale_rows F (inverse_factorials p).

(** [NumPyBackend.simplex_grad_shape_function(bc, p)] at one barycentric
    point, with the default [mi = None]: row [a] holds the derivatives of
    the [a]-th shape function with respect to the [TD+1] barycentric
    coordinates. *)
Definition simplex_grad_shape_function (bc : list Q) (p : nat)
  : result (list (list (option Q))) :=
  match bc with
  | [] => Raise (ValueError "r must be non-negative")
  | _ :: rest =>
      let TD := length rest in
      let mi := MultiIndex.multi_index_matrix p TD in
      let F := grad_table p bc in
      let A := table p bc in
      let* Q := gather A mi in
      let* M := gather F mi in
      Ok (zip_with
            (fun Mrow Qrow =>
               (* idx = list(range(TD+1)); idx.remove(i) *)
               imap (fun i m => fmul m (fprod (remove_index i Qrow))) Mrow)
            M Q)
  end.

End Shape.

(** ** Sparse kernels *)

Module Sparse.

(** A dense array: its shape and its elements in row-major order. *)
Record ndarray : Type := mk_ndarray { shape : list nat; data : list Q }.

Definition ndim (a : ndarray) : nat := length (shape a).

(** C array accesses of the compiled kernels: [None] outside the array. *)
Definition zget {A : Type} (l : list A) (i : Z) : option A :=
  if i <? 0 then None else l !! Z.to_nat i.

Definition zset {A : Type} (l : list A) (i : Z) (x : A) : option (list A) :=
  if (0 <=? i) && (i <? Z.of_nat (length l))
  then Some (<[Z.to_nat i := x]> l)
  else None.

(** [for x in l: s = body(s, x)], stopping at the first bad access. *)
Fixpoint for_each {S A : Type} (body : S -> A -> option S) (l : list A) (s : S)
  : option S :=
  match l with
  | [] => Some s
  | x :: tl => s' ← body s x; for_each body tl s'
  end.

(** SciPy's [coo_matvec(nnz, Ai, Aj, Ax, Xx, Yx)]:
    [for n in range(nnz): Yx[Ai[n]] += Ax[n] * Xx[Aj[n]]]. *)
Definition coo_matvec (nnz : nat) (Ai Aj : list Z) (Ax Xx Yx : list Q)
  : option (list Q) :=
  for_each
    (fun Yx n =>
       i ← Ai !! n; j ← Aj !! n; a ← Ax !! n;
       x ← zget Xx j; y ← zget Yx i;
       zset Yx i (y + a * x)%Q)
    (seq 0 nnz) Yx.

(** SciPy's [csr_matvec(n_row, n_col, Ap, Aj, Ax, Xx, Yx)]:
    [Yx[i] += sum(Ax[jj] * Xx[Aj[jj]] for jj in range(Ap[i], Ap[i+1]))]. *)
Definition csr_matvec (n_row n_col : nat) (Ap Aj : list Z) (Ax Xx Yx : list Q)
  : option (list Q) :=
  for_each
    (fun Yx i =>
       lo ← Ap !! i; hi ← Ap !! S i; y ← Yx !! i;
       sum ← for_each
               (fun sum jj =>
                  a ← zget Ax jj; j ← zget Aj jj; x ← zget Xx j;
                  Some (sum + a * x)%Q)
               (seqZ lo (hi - lo)) y;
       zset Yx (Z.of_nat i) sum)
    (seq 0 n_row) Yx.

(** SciPy's [csr_matvecs(n_row, n_col, n_vecs, Ap, Aj, Ax, Xx, Yx)] on
    row-major [Xx] and [Yx]:
    [Yx[n_vecs*i + k] += Ax[jj] * Xx[n_vecs*Aj[jj] + k]]. *)
Definition csr_matvecs (n_row n_col n_vecs : nat) (Ap Aj : list Z)
  (Ax Xx Yx : list Q) : option (list Q) :=
  for_each
    (fun Yx i =>
       lo ← Ap !! i; hi ← Ap !! S i;
       for_each
         (fun Yx jj =>
            a ← zget Ax jj; j ← zget Aj jj;
            for_each
              (fun Yx k =>
                 let yi := Z.of_nat n_vecs * Z.of_nat i + Z.of_nat k in
                 x ← zget Xx (Z.of_nat n_vecs * j + Z.of_nat k);
                 y ← zget Yx yi;
                 zset Yx yi (y + a * x)%Q)
              (seq 0 n_vecs) Yx)
         (seqZ lo (hi - lo)) Yx)
    (seq 0 n_row) Yx.

(** SciPy's [coo_tocsr(n_row, n_col, nnz, Ai, Aj, Ax, Bp, Bj, Bx)], loop by
    loop: count the entries of every row, turn the counts into start
    offsets, copy every entry to the next free slot of its row, and shift
    the advanced offsets back.  The index type is wide enough for [nnz]. *)
Definition coo_tocsr_kernel (n_row n_col nnz : nat) (Ai Aj : list Z)
  (Ax : list Q) (Bp Bj : list Z) (Bx : list Q)
  : option (list Z * list Z * list Q) :=
  (* std::fill(Bp, Bp + n_row, 0) *)
  Bp ← for_each (fun Bp i => zset Bp (Z.of_nat i) 0) (seq 0 n_row) Bp;
  (* Bp[Ai[n]]++ *)
  Bp ← for_each
         (fun Bp n => r ← Ai !! n; c ← zget Bp r; zset Bp r (c + 1))
         (seq 0 nnz) Bp;
  (* cumsum the counts *)
  '(Bp, _) ← for_each
         (fun '(Bp, cumsum) i =>
            temp ← Bp !! i;
            Bp ← zset Bp (Z.of_nat i) cumsum;
            Some (Bp, cumsum + temp))
         (seq 0 n_row) (Bp, 0);
  Bp ← zset Bp (Z.of_nat n_row) (Z.of_nat nnz);
  (* write Aj, Ax into Bj, Bx *)
  '(Bp, Bj, Bx) ← for_each
         (fun '(Bp, Bj, Bx) n =>
            row ← Ai !! n; dest ← zget Bp row;
            j ← Aj !! n; a ← Ax !! n;
            Bj ← zset Bj dest j;
            Bx ← zset Bx dest a;
            Bp ← zset Bp row (dest + 1);
            Some (Bp, Bj, Bx))
         (seq 0 nnz) (Bp, Bj, Bx);
  (* shift the offsets back *)
  '(Bp, _) ← for_each
         (fun '(Bp, last) i =>
            temp ← Bp !! i;
            Bp ← zset Bp (Z.of_nat i) last;
            Some (Bp, temp))
         (seq 0 (S n_row)) (Bp, 0);
  Some (Bp, Bj, Bx).

(** [np.empty(n)]: [n] cells of uninitialised memory, whose content is the
    arbitrary value [junk]. *)
Definition np_empty {A : Type} (junk : A) (n : nat) : list A := replicate n junk.

(** [NumPyBackend.coo_tocsr(indices, values, shape)]; [indices] is the pair
    of its two rows. *)
Definition coo_tocsr (junk : Z * Q) (indices : list Z * list Z)
  (values : list Q) (shape : nat * nat)
  : result (list Z * list Z * list Q) :=
  let '(M, N) := shape in
  let '(major, minor) := indices in
  let nnz := length values in
  let crow := np_empty (fst junk) (M + 1) in
  let col := np_empty (fst junk) (length minor) in
  let data := np_empty (snd junk) (length values) in
  of_kernel (coo_tocsr_kernel M N nnz major minor values crow col data).

(** Column [i] of a row-major matrix with [ncols] columns ([other.T[i]]). *)
Definition column (ncols : nat) (d : list Q) (i : nat) : list Q :=
  omap (fun r => d !! (r * ncols + i)%nat) (seq 0 (length d / ncols)).

(** Row-major data of the matrix whose columns are [cols]. *)
Definition of_columns (nrows : nat) (cols : list (list Q)) : list Q :=
  concat (map (fun r => omap (fun c => c !! r) cols) (seq 0 nrows)).

Definition batch_msg : string :=
  "Batch sparse matrix multiplication has not been supported yet.".

Definition rank_msg : string := "`other` must be a 1-D or 2-D array.".

(** [NumPyBackend.coo_spmm(indices, values, shape, other)] *)
Definition coo_spmm (indices : list Z * list Z) (values : ndarray)
  (shape : nat * nat) (other : ndarray) : result ndarray :=
  (* nnz = values.shape[-1] *)
  match last (Sparse.shape values) with
  | None => Raise IndexError
  | Some nnz =>
      let '(row, col) := indices in
      if (ndim values =? 1)%nat then
        if (ndim other =? 1)%nat then
          let* y := of_kernel (coo_matvec nnz row col (data values)
                                 (data other) (replicate (fst shape) 0%Q)) in
          Ok (mk_ndarray [fst shape] y)
        else if (ndim other =? 2)%nat then
          let ncols := default 0%nat (last (Sparse.shape other)) in
          let* cols :=
            traverse
              (fun i => of_kernel (coo_matvec nnz row col (data values)
                                     (column ncols (data other) i)
                                     (replicate (fst shape) 0%Q)))
              (seq 0 ncols) in
          Ok (mk_ndarray [fst shape; ncols] (of_columns (fst shape) cols))
        else Raise (ValueError rank_msg)
      else Raise (NotImplementedError batch_msg)
  end.

(** [NumPyBackend.csr_spmm(crow, col, values, shape, other)] *)
Definition csr_spmm (crow col : list Z) (values : ndarray)
  (shape : nat * nat) (other : ndarray) : result ndarray :=
  let '(M, N) := shape in
  if (ndim values =? 1)%nat then
    if (ndim other =? 1)%nat then
      let* y := of_kernel (csr_matvec M N crow col (data values)
                             (data other) (replicate M 0%Q)) in
      Ok (mk_ndarray [M] y)
    else if (ndim other =? 2)%nat then
      let n_vecs := default 0%nat (last (Sparse.shape other)) in
      let* y := of_kernel (csr_matvecs M N n_vecs crow col (data values)
                             (data other) (replicate (M * n_vecs) 0%Q)) in
      Ok (mk_ndarray [M; n_vecs] y)
    else Raise (ValueError rank_msg)
  else Raise (NotImplementedError batch_msg).

(** The dense matrix a COO triple stands for: entry [(i, j)] is the sum of
    the values stored at that position. *)
Definition coo_todense (shape : nat * nat) (Ai Aj : list Z) (Ax : list Q)
  : list (list Q) :=
  map (fun i =>
         map (fun j =>
                qsum (omap (fun '(r, c, v) =>
                              if (r =? Z.of_nat i) && (c =? Z.of_nat j)
                              then Some v else None)
                           (zip (zip Ai Aj) Ax)))
             (seq 0 (snd shape)))
      (seq 0 (fst shape)).

(** The dense matrix-vector product. *)
Definition dense_matvec (D : list (list Q)) (x : list Q) : list Q :=
  map (fun row => qsum (zip_with Qmult row x)) D.

End Sparse.

(** ** Geometric kernels *)

Module Geometry.

Definition vsub (a b : list Q) : list Q := zip_with Qminus a b.

(** [np.linalg.det]: in exact arithmetic the LU factorisation returns the
    determinant, here expanded along the first row.  [n] is the number of
    rows. *)
Fixpoint det (n : nat) (m : list (list Q)) : Q :=
  match n, m with
  | S n', r :: rest =>
      qsum (imap (fun j a =>
                    ((if Nat.even j then a else - a)
                     * det n' (map (remove_index j) rest))%Q)
                 r)
  | _, _ => 1%Q
  end.

Definition is_square (m : list (list Q)) : bool :=
  forallb (fun r => (length r =? length m)%nat) m.

Definition simplex_msg : string :=
  "The geometric dimension of points must be NVC-1to form a simplex.".

(** [NumPyBackend.simplex_measure(entity, node)] for one entity. *)
Definition simplex_measure (entity : list Z) (node : list (list Q)) : result Q :=
  let* points := traverse (getitem node) entity in
  match points with
  | [] => Raise (RuntimeError simplex_msg)
  | pt :: rest =>
      let TD := length rest in
      if negb (TD =? length pt)%nat then Raise (RuntimeError simplex_msg)
      else
        (* edges = points[..., 1:, :] - points[..., :-1, :] *)
        let edges := zip_with vsub rest points in
        Ok (det TD edges / inject_Z (factorial TD))%Q
  end.

Definition square_msg : string :=
  "Last 2 dimensions of the array must be square".

(** [NumPyBackend.triangle_grad_lambda_2d(tri, node)] for one triangle.
    [numpy.linalg.det] is no part of the repository: it factorises the
    matrix in double precision, and the double it returns need not be the
    determinant (it can be non-zero for a singular matrix, and zero for a
    regular one).  The value it returns is the parameter [linalg_det], of
    which nothing is assumed.  The division is that of the floats: a zero
    divisor gives [inf] or [nan]. *)
Definition triangle_grad_lambda_2d (linalg_det : list (list Q) -> Q)
  (tri : list Z) (node : list (list Q))
  : result (list (list (option Q))) :=
  let* points := traverse (getitem node) tri in
  let* p2 := getitem points 2 in
  let* p1 := getitem points 1 in
  let* p0 := getitem points 0 in
  let e0 := vsub p2 p1 in
  let e1 := vsub p0 p2 in
  let e2 := vsub p1 p0 in
  if negb (is_square [e0; e1]) then Raise (LinAlgError square_msg)
  else
    let nv := linalg_det [e0; e1] in
    (* np.flip(e, axis=-1), then result[..., 0] *= -1 *)
    let result :=
      map (fun e => match rev e with
                    | [] => []
                    | x :: tl => (x * -1)%Q :: tl
                    end) [e0; e1; e2] in
    Ok (map (map (fun x => fdiv x nv)) result).

End Geometry.

(** ** Device arguments *)

Module Device.

Inductive pyval : Type :=
  | PyNone
  | PyStr (s : string)
  | PyInt (z : Z).

(** [_remove_device(func)]: the wrapper drops the keyword [device] and
    calls [func] with what is left. *)
Definition _remove_device {A R : Type} (func : A -> gmap string pyval -> R)
  : A -> gmap string pyval -> R :=
  fun args kwargs => func args (delete "device" kwargs).

Definition device_msg : string := "only cpu device is supported by NumPyBackend ".

(** [NumPyBackend.device_put(tensor_like, device=None)] *)
Definition device_put {T : Type} (tensor_like : T) (device : pyval) : result T :=
  match device with
  | PyNone => Ok tensor_like
  | PyStr s => if String.eqb s "cpu" then Ok tensor_like
               else Raise (NotImplementedError device_msg)
  | _ => Raise (NotImplementedError device_msg)
  end.

(** [np.zeros] of NumPy 1.x, which has no keyword [device]. *)
Definition np_zeros (n : nat) (kwargs : gmap string pyval) : result (list Q) :=
  match kwargs !! "device" with
  | Some _ =>
      Raise (TypeError "'device' is an invalid keyword argument for zeros()")
  | None => Ok (replicate n 0%Q)
  end.

(** [zeros = staticmethod(_remove_device(np.zeros))] *)
Definition zeros : nat -> gmap string pyval -> result (list Q) :=
  _remove_device np_zeros.

End Device.

(** ** Vectorising map *)

Module Vmap.

Definition axes_msg : string :=
  "Only support in_axes == out_axes with numpy backend".

(** What the wrapped function returns: one array or a tuple of arrays. *)
Inductive returned (T : Type) : Type :=
  | Single (a : T)
  | Tuple (l : list T).
Arguments Single {T} a.
Arguments Tuple {T} l.

Section Vectorized.

(** The arrays and NumPy's [unstack] and [stack]. *)
Context {T : Type}.
Variable unstack : Z -> T -> result (list T).
Variable stack : Z -> list T -> result T.

(** [zip] of the unpacked lists [ls]: the tuples of the k-th elements, up
    to the shortest list. *)
Fixpoint zip_star (fuel : nat) (ls : list (list T)) : list (list T) :=
  match fuel with
  | O => []
  | S fuel' =>
      match mapM head ls with
      | Some hs => hs :: zip_star fuel' (map tail ls)
      | None => []
      end
  end.

Definition as_tuple (r : returned T) : list T :=
  match r with
  | Single a => [a]
  | Tuple l => l
  end.

(** The function [vectorized] that [vmap] returns; [args] are the
    positional arguments that are arrays. *)
Definition vectorized (func : list T -> returned T) (in_axes : Z)
  (args : list T) : result (returned T) :=
  let* arr_lists := traverse (unstack in_axes) args in
  match arr_lists with
  | [] => Raise (TypeError "map() must have at least two arguments.")
  | first :: _ =>
      let results := map func (zip_star (length first) arr_lists) in
      match results with
      | [] => Raise IndexError
      | Tuple r0 :: _ =>
          let* stacked :=
            traverse (stack in_axes)
                     (zip_star (length r0) (map as_tuple results)) in
          Ok (Tuple stacked)
      | Single _ :: _ =>
          let* stacked := stack in_axes (concat (map as_tuple results)) in
          Ok (Single stacked)
      end
  end.

(** [NumPyBackend.vmap(func, in_axes, out_axes)] *)
Definition vmap (func : list T -> returned T) (in_axes out_axes : Z)
  : result (list T -> result (returned T)) :=
  if negb (in_axes =? out_axes) then Raise (ValueError axes_msg)
  else Ok (vectorized func in_axes).

End Vectorized.

(** The decimal numeral of an integer, as Python prints it. *)
Definition repr (z : Z) : string := pretty z.

(** Whether [msg] contains the numeral of [z]. *)
Definition names_value (msg : string) (z : Z) : bool :=
  match String.index 0 (repr z) msg with
  | Some _ => true
  | None => false
  end.

End Vmap.

(** ** The closed-form multi-index matrix of the JAX mesh *)

Module Jax.

(** [np.floor((-1 + np.sqrt(1 + 8*i))/2)] for an integer-valued float [i]:
    [nan] ([None]) when [1 + 8*i] is negative; otherwise the floor of
    [(sqrt(m) - 1)/2] is that of [(floor(sqrt(m)) - 1)/2]. *)
Definition tri_root (i : Z) : option Z :=
  if 1 + 8 * i <? 0 then None else Some ((Z.sqrt (1 + 8 * i) - 1) / 2).

(** [(m - 1e-4)(m + 1 - 1e-4)(m + 2 - 1e-4) <= 6*i], cleared of
    denominators. *)
Definition below (m i : Z) : bool :=
  (10000 * m - 1) * (10000 * m + 9999) * (10000 * m + 19999)
  <=? 6 * 10 ^ 12 * i.

Fixpoint scan (fuel : nat) (m i : Z) : Z :=
  match fuel with
  | O => m
  | S fuel' => if below (m + 1) i then scan fuel' (m + 1) i else m
  end.

(** [idx0 = (3*i + sqrt(81*i*i - 1/3)/3)**(1/3)] followed by
    [floor(idx0 + 1/idx0/3 - 1 + 1e-4)], for [i >= 1].  With
    [u = idx0], [u**3] and [1/(27*u**3)] are the two roots of
    [t*t - 6*i*t + 1/27], so [x = u + 1/(3*u)] satisfies [x**3 - x = 6*i]
    and [n = x - 1] is the real root of [n(n+1)(n+2) = 6*i].  The floor of
    [n + 1e-4] is the largest integer [m] with
    [(m - 1e-4)(m + 1 - 1e-4)(m + 2 - 1e-4) <= 6*i]. *)
Definition tet_root (i : Z) : Z := scan (Z.to_nat i) 0 i.

(** Assigning a float to an [np.int_] cell: [nan] becomes the
    platform's integer [nan_int]. *)
Definition to_int (nan_int : Z) (x : option Z) : Z :=
  match x with
  | Some z => int64 z
  | None => nan_int
  end.

Definition fsubZ (x y : option Z) : option Z :=
  match x, y with
  | Some a, Some b => Some (a - b)
  | _, _ => None
  end.

(** [MeshBase.multi_index_matrix(p, etype)]; [None] for an [etype] other
    than 1, 2, 3, where the function returns nothing. *)
Definition multi_index_matrix (nan_int : Z) (p : nat) (etype : Z)
  : option (list (list Z)) :=
  let P := Z.of_nat p in
  if etype =? 3 then
    let ldof := (P + 1) * (P + 2) * (P + 3) / 6 in
    Some
      ([P; 0; 0; 0] ::
       map (fun idx =>
              let idx0 := tet_root idx in
              let idx1 := idx - idx0 * (idx0 + 1) * (idx0 + 2) / 6 in
              let idx2 := tri_root idx1 in
              let m3 := to_int nan_int
                          (fsubZ (Some idx1)
                             (option_map (fun t => t * (t + 1) / 2) idx2)) in
              let m2 := to_int nan_int (fsubZ idx2 (Some m3)) in
              let m1 := to_int nan_int (fsubZ (Some idx0) idx2) in
              let m0 := int64 (P - int64 (int64 (m1 + m2) + m3)) in
              [m0; m1; m2; m3])
           (arange 1 (Z.to_nat (ldof - 1))))
  else if etype =? 2 then
    let ldof := (P + 1) * (P + 2) / 2 in
    Some
      (map (fun idx =>
              let idx0 := tri_root idx in
              let m2 := to_int nan_int
                          (fsubZ (Some idx)
                             (option_map (fun t => t * (t + 1) / 2) idx0)) in
              let m1 := to_int nan_int (fsubZ idx0 (Some m2)) in
              let m0 := int64 (int64 (P - m1) - m2) in
              [m0; m1; m2])
           (arange 0 (Z.to_nat ldof)))
  else if etype =? 1 then
    let ldof := P + 1 in
    (* np.arange(p, -1, -1) *)
    Some (map (fun k => let m0 := P - k in [m0; int64 (P - m0)])
              (arange 0 (Z.to_nat ldof)))
  else None.

End Jax.

(** ** Gradients of the barycentric coordinates *)

Module Gradients.
Import Geometry.

Definition fneg (x : option Q) : option Q := option_map Qopp x.

(** [NumPyBackend.interval_grad_lambda(line, node)] for one interval, in
    exact arithmetic: the differences, the squares, their sum and the
    quotients are those of the rationals, so that the divisor [h2] is
    zero only when the end points coincide; the rounding of the doubles,
    and the overflow or underflow of [h2] for end points further apart
    than about [1e154] or closer than about [1e-162], are not
    represented. *)
Definition interval_grad_lambda (line : list Z) (node : list (list Q))
  : result (list (list (option Q))) :=
  let* points := traverse (getitem node) line in
  let* p1 := getitem points 1 in
  let* p0 := getitem points 0 in
  let v := vsub p1 p0 in
  (* h2 = np.sum(v**2, axis=-1, keepdims=True) *)
  let h2 := qsum (map (fun a => a ^ 2)%Q v) in
  (* v /= h2 *)
  let v := map (fun a => fdiv a h2) v in
  (* np.stack([-v, v], axis=-2) *)
  Ok [map fneg v; v].

(** Points and vectors of the three-dimensional space, the shape
    [(..., 3)] of the arrays below. *)
Definition vec3 : Type := (Q * Q * Q)%type.

Definition list3 (a : vec3) : list Q := let '(x, y, z) := a in [x; y; z].

Definition sub3 (a b : vec3) : vec3 :=
  let '(a0, a1, a2) := a in
  let '(b0, b1, b2) := b in
  (a0 - b0, a1 - b1, a2 - b2)%Q.

(** [np.cross] of two vectors of dimension 3. *)
Definition cross (a b : vec3) : vec3 :=
  let '(a0, a1, a2) := a in
  let '(b0, b1, b2) := b in
  (a1 * b2 - a2 * b1, a2 * b0 - a0 * b2, a0 * b1 - a1 * b0)%Q.

(** [NumPyBackend.tetrahedron_grad_lambda_3d(tet, node, localFace)] for one
    tetrahedron: [tet] is one row of the [(NC, 4)] array of cells, [node]
    the [(NN, 3)] array of points and [localFace] an array with rows of
    three local vertex numbers.  The arithmetic is exact, as in
    [simplex_measure]: the divisor [6 * volume] is zero only for a flat
    tetrahedron, and the rounding of the doubles, with the overflow or
    underflow of the determinant on very large or very small cells, is
    not represented. *)
Definition tetrahedron_grad_lambda_3d (tet : Z * Z * Z * Z) (node : list vec3)
  (localFace : list (Z * Z * Z)) : result (list (list (option Q))) :=
  let '(t0, t1, t2, t3) := tet in
  let tet := [t0; t1; t2; t3] in
  let* volume := simplex_measure tet (map list3 node) in
  traverse
    (fun i =>
       (* j, k, m = localFace[i] *)
       let* face := getitem localFace i in
       let '(j, k, m) := face in
       (* vjk = node[tet[:, k],:] - node[tet[:, j],:] *)
       let* tk := getitem tet k in
       let* pk := getitem node tk in
       let* tj := getitem tet j in
       let* pj := getitem node tj in
       let vjk := sub3 pk pj in
       (* vjm = node[tet[:, m],:] - node[tet[:, j],:] *)
       let* tm := getitem tet m in
       let* pm := getitem node tm in
       let* tj := getitem tet j in
       let* pj := getitem node tj in
       let vjm := sub3 pm pj in
       Ok (map (fun a => fdiv a (6 * volume)) (list3 (cross vjm vjk))))
    (arange 0 4).

End Gradients.

(** ** Unique values with their first and last occurrences *)

Module Unique.

(** [np.unique(a, return_index=True, return_inverse=True,
    return_counts=True)] on a one-dimensional integer array: the sorted
    distinct values, for each of them the index of its first occurrence,
    for each element of [a] the position of its value among the distinct
    values, and the number of occurrences of each value. *)
Definition first_index (v : Z) (a : list Z) : nat :=
  match list_find (fun x => x = v) a with
  | Some (i, _) => i
  | None => 0%nat
  end.

Definition np_unique (a : list Z)
  : list Z * list nat * list nat * list nat :=
  let b := merge_sort Z.le (remove_dups a) in
  (b,
   map (fun v => first_index v a) b,
   map (fun x => first_index x b) a,
   map (fun v => length (filter (fun x => x = v) a)) b).

(** [x[indices] = values] with an index array: the assignments are made
    one after the other, so that for a repeated index the last value
    stays. *)
Definition assign_at (x : list nat) (indices values : list nat) : list nat :=
  foldl (fun acc '(k, n) => <[k := n]> acc) x (zip indices values).

(** [NumPyBackend.unique_all_(a)] on a one-dimensional integer array. *)
Definition unique_all_ (a : list Z)
  : list Z * list nat * list nat * list nat * list nat :=
  let '(b, indices0, inverse, counts) := np_unique a in
  (* indices1 = np.zeros_like(indices0) *)
  let indices1 := map (fun _ => 0%nat) indices0 in
  (* indices1[inverse] = range(inverse.shape[0]) *)
  let indices1 := assign_at indices1 inverse (seq 0 (length inverse)) in
  (b, indices0, indices1, inverse, counts).

End Unique.

(** ** The data structure of the JAX meshes *)

Module Mesh.

(** Exceptions raised by the mesh data structure. *)
Inductive error : Type :=
  | KeyError (key : string)
  | ValueError (msg : string)
  | RuntimeError (msg : string).

Inductive outcome (A : Type) : Type :=
  | Returns (a : A)
  | Raises (e : error).
Arguments Returns {A} a.
Arguments Raises {A} e.

Definition obind {A B : Type} (m : outcome A) (k : A -> outcome B) : outcome B :=
  match m with
  | Returns a => k a
  | Raises e => Raises e
  end.

Notation "'do*' x ':=' m 'in' k" := (obind m (fun x => k))
  (at level 10, x name, m at level 100, k at level 200).

Section DataStructure.

(** The entity arrays, their number of axes and their indexing. *)
Context {Array Index : Type}.
Variable ndim : Array -> nat.
Variable getitem : Array -> Index -> outcome Array.
(** [ds.__class__.__name__] *)
Variable class_name : string.

(** The instance dictionary of a [MeshDataStructure]: the entries that
    [__init__] creates, with their annotated types ([None] is a missing
    key), and the other entries, which hold arrays. *)
Record instance : Type := mk_instance {
  _entity_storage : option (gmap Z Array);
  NN : option Z;
  TD : option Z;
  others : gmap string Array;
}.

(** What reading an attribute returns. *)
Inductive attribute : Type :=
  | AInt (z : Z)
  | AArray (a : Array)
  | AStorage (s : gmap Z Array).

Definition _STORAGE_ATTR : list string :=
  ["cell"; "face"; "edge"; "cell_location"; "face_location"].

(** [self.__dict__[name]] *)
Definition dict_getitem (self : instance) (name : string) : outcome attribute :=
  let entry :=
    if String.eqb name "_entity_storage" then AStorage <$> _entity_storage self
    else if String.eqb name "NN" then AInt <$> NN self
    else if String.eqb name "TD" then AInt <$> TD self
    else AArray <$> others self !! name in
  match entry with
  | Some a => Returns a
  | None => Raises (KeyError name)
  end.

(** [ds.top_dimension()], that is [self.TD]: the key is looked up in the
    instance dictionary and, when it is missing, by [__getattr__], which
    looks it up there again. *)
Definition top_dimension (self : instance) : outcome Z :=
  match TD self with
  | Some z => Returns z
  | None => Raises (KeyError "TD")
  end.

(** [ds._entity_storage], in the same way. *)
Definition get_storage (self : instance) : outcome (gmap Z Array) :=
  match _entity_storage self with
  | Some s => Returns s
  | None => Raises (KeyError "_entity_storage")
  end.

(** [entity_str2dim(ds, etype)] *)
Definition entity_str2dim (ds : instance) (etype : string) : outcome Z :=
  if String.eqb etype "cell" then top_dimension ds
  else if String.eqb etype "cell_location" then
    do* TD := top_dimension ds in Returns (- TD)
  else if String.eqb etype "face" then
    do* TD := top_dimension ds in
    if TD <=? 1 then Raises (ValueError "the mesh has no face entity.")
    else Returns (TD - 1)
  else if String.eqb etype "face_location" then
    do* TD := top_dimension ds in
    if TD <=? 1 then Raises (ValueError "the mesh has no face location.")
    else Returns (- TD + 1)
  else if String.eqb etype "edge" then Returns 1
  else if String.eqb etype "node" then Returns 0
  else Raises (KeyError (etype ++ " is not a valid entity attribute.")).

(** [entity_dim2array(ds, etype_dim, index=None, *, default=_default)];
    [None] stands for the default value of [index] and of [default]. *)
Definition entity_dim2array (ds : instance) (etype_dim : Z)
  (index : option Index) (default : option Array) : outcome Array :=
  do* storage := get_storage ds in
  match storage !! etype_dim with
  | Some et =>
      match index with
      | None => Returns et
      | Some i =>
          if (ndim et =? 1)%nat
          then Raises (RuntimeError "index is not supported for flattened entity.")
          else getitem et i
      end
  | None =>
      match default with
      | Some d => Returns d
      | None =>
          Raises (ValueError
                    (pretty etype_dim
                     ++ " is not a valid entity attribute index in "
                     ++ class_name ++ "."))
      end
  end.

(** [MeshDataStructure.__getattr__(self, name)] *)
Definition __getattr__ (self : instance) (name : string) : outcome attribute :=
  if negb (bool_decide (name ∈ _STORAGE_ATTR)) then dict_getitem self name
  else
    do* etype_dim := entity_str2dim self name in
    do* et := entity_dim2array self etype_dim None None in
    Returns (AArray et).

(** [self.name] for a name that is no attribute of the class: the
    instance dictionary first, then [__getattr__]. *)
Definition getattr (self : instance) (name : string) : outcome attribute :=
  match dict_getitem self name with
  | Returns a => Returns a
  | Raises _ => __getattr__ self name
  end.

(** [hasattr(self, name)]: [False] only for an [AttributeError]; every
    other exception goes through.  [__getattr__] never raises an
    [AttributeError]. *)
Definition hasattr (self : instance) (name : string) : outcome bool :=
  do* _a := getattr self name in Returns true.

(** [MeshDataStructure.__setattr__(self, name, value)] for an array
    [value]; [name] is not one of the three keys of [__init__], which hold
    integers and the dictionary of the entities. *)
Definition __setattr__ (self : instance) (name : string) (value : Array)
  : outcome instance :=
  if bool_decide (name ∈ _STORAGE_ATTR) then
    do* has := hasattr self "_entity_storage" in
    if negb has then
      Raises (RuntimeError "please call super().__init__() before setting attributes.")
    else
      do* etype_dim := entity_str2dim self name in
      do* storage := get_storage self in
      Returns (mk_instance (Some (<[etype_dim := value]> storage))
                           (NN self) (TD self) (others self))
  else
    (* super().__setattr__(name, value) *)
    Returns (mk_instance (_entity_storage self) (NN self) (TD self)
                         (<[name := value]> (others self))).

(** [MeshDataStructure.__init__(self, NN, TD)] on a new instance. *)
Definition __init__ (NN TD : Z) : instance :=
  mk_instance (Some ∅) (Some NN) (Some TD) ∅.

(** [HomoMeshDataStructure.__init__(self, NN, TD, cell)] *)
Definition homo_init (NN TD : Z) (cell : Array) : outcome instance :=
  __setattr__ (__init__ NN TD) "cell" cell.

(** [MeshDataStructure.entity(self, etype, index=None, *, default=_default)];
    [etype] is a name or a dimension. *)
Definition entity (self : instance) (etype : string + Z)
  (index : option Index) (default : option Array) : outcome Array :=
  do* etype := match etype with
               | inl name => entity_str2dim self name
               | inr dim => Returns dim
               end in
  entity_dim2array self etype index default.

End DataStructure.

End Mesh.

(** ** Tensor products of barycentric coordinates *)

Module TensorProduct.

(** One row of [np.einsum('ma, nb -> mnab', ...)] after the reshape: the
    products of the entries of two rows, the second index running
    fastest. *)
Definition kron (r1 r2 : list Q) : list Q :=
  concat (map (fun a => map (fun b => a * b)%Q r2) r1).

(** The rows for all pairs of rows of two arrays, the second row index
    running fastest. *)
Definition outer (t1 t2 : list (list Q)) : list (list Q) :=
  concat (map (fun r1 => map (fun r2 => kron r1 r2) t2) t1).

(** [NumPyBackend.tensorprod] called with at least one array of rank 2,
    each given by its rows and with at least one row: the subscripts are
    taken from ['mnopq'] and ['abcde'], five letters each, and the result
    of [np.einsum] is reshaped to one row for every combination of
    rows. *)
Definition tensorprod (t : list (list Q)) (ts : list (list (list Q)))
  : result (list (list Q)) :=
  let num := length (t :: ts) in
  (* desp1[i] + desp2[i] for i in range(num) *)
  if (5 <? num)%nat then Raise IndexError
  else Ok (foldl outer t ts).

End TensorProduct.

(** ** Normals and tangents of edges *)

Module Edges.
Import Geometry.

Definition only_2d_msg : string := "Only 2D meshes are supported.".

(** [node.shape[-1]] of a two-dimensional array with at least one row,
    given by its rows. *)
Definition columns (node : list (list Q)) : nat :=
  match node with
  | [] => 0
  | row :: _ => length row
  end.

(** [NumPyBackend.edge_normal(edge, node)] for one edge, with [unit] and
    [out] left at their defaults; [node] has at least one row, and
    [points.shape[-1]] is the number of its columns. *)
Definition edge_normal (edge : list Z) (node : list (list Q))
  : result (list Q) :=
  let* points := traverse (getitem node) edge in
  if negb (columns node =? 2)%nat then Raise (ValueError only_2d_msg)
  else
    (* edges = points[..., 1, :] - points[..., 0, :] *)
    let* p1 := getitem points 1 in
    let* p0 := getitem points 0 in
    let edges := vsub p1 p0 in
    let* e1 := getitem edges 1 in
    let* e0 := getitem edges 0 in
    Ok [e1; (- e0)%Q].

(** [NumPyBackend.edge_tangent(edge, node)] for one edge, with [unit] and
    [out] left at their defaults. *)
Definition edge_tangent (edge : list Z) (node : list (list Q))
  : result (list Q) :=
  let* i1 := getitem edge 1 in
  let* a := getitem node i1 in
  let* i0 := getitem edge 0 in
  let* b := getitem node i0 in
  Ok (vsub a b).

End Edges.

(** ** Entities of a JAX mesh *)

Module MeshBase.
Import Mesh.

Section Base.

Context {Array Index : Type}.
Variable ndim : Array -> nat.
Variable getitem : Array -> Index -> outcome Array.
Variable class_name : string.
(** [a.shape[-1]] of an array with at least one axis, and
    [a.reshape(-1, n)]. *)
Variable last_axis : Array -> Z.
Variable reshape : Array -> Z -> outcome Array.

(** A mesh: its data structure and its nodes. *)
Record mesh : Type := mk_mesh {
  ds : @instance Array;
  node : Array;
}.

(** [self.ds.name] for one of the names ['cell'], ['edge'] and ['face']:
    the instance dictionary first, then [__getattr__], which takes the
    branch of the stored entities. *)
Definition ds_entity (ds : @instance Array) (name : string) : outcome Array :=
  match others ds !! name with
  | Some a => Returns a
  | None =>
      do* etype_dim := entity_str2dim ds name in
      entity_dim2array ndim getitem class_name ds etype_dim None None
  end.

(** [etype in {name, dim}] *)
Definition is_in (etype : string + Z) (name : string) (dim : Z) : bool :=
  match etype with
  | inl s => String.eqb s name
  | inr d => d =? dim
  end.

(** [str(etype)] *)
Definition str (etype : string + Z) : string :=
  match etype with
  | inl s => s
  | inr d => pretty d
  end.

(** [MeshBase.entity(self, etype, index)] *)
Definition entity (self : mesh) (etype : string + Z) (index : Index)
  : outcome Array :=
  do* TD := top_dimension (ds self) in
  let GD := last_axis (node self) in
  if is_in etype "cell" TD then
    do* a := ds_entity (ds self) "cell" in getitem a index
  else if is_in etype "edge" 1 then
    do* a := ds_entity (ds self) "edge" in getitem a index
  else if is_in etype "node" 0 then
    do* a := reshape (node self) GD in getitem a index
  else if is_in etype "face" (TD - 1) then
    do* a := ds_entity (ds self) "face" in getitem a index
  else Raises (ValueError ("Invalid etype '" ++ str etype ++ "'.")).

End Base.

End MeshBase.

(** * Vocabulary of the properties *)

(** ** Multi-indices *)

Module MultiIndexDefs.
Import MultiIndex.

(** The binomial coefficient, by Pascal's rule. *)
Fixpoint binom (n k : nat) : nat :=
  match n, k with
  | _, O => 1
  | O, S _ => 0
  | S n', S k' => binom n' k' + binom n' k
  end.

(** Strict lexicographic order, first coordinate most significant. *)
Inductive lex_lt : list Z -> list Z -> Prop :=
  | lex_head x y l l' : x < y -> lex_lt (x :: l) (y :: l')
  | lex_tail x l l' : lex_lt l l' -> lex_lt (x :: l) (x :: l').

(** [a[1:] - a[:-1]] for the row [prev :: l], without a cast. *)
Fixpoint diff_from (prev : Z) (l : list Z) : list Z :=
  match l with
  | [] => []
  | y :: tl => (y - prev) :: diff_from y tl
  end.

(** The sum of a row. *)
Definition sumZ (l : list Z) : Z := foldr Z.add 0 l.

(** The matrix without the casts of the [int32] dtype. *)
Definition rows_of_separators (p dim : nat) : list (list Z) :=
  map (fun s => diff_from 0 (s ++ [Z.of_nat p]))
      (rev (combinations_with_replacement dim (range (p + 1)))).

End MultiIndexDefs.

(** ** Reference simplices *)

Module GeometryDefs.

(** The vertices of the unit right triangle and of the unit tetrahedron. *)
Definition unit_triangle : list (list Q) := [[0; 0]; [1; 0]; [0; 1]]%Q.

Definition unit_tetrahedron : list (list Q) :=
  [[0; 0; 0]; [1; 0; 0]; [0; 1; 0]; [0; 0; 1]]%Q.

End GeometryDefs.

(** ** Dense operands *)

Module SpmmDefs.
Import Sparse.

(** A dense operand of rank 3 and one of rank 1. *)
Definition rank3 : ndarray := mk_ndarray [1; 1; 1]%nat [1%Q].

Definition vector1 : ndarray := mk_ndarray [1%nat] [1%Q].

End SpmmDefs.

(** ** Sums of rationals *)

Module QSumDefs.

(** The sum of the values of [f] over [l], added from the right. *)
Definition sumq {A : Type} (f : A -> Q) (l : list A) : Q :=
  foldr (fun x acc => f x + acc)%Q 0%Q l.

End QSumDefs.

(** ** The entries of a sparse matrix *)

Module SparseDefs.
Import Sparse.

(** The stored entries [(row, col, value)] of a COO matrix. *)
Definition entries (Ai Aj : list Z) (Ax : list Q) : list (Z * Z * Q) :=
  zip (zip Ai Aj) Ax.

(** The entries of row [i], in the order of the input. *)
Definition row_entries (E : list (Z * Z * Q)) (i : nat) : list (Z * Q) :=
  omap (fun '(r, c, v) => if r =? Z.of_nat i then Some (c, v) else None) E.

(** The number of entries in the rows before row [i]. *)
Definition row_start (E : list (Z * Z * Q)) (i : nat) : nat :=
  length (concat (map (row_entries E) (seq 0 i))).

(** The CSR triple that keeps every entry: the entries row by row, each
    row in input order, and the offsets of the rows. *)
Definition csr_of_coo (M : nat) (E : list (Z * Z * Q))
  : list Z * list Z * list Q :=
  let sorted := concat (map (row_entries E) (seq 0 M)) in
  (map (fun i => Z.of_nat (row_start E i)) (seq 0 (S M)),
   map fst sorted, map snd sorted).

(** The number of entries of row [i] among the first [n] entries. *)
Definition cnt (E : list (Z * Z * Q)) (n i : nat) : nat :=
  length (row_entries (take n E) i).

(** Where the [k]-th entry, of row [r], is stored. *)
Definition slot (E : list (Z * Z * Q)) (k : nat) (r : Z) : nat :=
  (row_start E (Z.to_nat r) + cnt E k (Z.to_nat r))%nat.

(** The value a row contributes to the product with the vector [x],
    accumulated from [y] in the order of the stored entries. *)
Definition row_dot (x : list Q) (L : list (Z * Q)) (y : Q) : Q :=
  foldl (fun s '(c, v) => s + v * default 0 (x !! Z.to_nat c))%Q y L.

(** The column indices that a CSR triple stores for row [i]. *)
Definition row_columns (crow col : list Z) (i : nat) : list Z :=
  match crow !! i, crow !! S i with
  | Some lo, Some hi => take (Z.to_nat (hi - lo)) (drop (Z.to_nat lo) col)
  | _, _ => []
  end.

End SparseDefs.

(** ** Convolutions and binomial coefficients *)

Module ConvolutionDefs.
Import QSumDefs.

(** A natural number as a rational. *)
Definition nq (n : nat) : Q := inject_Z (Z.of_nat n).

(** The convolution of two sequences. *)
Definition conv (u v : nat -> Q) (n : nat) : Q :=
  sumq (fun k => u k * v (n - k)%nat)%Q (seq 0 (S n)).

(** The generalised binomial coefficient [X (X-1) ... (X-k+1) / k!] and
    its derivative with respect to [X]. *)
Fixpoint bq (X : Q) (k : nat) : Q :=
  match k with
  | O => 1
  | S k' => bq X k' * (X - nq k') / nq (S k')
  end.

Fixpoint dbq (X : Q) (k : nat) : Q :=
  match k with
  | O => 0
  | S k' => (dbq X k' * (X - nq k') + bq X k') / nq (S k')
  end.

(** The convolution of a list of sequences. *)
Fixpoint conv_list (us : list (nat -> Q)) : nat -> Q :=
  match us with
  | [] => fun n => match n with O => 1%Q | S _ => 0%Q end
  | [u] => u
  | u :: us' => conv u (conv_list us')
  end.

(** The product of the values of the sequences at a multi-index. *)
Fixpoint prod_at (us : list (nat -> Q)) (alpha : list Z) : Q :=
  match us, alpha with
  | u :: us', a :: alpha' => (u (Z.to_nat a) * prod_at us' alpha')%Q
  | _, _ => 1%Q
  end.

(** The binomial sequences of [Xs], the one at position [i] replaced by
    [c] times its derivative. *)
Fixpoint marked (c : Q) (i : nat) (Xs : list Q) : list (nat -> Q) :=
  match Xs with
  | [] => []
  | X :: Xs' =>
      match i with
      | O => (fun k => c * dbq X k)%Q :: map bq Xs'
      | S i' => bq X :: marked c i' Xs'
      end
  end.

End ConvolutionDefs.

(** ** The tables of the shape functions *)

Module ShapeDefs.
Import Shape ConvolutionDefs.

Section Tables.

Variable p : nat.

(** The shifted value [p*x - t] for [t = np.arange(0, p)[k]]. *)
Definition shifted (k : nat) (x : Q) : Q :=
  (inject_Z (Z.of_nat p) * x - inject_Z (0 + Z.of_nat k))%Q.

(** Entry [k] of the running product of the column of [x]. *)
Fixpoint cum (k : nat) (x : Q) : Q :=
  match k with
  | O => 1
  | S k' => cum k' x * shifted k' x
  end.

(** Entry [k] of the column of [x] in the table [A]. *)
Definition tabA (k : nat) (x : Q) : Q :=
  match k with
  | O => cum 0 x
  | S _ => cum k x * (1 / inject_Z (factorial k))
  end.

(** Entry [(j, m)] of the matrix [FF] of one coordinate [x] after the
    diagonal has been set. *)
Definition diag_entry (x : Q) (j m : nat) : Q :=
  if (m =? j)%nat then inject_Z (Z.of_nat p) else (shifted j x * 1)%Q.

(** Entry [(j, m)] after [np.cumprod] along the rows. *)
Fixpoint cum_entry (x : Q) (j m : nat) : Q :=
  match j with
  | O => diag_entry x 0 m
  | S j' => cum_entry x j' m * diag_entry x j m
  end.

(** The sums [np.sum(np.tril(FF), axis=-1)] of one coordinate. *)
Definition tril_sums (x : Q) : list Q :=
  map qsum
      (tril (cumprod (set_diagonal p
         (map (fun a => map (fun one => a * one)%Q (replicate p 1%Q))
              (map (fun k => shifted k x) (seq 0 p)))))).

(** Entry [k] of the column of [x] in the table [F]. *)
Definition tabF (k : nat) (x : Q) : Q :=
  match k with
  | O => 0%Q
  | S j => (nth j (tril_sums x) 0 * (1 / inject_Z (factorial k)))%Q
  end.

(** The derivative of the running product [cum], by the product rule. *)
Fixpoint dcum (k : nat) (x : Q) : Q :=
  match k with
  | O => 0
  | S k' => dcum k' x * shifted k' x + nq p * cum k' x
  end.

End Tables.

(** The sequences of the entries of one row of the gradient: the column of
    [x] in [F] at position [i], in [A] elsewhere. *)
Fixpoint mixed (f g : nat -> Q -> Q) (i : nat) (bc : list Q) {struct bc}
  : list (nat -> Q) :=
  match bc with
  | [] => []
  | x :: bc' =>
      match i with
      | O => (fun k => g k x) :: map (fun y k => f k y) bc'
      | S i' => (fun k => f k x) :: mixed f g i' bc'
      end
  end.

End ShapeDefs.

(** ** Unit multi-indices *)

Module NodalDefs.

(** The row of the unit vector [e_b] of dimension [dim + 1]. *)
Definition unit_row (dim b : nat) : list Z :=
  replicate b 0 ++ [1] ++ replicate (dim - b) 0.

End NodalDefs.

(** ** Arrays of rank 2 *)

Module MatrixDefs.

(** A row-major array [Y] of shape [(M, K)] described entry by entry. *)
Definition holds (M K : nat) (Y : list Q) (F : nat -> nat -> Q) : Prop :=
  length Y = (M * K)%nat
  /\ forall r k, (r < M)%nat -> (k < K)%nat -> Y !! (r * K + k)%nat = Some (F r k).

(** The sum that the kernels accumulate for one entry of the product with
    the row-major array [X] of [K] columns: the terms of the stored
    entries [L] of a row, for column [k]. *)
Definition block (K : nat) (X : list Q) (L : list (Z * Q)) (k : nat) : Q :=
  foldl (fun s '(c, v) => s + v * default 0 (X !! (Z.to_nat c * K + k)%nat))%Q
        0%Q L.

End MatrixDefs.

(** ** Affine functions on a simplex *)

Module GradientDefs.
Import Geometry Gradients.

Definition dot (a b : list Q) : Q := qsum (zip_with Qmult a b).

(** The affine function with gradient [g] and the value 1 at [p]. *)
Definition affine (g p x : list Q) : Q := (1 + dot g (vsub x p))%Q.

Definition identity3 : list (list Q) := [[1; 0; 0]; [0; 1; 0]; [0; 0; 1]]%Q.

Definition identity4 : list (list Q) :=
  [[1; 0; 0; 0]; [0; 1; 0; 0]; [0; 0; 1; 0]; [0; 0; 0; 1]]%Q.

(** Local faces numbered so that face [i] is opposite to vertex [i], with
    the orientation of [TetrahedronMesh]. *)
Definition opposite_faces : list (Z * Z * Z) :=
  [(1, 2, 3); (0, 3, 2); (0, 1, 3); (0, 2, 1)].

(** [|a| <= L] and [l <= |a|]. *)
Definition at_most (L a : Q) : Prop := (- L <= a /\ a <= L)%Q.

Definition at_least (l a : Q) : Prop := (a <= - l \/ l <= a)%Q.

(** Vectors whose squared length doubles compute without overflow or
    underflow: no component is above [2^500] in absolute value, and one
    is at least [2^-500]. *)
Definition squares_in_range (v : list Q) : Prop :=
  Forall (at_most (2 ^ 500)) v /\ Exists (at_least (2 ^ (-500))) v.

(** Tetrahedra whose determinant doubles compute without overflow,
    underflow or cancellation to zero: no edge has a component above [L]
    in absolute value, with [2^-300 <= L <= 2^300], and six times the
    volume is at least [L^3 / 2^30] in absolute value. *)
Definition well_shaped (L vol : Q) (P : list vec3) : Prop :=
  (2 ^ (-300) <= L /\ L <= 2 ^ 300)%Q
  /\ Forall (fun a =>
               Forall (fun b => Forall (at_most L) (list3 (sub3 a b))) P) P
  /\ at_least (L ^ 3 / 2 ^ 30) (6 * vol).

End GradientDefs.

(** ** Instances of the mesh data structure *)

Module MeshDefs.

(** No name of a stored entity is a key of the instance dictionary. *)
Definition entities_stored_apart {Array : Type} (self : @Mesh.instance Array)
  : Prop :=
  forall name, name ∈ Mesh._STORAGE_ATTR -> Mesh.others self !! name = None.

End MeshDefs.

(** ** Multi-indices of a triangle *)

Module TriangleDefs.

(** The triangular number [T(n) = n (n + 1) / 2]. *)
Fixpoint triangular (n : nat) : nat :=
  match n with
  | O => O
  | S n' => (triangular n' + n)%nat
  end.

(** The rows of the multi-index matrix of a triangle, block by block: the
    block [t] holds the rows [(p - t, t - u, u)] for [u = 0, ..., t]. *)
Definition triangle_rows (p : nat) : list (list Z) :=
  concat (map (fun t => map (fun u => [Z.of_nat p - Z.of_nat t;
                                       Z.of_nat t - Z.of_nat u; Z.of_nat u])
                            (seq 0 (S t)))
              (seq 0 (S p))).

End TriangleDefs.

(** * Properties *)

(** ** Fixed-width integers *)

Lemma wrap_small w z :
  0 < w -> - 2 ^ (w - 1) <= z < 2 ^ (w - 1) -> wrap w z = z.
Proof.
  intros Hw Hz. unfold wrap.
  assert (E : 2 ^ w = 2 * 2 ^ (w - 1)).
  { replace w with (Z.succ (w - 1)) at 1 by lia.
    rewrite Z.pow_succ_r by lia. reflexivity. }
  rewrite Z.mod_small by lia. lia.
Qed.

Lemma int32_small z : - 2 ^ 31 <= z < 2 ^ 31 -> int32 z = z.
Proof. intros H. apply wrap_small; simpl; lia. Qed.

Lemma int64_small z : - 2 ^ 63 <= z < 2 ^ 63 -> int64 z = z.
Proof. intros H. apply wrap_small; simpl; lia. Qed.

(** ** The multi-index matrix *)

Module MultiIndexFacts.
Export MultiIndexDefs.
Import MultiIndex.

Lemma binom_0_r n : binom n 0 = 1%nat.
Proof. destruct n; reflexivity. Qed.

Lemma binom_gt n k : (n < k)%nat -> binom n k = 0%nat.
Proof.
  revert k. induction n as [|n IH]; intros [|k] H; simpl; try lia.
  rewrite !IH by lia. reflexivity.
Qed.

Lemma binom_diag n : binom n n = 1%nat.
Proof.
  induction n as [|n IH]; simpl; [reflexivity|].
  rewrite IH, binom_gt by lia. reflexivity.
Qed.

(** [binom] is the usual quotient of factorials. *)
Lemma binom_fact n k :
  (k <= n)%nat -> (binom n k * (fact k * fact (n - k)) = fact n)%nat.
Proof.
  revert k. induction n as [|n IH]; intros k Hk.
  - assert (k = 0%nat) by lia. subst. reflexivity.
  - destruct k as [|k]; [simpl; lia|].
    destruct (decide (k = n)) as [->|Hne].
    + rewrite binom_diag, Nat.sub_diag. simpl. lia.
    + cbn [binom]. replace (S n - S k)%nat with (n - k)%nat by lia.
      pose proof (IH k ltac:(lia)) as H1.
      pose proof (IH (S k) ltac:(lia)) as H2.
      replace (n - k)%nat with (S (n - S k)) in * by lia.
      change (fact (S n)) with (S n * fact n)%nat.
      change (fact (S k)) with (S k * fact k)%nat in *.
      change (fact (S (n - S k))) with (S (n - S k) * fact (n - S k))%nat in *.
      nia.
Qed.

Lemma cwr_nil {A} r : combinations_with_replacement (S r) (@nil A) = [].
Proof. reflexivity. Qed.

Lemma cwr_cons {A} r (x : A) tl :
  combinations_with_replacement (S r) (x :: tl)
  = map (cons x) (combinations_with_replacement r (x :: tl))
    ++ combinations_with_replacement (S r) tl.
Proof. reflexivity. Qed.

Lemma cwr_length {A} r (pool : list A) :
  length (combinations_with_replacement r pool)
  = binom (length pool + r - 1) r.
Proof.
  revert pool. induction r as [|r IHr]; intros pool.
  - simpl. rewrite binom_0_r. reflexivity.
  - induction pool as [|x tl IHp].
    + rewrite cwr_nil. simpl. rewrite binom_gt by lia. reflexivity.
    + rewrite cwr_cons, length_app, length_map, IHr, IHp.
      cbn [length].
      replace (S (length tl) + S r - 1)%nat with (S (length tl + r)) by lia.
      replace (S (length tl) + r - 1)%nat with (length tl + r)%nat by lia.
      replace (length tl + S r - 1)%nat with (length tl + r)%nat by lia.
      reflexivity.
Qed.

(** Every tuple has [r] entries of the pool, none below the head of the
    pool, in non-decreasing order. *)
Lemma cwr_tuples r : forall pool t,
  StronglySorted Z.lt pool ->
  In t (combinations_with_replacement r pool) ->
  length t = r /\ Forall (fun z => In z pool) t /\ StronglySorted Z.le t.
Proof.
  induction r as [|r IHr]; intros pool t Hs Hin.
  - simpl in Hin. destruct Hin as [<-|[]]. repeat split; constructor.
  - induction pool as [|x tl IHp]; [destruct Hin|].
    rewrite cwr_cons in Hin. apply in_app_or in Hin as [Hin|Hin].
    + apply in_map_iff in Hin as (t' & <- & Hin).
      destruct (IHr _ _ Hs Hin) as (Hl & Hm & Hsort).
      split; [simpl; congruence|]. split.
      * constructor; [left; reflexivity | exact Hm].
      * constructor; [exact Hsort|].
        eapply Forall_impl; [exact Hm|]. intros z Hz. simpl in Hz.
        destruct Hz as [<-|Hz]; [lia|].
        inversion Hs as [|? ? _ Hall]; subst.
        rewrite Forall_forall in Hall. apply Z.lt_le_incl, Hall.
        apply list_elem_of_In, Hz.
    + inversion Hs as [|? ? Hs' _]; subst.
      destruct (IHp Hs' Hin) as (Hl & Hm & Hsort).
      repeat split; try assumption.
      eapply Forall_impl; [exact Hm|]. intros z Hz. right. exact Hz.
Qed.

Lemma lex_sorted_cons x (l : list (list Z)) :
  StronglySorted lex_lt l -> StronglySorted lex_lt (map (cons x) l).
Proof.
  induction 1 as [|t l _ IH Hall]; simpl; constructor; [exact IH|].
  rewrite Forall_map. eapply Forall_impl; [exact Hall|].
  intros t' H. apply lex_tail, H.
Qed.

Lemma cwr_sorted r : forall pool,
  StronglySorted Z.lt pool ->
  StronglySorted lex_lt (combinations_with_replacement r pool).
Proof.
  induction r as [|r IHr]; intros pool Hs.
  - simpl. repeat constructor.
  - induction pool as [|x tl IHp]; [constructor|].
    rewrite cwr_cons. inversion Hs as [|? ? Hs' Hall]; subst.
    apply StronglySorted_app. split; [|split].
    + intros t1 t2 H1 H2.
      apply list_elem_of_In, in_map_iff in H1 as (t1' & <- & _).
      apply list_elem_of_In in H2.
      destruct (cwr_tuples _ _ _ Hs' H2) as (Hl & Hm & _).
      destruct t2 as [|y t2']; [discriminate|].
      apply lex_head. inversion Hm as [|? ? Hy _]; subst.
      rewrite Forall_forall in Hall. apply Hall, list_elem_of_In, Hy.
    + apply lex_sorted_cons, IHr, Hs.
    + apply IHp, Hs'.
Qed.

Lemma range_bounds n z : In z (range n) -> 0 <= z < Z.of_nat n.
Proof.
  unfold range. intros H. apply in_map_iff in H as (k & <- & Hk).
  apply in_seq in Hk. lia.
Qed.

Lemma range_sorted n : StronglySorted Z.lt (range n).
Proof.
  unfold range. generalize 0%nat as a.
  induction n as [|n IH]; intros a; simpl; constructor; [apply IH|].
  rewrite Forall_map, Forall_forall. intros k Hk.
  apply list_elem_of_In, in_seq in Hk. simpl. lia.
Qed.

Lemma diff_row_from cast x tl :
  diff_row cast (x :: tl) = map cast (diff_from x tl).
Proof.
  revert x. induction tl as [|y tl IH]; intros x; [reflexivity|].
  cbn [diff_row diff_from map]. f_equal. apply IH.
Qed.

Lemma diff_from_length a l : length (diff_from a l) = length l.
Proof. revert a. induction l as [|y l IH]; intros a; simpl; congruence. Qed.

Lemma diff_from_sum l : forall a P,
  sumZ (diff_from a (l ++ [P])) = P - a.
Proof.
  induction l as [|y l IH]; intros a P; simpl; [lia|].
  rewrite IH. lia.
Qed.

Lemma diff_from_bounds P l : forall a,
  StronglySorted Z.le (a :: l) -> Forall (fun z => z <= P) l ->
  Forall (fun d => 0 <= d <= P - a) (diff_from a l).
Proof.
  induction l as [|y l IH]; intros a Hs Hb; simpl; constructor.
  - inversion Hs as [|? ? _ Hall]; subst.
    inversion Hall; subst. inversion Hb; subst. lia.
  - inversion Hs as [|? ? Hs' Hall]; subst. inversion Hb; subst.
    inversion Hall; subst.
    eapply Forall_impl; [apply IH; assumption|]. simpl. intros d Hd. lia.
Qed.

Lemma diff_from_lex s s' P :
  lex_lt s s' -> forall a,
  lex_lt (diff_from a (s ++ [P])) (diff_from a (s' ++ [P])).
Proof.
  induction 1 as [x y l l' Hxy|x l l' _ IH]; intros a; simpl.
  - apply lex_head. lia.
  - apply lex_tail, IH.
Qed.

Lemma lex_lt_irrefl l : ~ lex_lt l l.
Proof.
  induction l as [|x l IH]; intros H; inversion H; subst; [lia|auto].
Qed.

Lemma sorted_map {A B} (R : A -> A -> Prop) (R' : B -> B -> Prop) (f : A -> B) l :
  (forall x y, R x y -> R' (f x) (f y)) ->
  StronglySorted R l -> StronglySorted R' (map f l).
Proof.
  intros Hf. induction 1 as [|x l _ IH Hall]; simpl; constructor; [exact IH|].
  rewrite Forall_map. eapply Forall_impl; [exact Hall|]. intros y. apply Hf.
Qed.

Lemma sorted_rev {A} (R : A -> A -> Prop) l :
  StronglySorted R l -> StronglySorted (flip R) (rev l).
Proof.
  induction 1 as [|x l _ IH Hall]; simpl; [constructor|].
  apply StronglySorted_app. split; [|split].
  - intros y z Hy Hz. apply list_elem_of_In in Hy, Hz.
    destruct Hz as [<-|[]]. apply in_rev in Hy.
    rewrite Forall_forall in Hall. apply Hall, list_elem_of_In, Hy.
  - exact IH.
  - repeat constructor.
Qed.

Lemma sorted_NoDup {A} (R : A -> A -> Prop) l :
  (forall x, ~ R x x) -> StronglySorted R l -> NoDup l.
Proof.
  intros Hirr. induction 1 as [|x l _ IH Hall]; constructor; [|exact IH].
  intros Hin. rewrite Forall_forall in Hall. exact (Hirr x (Hall x Hin)).
Qed.

(** The separators padded with [0] and [p] are a non-decreasing row. *)
Lemma padded_sorted P s :
  0 <= P -> StronglySorted Z.le s -> Forall (fun z => 0 <= z <= P) s ->
  StronglySorted Z.le (0 :: s ++ [P]) /\ Forall (fun z => z <= P) (s ++ [P]).
Proof.
  intros HP Hs Hb. split.
  - constructor.
    + apply StronglySorted_app. split; [|split].
      * intros y z Hy Hz. apply list_elem_of_In in Hz. destruct Hz as [<-|[]].
        rewrite Forall_forall in Hb. apply Hb, Hy.
      * exact Hs.
      * repeat constructor.
    + apply Forall_app. split; [|repeat constructor; lia].
      eapply Forall_impl; [exact Hb|]. simpl. lia.
  - apply Forall_app. split; [|repeat constructor; lia].
    eapply Forall_impl; [exact Hb|]. simpl. lia.
Qed.

Lemma separators_spec p dim s :
  In s (combinations_with_replacement dim (range (p + 1))) ->
  length s = dim /\ StronglySorted Z.le s
  /\ Forall (fun z => 0 <= z <= Z.of_nat p) s.
Proof.
  intros Hin.
  destruct (cwr_tuples _ _ _ (range_sorted _) Hin) as (Hl & Hm & Hs).
  repeat split; try assumption.
  eapply Forall_impl; [exact Hm|]. intros z Hz.
  apply range_bounds in Hz. lia.
Qed.

Lemma multi_index_matrix_unwrapped p dim :
  Z.of_nat p < 2 ^ 31 -> multi_index_matrix p dim = rows_of_separators p dim.
Proof.
  intros Hp. unfold multi_index_matrix, rows_of_separators.
  rewrite <- !map_rev, !map_map. apply map_ext_in. intros s Hs.
  apply in_rev in Hs. apply separators_spec in Hs as (_ & Hsort & Hb).
  rewrite diff_row_from.
  assert (Hid : map int32 s = s).
  { rewrite <- (map_id s) at 2. apply map_ext_in. intros z Hz.
    rewrite Forall_forall in Hb. apply list_elem_of_In, Hb in Hz.
    apply int32_small. lia. }
  rewrite Hid, (int32_small (Z.of_nat p)) by lia.
  destruct (padded_sorted (Z.of_nat p) s ltac:(lia) Hsort Hb) as [H1 H2].
  pose proof (diff_from_bounds _ _ _ H1 H2) as Hd.
  rewrite <- (map_id (diff_from _ _)) at 2. apply map_ext_in. intros d Hin.
  rewrite Forall_forall in Hd. apply list_elem_of_In, Hd in Hin.
  apply int32_small. lia.
Qed.

Lemma rows_of_separators_spec p dim row :
  In row (rows_of_separators p dim) ->
  length row = S dim /\ Forall (Z.le 0) row /\ sumZ row = Z.of_nat p.
Proof.
  unfold rows_of_separators. intros Hin.
  apply in_map_iff in Hin as (s & <- & Hs). apply in_rev in Hs.
  apply separators_spec in Hs as (Hl & Hsort & Hb).
  destruct (padded_sorted (Z.of_nat p) s ltac:(lia) Hsort Hb) as [H1 H2].
  split; [|split].
  - rewrite diff_from_length, length_app. simpl. lia.
  - eapply Forall_impl; [exact (diff_from_bounds _ _ _ H1 H2)|].
    simpl. intros d Hd. lia.
  - rewrite diff_from_sum. lia.
Qed.

Lemma rows_of_separators_sorted p dim :
  StronglySorted (flip lex_lt) (rows_of_separators p dim).
Proof.
  unfold rows_of_separators.
  apply (sorted_map (flip lex_lt)).
  - intros s s' H. apply diff_from_lex, H.
  - apply sorted_rev, cwr_sorted, range_sorted.
Qed.

(** C4.  For a degree [p] that the [int32] dtype of the result can hold
    and every dimension [dim] (in particular 1, 2, 3),
    [multi_index_matrix p dim] has [C(p + dim, dim)] rows; every row has
    [dim + 1] non-negative entries that sum to [p]; no row occurs twice;
    and the rows come in strictly decreasing lexicographic order, the
    first coordinate being the most significant (it varies slowest).  The
    matrix is a function of [(p, dim)], so the order is the same on every
    call. *)
Theorem multi_index_matrix_enumeration (p dim : nat) :
  Z.of_nat p < 2 ^ 31 ->
  length (multi_index_matrix p dim) = binom (p + dim) dim
  /\ Forall (fun row => length row = S dim /\ Forall (Z.le 0) row
                       /\ sumZ row = Z.of_nat p)
            (multi_index_matrix p dim)
  /\ NoDup (multi_index_matrix p dim)
  /\ StronglySorted (flip lex_lt) (multi_index_matrix p dim).
Proof.
  intros Hp. rewrite multi_index_matrix_unwrapped by exact Hp.
  split; [|split; [|split]].
  - unfold rows_of_separators.
    rewrite length_map, length_rev, cwr_length.
    unfold range. rewrite length_map, length_seq. f_equal. lia.
  - apply Forall_forall. intros row Hin.
    apply rows_of_separators_spec, list_elem_of_In, Hin.
  - apply (sorted_NoDup (flip lex_lt)).
    + intros l. apply lex_lt_irrefl.
    + apply rows_of_separators_sorted.
  - apply rows_of_separators_sorted.
Qed.

Lemma multi_index_matrix_enumeration_witness :
  length (multi_index_matrix 2 2) = binom (2 + 2) 2
  /\ Forall (fun row => length row = 3%nat /\ Forall (Z.le 0) row
                       /\ sumZ row = 2)
            (multi_index_matrix 2 2)
  /\ NoDup (multi_index_matrix 2 2)
  /\ StronglySorted (flip lex_lt) (multi_index_matrix 2 2).
Proof. apply (multi_index_matrix_enumeration 2 2). reflexivity. Defined.

End MultiIndexFacts.

(** ** Geometric kernels *)

Module GeometryFacts.
Export GeometryDefs.
Import Geometry.

Lemma qsum_cons x l : (qsum (x :: l) == x + qsum l)%Q.
Proof.
  unfold qsum. cbn [foldl]. generalize 0%Q as a. revert x.
  induction l as [|y l IH]; intros x a; cbn [foldl]; [ring|].
  rewrite (IH y (a + x)%Q), (IH x a), (IH y a). ring.
Qed.

(** C6.  [simplex_measure] is the determinant of the consecutive edge
    vectors [points[k+1] - points[k]] divided by the factorial of the
    topological dimension; for a triangle that is the signed area; it is
    [1/2] on the unit right triangle and [1/6] on the unit tetrahedron. *)
Theorem simplex_measure_determinant :
  (forall entity node pt rest,
      traverse (getitem node) entity = Ok (pt :: rest) ->
      length rest = length pt ->
      simplex_measure entity node
      = Ok (det (length rest) (zip_with vsub rest (pt :: rest))
            / inject_Z (factorial (length rest)))%Q)
  /\ (forall x0 y0 x1 y1 x2 y2 : Q,
        exists area,
          simplex_measure [0; 1; 2] [[x0; y0]; [x1; y1]; [x2; y2]] = Ok area
          /\ (area == ((x1 - x0) * (y2 - y0) - (x2 - x0) * (y1 - y0)) / 2)%Q)
  /\ simplex_measure [0; 1; 2] unit_triangle = Ok (1 # 2)%Q
  /\ simplex_measure [0; 1; 2; 3] unit_tetrahedron = Ok (1 # 6)%Q.
Proof.
  split; [|split; [|split]].
  - intros entity node pt rest Hpts Hlen. unfold simplex_measure.
    rewrite Hpts. cbn [bind]. rewrite Hlen, Nat.eqb_refl. reflexivity.
  - intros. eexists. split; [reflexivity|].
    cbn -[Qmult Qplus Qminus Qdiv Qopp inject_Z]. unfold qsum. simpl foldl.
    change (inject_Z _) with 2%Q. field.
  - reflexivity.
  - reflexivity.
Qed.

Lemma simplex_measure_determinant_witness :
  simplex_measure [0; 1; 2] unit_triangle
  = Ok (det 2 (zip_with vsub [[1; 0]; [0; 1]] unit_triangle)
        / inject_Z (factorial 2))%Q.
Proof.
  apply (proj1 simplex_measure_determinant [0; 1; 2] unit_triangle
           [0; 0]%Q [[1; 0]; [0; 1]]%Q); reflexivity.
Defined.

(** C8 as stated fails: on the collinear vertices [(0, 0)], [(1, 3)],
    [(6, 18)] the call ends without an exception, whatever value the
    determinant routine returns. *)
Lemma degenerate_triangle_not_signalled :
  ~ (exists linalg_det e,
        triangle_grad_lambda_2d linalg_det [0; 1; 2]
                                [[0; 0]; [1; 3]; [6; 18]]%Q
        = Raise e).
Proof. intros (linalg_det & e & H). discriminate H. Qed.

(** C8, amended.  [triangle_grad_lambda_2d] checks nothing about the
    value it divides by.  For every triangle in the plane, of zero area or
    not, and whatever value [nv] the determinant routine returns for its
    edge matrix, the call raises nothing and sets no flag: it returns the
    [3 x 2] array of the quotients by [nv] of the flipped edge components.
    When [nv] is zero none of the entries is a finite number; when [nv] is
    not zero, as rounding can leave it on a triangle of zero area, all of
    them are ordinary quotients. *)
Theorem triangle_grad_lambda_2d_degenerate (linalg_det : list (list Q) -> Q)
  tri node (x0 y0 x1 y1 x2 y2 : Q) :
  traverse (getitem node) tri = Ok [[x0; y0]; [x1; y1]; [x2; y2]] ->
  let nv := linalg_det [[x2 - x1; y2 - y1]; [x0 - x2; y0 - y2]]%Q in
  let flipped :=
    [[(y2 - y1) * -1; x2 - x1]; [(y0 - y2) * -1; x0 - x2];
     [(y1 - y0) * -1; x1 - x0]]%Q in
  triangle_grad_lambda_2d linalg_det tri node
  = Ok (map (map (fun x => fdiv x nv)) flipped)
  /\ ((nv == 0)%Q ->
      triangle_grad_lambda_2d linalg_det tri node
      = Ok [[None; None]; [None; None]; [None; None]])
  /\ (~ (nv == 0)%Q ->
      triangle_grad_lambda_2d linalg_det tri node
      = Ok (map (map (fun x => Some (x / nv)%Q)) flipped)).
Proof.
  intros Hpts nv flipped.
  assert (E : triangle_grad_lambda_2d linalg_det tri node
              = Ok (map (map (fun x => fdiv x nv)) flipped)).
  { unfold triangle_grad_lambda_2d. rewrite Hpts. cbn [bind].
    change (getitem [[x0; y0]; [x1; y1]; [x2; y2]] 2) with (Ok [x2; y2]).
    change (getitem [[x0; y0]; [x1; y1]; [x2; y2]] 1) with (Ok [x1; y1]).
    change (getitem [[x0; y0]; [x1; y1]; [x2; y2]] 0) with (Ok [x0; y0]).
    reflexivity. }
  split; [exact E|]. rewrite E. split; intros Hnv.
  - assert (H0 : forall x, fdiv x nv = None).
    { intros x. unfold fdiv.
      rewrite (proj2 (Qeq_bool_iff nv 0) Hnv). reflexivity. }
    unfold flipped. cbn [map]. rewrite !H0. reflexivity.
  - assert (H1 : forall x, fdiv x nv = Some (x / nv)%Q).
    { intros x. unfold fdiv. destruct (Qeq_bool nv 0) eqn:Eb; [|reflexivity].
      apply Qeq_bool_eq in Eb. contradiction. }
    unfold flipped. cbn [map]. rewrite !H1. reflexivity.
Qed.

Lemma triangle_grad_lambda_2d_degenerate_witness :
  let nv := det 2 [[2 - 1; 2 - 1]; [0 - 2; 0 - 2]]%Q in
  let flipped :=
    [[(2 - 1) * -1; 2 - 1]; [(0 - 2) * -1; 0 - 2];
     [(1 - 0) * -1; 1 - 0]]%Q in
  triangle_grad_lambda_2d (det 2) [0; 1; 2] [[0; 0]; [1; 1]; [2; 2]]%Q
  = Ok (map (map (fun x => fdiv x nv)) flipped)
  /\ ((nv == 0)%Q ->
      triangle_grad_lambda_2d (det 2) [0; 1; 2] [[0; 0]; [1; 1]; [2; 2]]%Q
      = Ok [[None; None]; [None; None]; [None; None]])
  /\ (~ (nv == 0)%Q ->
      triangle_grad_lambda_2d (det 2) [0; 1; 2] [[0; 0]; [1; 1]; [2; 2]]%Q
      = Ok (map (map (fun x => Some (x / nv)%Q)) flipped)).
Proof.
  apply (triangle_grad_lambda_2d_degenerate (det 2) [0; 1; 2]
           [[0; 0]; [1; 1]; [2; 2]]%Q 0%Q 0%Q 1%Q 1%Q 2%Q 2%Q); reflexivity.
Defined.

End GeometryFacts.

(** ** Rank dispatch of the sparse products *)

Module SpmmFacts.
Export SpmmDefs.
Import Sparse.

Lemma of_kernel_not_raise {A} (o : option A) e : of_kernel o <> Raise e.
Proof. destruct o; discriminate. Qed.

Lemma traverse_not_raise {A B} (f : A -> result B) l :
  (forall x e, f x <> Raise e) -> forall e, traverse f l <> Raise e.
Proof.
  intros Hf. induction l as [|x l IH]; intros e; simpl; [discriminate|].
  destruct (f x) as [y| |] eqn:E; simpl; [|exfalso; eapply Hf, E|discriminate].
  destruct (traverse f l) as [ys| |] eqn:E'; simpl; try discriminate.
  intros H. eapply IH. reflexivity || exact E'.
Qed.

(** C5 as stated fails: for a dense operand of rank 3 and a sparse matrix
    with a plain vector of values the signal is not the "batch product
    not supported" one. *)
Lemma rank3_signal_is_not_batch :
  ~ (forall indices values shape other,
        (3 <= ndim other)%nat ->
        coo_spmm indices values shape other
        = Raise (NotImplementedError batch_msg)).
Proof.
  intros H. specialize (H ([0], [0]) vector1 (1, 1)%nat rank3 (le_n 3)).
  discriminate H.
Qed.

(** C5, amended.  With a vector of stored values, [coo_spmm] and
    [csr_spmm] run the product for a dense operand of rank 1 or 2 (they
    raise nothing) and reject every other rank, in particular every rank
    of 3 or more, with the [ValueError] "`other` must be a 1-D or 2-D
    array."; the [NotImplementedError] "Batch sparse matrix
    multiplication has not been supported yet." is what a stored-values
    array of rank 2 or more gets, whatever the rank of the dense
    operand. *)
Theorem spmm_rank_dispatch (indices : list Z * list Z) (crow col : list Z)
  (values : ndarray) (shape : nat * nat) (other : ndarray) :
  (ndim values = 1%nat ->
   (ndim other = 1%nat \/ ndim other = 2%nat ->
    (forall e, coo_spmm indices values shape other <> Raise e)
    /\ (forall e, csr_spmm crow col values shape other <> Raise e))
   /\ (ndim other <> 1%nat -> ndim other <> 2%nat ->
       coo_spmm indices values shape other = Raise (ValueError rank_msg)
       /\ csr_spmm crow col values shape other = Raise (ValueError rank_msg)))
  /\ ((2 <= ndim values)%nat ->
      coo_spmm indices values shape other
      = Raise (NotImplementedError batch_msg)
      /\ csr_spmm crow col values shape other
         = Raise (NotImplementedError batch_msg)).
Proof.
  destruct indices as [row col'], shape as [M N].
  unfold coo_spmm, csr_spmm, ndim. split.
  - intros Hv. rewrite Hv. cbn [Nat.eqb].
    destruct (Sparse.shape values) as [|nnz [|]] eqn:Es; try discriminate.
    cbn [last]. split.
    + intros [Ho|Ho]; rewrite Ho; cbn [Nat.eqb]; split; intros e.
      * destruct (of_kernel _) eqn:E; simpl; try discriminate.
        exfalso. eapply of_kernel_not_raise, E.
      * destruct (of_kernel _) eqn:E; simpl; try discriminate.
        exfalso. eapply of_kernel_not_raise, E.
      * match goal with |- context [traverse ?f ?l] =>
          pose proof (traverse_not_raise f l
                        (fun x e => of_kernel_not_raise _ e)) as Ht;
          destruct (traverse f l) eqn:E end; simpl; try discriminate.
        exfalso. eapply Ht. reflexivity.
      * destruct (of_kernel _) eqn:E; simpl; try discriminate.
        exfalso. eapply of_kernel_not_raise, E.
    + intros H1 H2.
      apply Nat.eqb_neq in H1, H2. rewrite H1, H2. split; reflexivity.
  - intros Hv.
    assert (E : (length (Sparse.shape values) =? 1)%nat = false)
      by (apply Nat.eqb_neq; lia).
    rewrite E. split; [|reflexivity].
    destruct (Sparse.shape values) as [|a l] eqn:Es; [simpl in Hv; lia|].
    destruct (last (a :: l)) eqn:El; [reflexivity|].
    apply last_None in El. discriminate.
Qed.

Lemma spmm_rank_dispatch_witness :
  coo_spmm ([0], [0]) vector1 (1, 1)%nat rank3 = Raise (ValueError rank_msg)
  /\ csr_spmm [0; 1] [0] vector1 (1, 1)%nat rank3 = Raise (ValueError rank_msg).
Proof.
  apply (proj1 (spmm_rank_dispatch ([0], [0]) [0; 1] [0] vector1
                  (1, 1)%nat rank3));
    [reflexivity | discriminate | discriminate].
Defined.

End SpmmFacts.

(** ** Device arguments *)

Module DeviceFacts.
Import Device.

(** C7 on the NumPy 1.x path: the wrapper forwards the call whatever the
    value of [device]; [zeros(3, device="cuda")] returns its array,
    whereas [device_put] rejects the same device. *)
Theorem creation_ignores_device :
  (forall (A R : Type) (func : A -> gmap string pyval -> R) args kwargs d,
      _remove_device func args (<["device" := d]> kwargs)
      = _remove_device func args kwargs)
  /\ zeros 3 {["device" := PyStr "cuda"]} = Ok [0; 0; 0]%Q
  /\ device_put [0; 0; 0]%Q (PyStr "cuda")
     = Raise (NotImplementedError device_msg).
Proof.
  split; [|split; reflexivity].
  intros A R func args kwargs d. unfold _remove_device.
  rewrite delete_insert_eq. reflexivity.
Qed.

End DeviceFacts.

(** ** Vectorising map *)

Module VmapFacts.
Import Vmap.

(** C9 as stated fails: the error of [vmap] for the axes 0 and 1 names
    neither of them. *)
Lemma vmap_error_names_no_axis :
  ~ (forall (T : Type) unstack stack (func : list T -> returned T)
            (in_axes out_axes : Z),
        in_axes <> out_axes ->
        exists msg,
          vmap unstack stack func in_axes out_axes = Raise (ValueError msg)
          /\ names_value msg in_axes = true
          /\ names_value msg out_axes = true).
Proof.
  intros H.
  destruct (H unit (fun _ _ => Ok []) (fun _ _ => Ok tt) (fun _ => Single tt)
              0 1 ltac:(discriminate)) as (msg & Hm & Hin & _).
  injection Hm as <-. discriminate Hin.
Qed.

(** C9, amended.  [vmap] with [in_axes <> out_axes] raises at once, before
    any vectorised function exists, the [ValueError] "Only support
    in_axes == out_axes with numpy backend": one fixed message for every
    pair of axes, which holds the numeral of no axis; with
    [in_axes = out_axes] it returns the vectorised function. *)
Theorem vmap_axes_check (T : Type) unstack stack
  (func : list T -> returned T) (in_axes out_axes : Z) :
  (in_axes <> out_axes ->
   vmap unstack stack func in_axes out_axes = Raise (ValueError axes_msg))
  /\ (in_axes = out_axes ->
      vmap unstack stack func in_axes out_axes
      = Ok (vectorized unstack stack func in_axes))
  /\ names_value axes_msg 0 = false /\ names_value axes_msg 1 = false.
Proof.
  unfold vmap. split; [|split; [|split; reflexivity]].
  - intros H. apply Z.eqb_neq in H. rewrite H. reflexivity.
  - intros ->. rewrite Z.eqb_refl. reflexivity.
Qed.

End VmapFacts.

(** ** Shape functions *)

Module ShapeFacts.
Import MultiIndex Shape.

(** C1 at degree 21: the running product of [np.arange(1, 22)] leaves the
    64-bit integers at [21!], the table is scaled by the reciprocal of the
    wrapped value, and at the vertex [(1, 0)] of the interval the shape
    functions sum to [-64965492466875/5403251710789] (about -12), not
    to 1. *)
Theorem partition_of_unity_fails_at_21 :
  exists phi total,
    simplex_shape_function [1; 0]%Q 21 = Ok phi
    /\ fsum phi = Some total
    /\ (total == -64965492466875 # 5403251710789)%Q
    /\ ~ (total == 1)%Q.
Proof.
  eexists. eexists. split; [vm_compute; reflexivity|].
  split; [vm_compute; reflexivity|]. split; [reflexivity|discriminate].
Qed.

(** C3 as stated fails: at degree 1 on the interval the gradient array is
    the identity matrix, and its rows sum to 1. *)
Lemma gradient_rows_do_not_sum_to_zero :
  ~ (forall (bc : list Q) (p : nat) grad,
        (qsum bc == 1)%Q ->
        simplex_grad_shape_function bc p = Ok grad ->
        Forall (fun row => exists s, fsum row = Some s /\ (s == 0)%Q) grad).
Proof.
  intros H.
  assert (E : simplex_grad_shape_function [1 # 2; 1 # 2]%Q 1
              = Ok [[Some 1%Q; Some (0 # 2)%Q]; [Some (0 # 2)%Q; Some 1%Q]]).
  { vm_compute. reflexivity. }
  specialize (H [1 # 2; 1 # 2]%Q 1%nat _ eq_refl E).
  inversion H as [|row rest (s & Hs & Hz) _]; subst.
  vm_compute in Hs. injection Hs as <-. discriminate Hz.
Qed.

End ShapeFacts.

(** ** The two multi-index matrices *)

Module JaxFacts.
Import MultiIndex MultiIndexFacts.

Lemma cwr_head {A} r (x : A) tl :
  exists rest,
    combinations_with_replacement r (x :: tl) = replicate r x :: rest.
Proof.
  induction r as [|r [rest IH]]; [eexists; reflexivity|].
  rewrite cwr_cons, IH. eexists. reflexivity.
Qed.

Lemma last_map_rev {A B} (f : A -> B) x l :
  last (map f (rev (x :: l))) = Some (f x).
Proof. simpl. rewrite map_app. simpl. apply last_snoc. Qed.

Lemma diff_from_zeros dim P :
  diff_from 0 (replicate dim 0 ++ [P]) = replicate dim 0 ++ [P].
Proof.
  induction dim as [|dim IH]; simpl; [f_equal; lia|].
  rewrite IH. reflexivity.
Qed.

(** The last row of the enumerated matrix is [(0, ..., 0, p)]. *)
Lemma multi_index_matrix_last p dim :
  Z.of_nat p < 2 ^ 31 ->
  last (multi_index_matrix p dim) = Some (replicate dim 0 ++ [Z.of_nat p]).
Proof.
  intros Hp. rewrite multi_index_matrix_unwrapped by exact Hp.
  unfold rows_of_separators, range.
  replace (p + 1)%nat with (S p) by lia. cbn [seq map].
  destruct (cwr_head dim (Z.of_nat 0) (map Z.of_nat (seq 1 p))) as [rest ->].
  rewrite last_map_rev. f_equal. apply diff_from_zeros.
Qed.

Lemma tet_root_477190 : Jax.tet_root 477190 = 141.
Proof. vm_compute. reflexivity. Qed.

Lemma last_cons_map_arange {B} (b : B) (g : Z -> B) (m : Z) :
  1 <= m -> last (b :: map g (arange 1 (Z.to_nat m))) = Some (g m).
Proof.
  intros Hm. replace (Z.to_nat m) with (S (Z.to_nat (m - 1))) by lia.
  unfold arange. rewrite seq_S, !map_app. cbn [map].
  rewrite app_comm_cons, last_snoc. do 2 f_equal. lia.
Qed.

(** C10 at degree 140 on tetrahedra.  For the last index 477190 the
    closed form rounds the cubic root up to 141, the remainder becomes
    -1, its square root is [nan], and the row is filled with the integer
    a [nan] converts to; the enumerated matrix ends with [(0, 0, 0, 140)].
    Whatever that integer is, the two matrices differ. *)
Theorem closed_form_differs_at_140 (nan_int : Z) :
  Jax.multi_index_matrix nan_int 140 3
  <> Some (multi_index_matrix 140 3).
Proof.
  intros H.
  assert (Hl : last (multi_index_matrix 140 3) = Some [0; 0; 0; 140])
    by (apply (multi_index_matrix_last 140 3); reflexivity).
  unfold Jax.multi_index_matrix in H. rewrite Z.eqb_refl in H.
  apply (f_equal (fun o => match o with Some m => last m | None => None end))
    in H.
  cbv beta iota in H. rewrite Hl in H. clear Hl.
  change ((Z.of_nat 140 + 1) * (Z.of_nat 140 + 2) * (Z.of_nat 140 + 3) / 6 - 1)
    with 477190 in H.
  rewrite last_cons_map_arange in H by lia.
  rewrite tet_root_477190 in H.
  change (477190 - 141 * (141 + 1) * (141 + 2) / 6) with (-1) in H.
  change (Jax.tri_root (-1)) with (@None Z) in H.
  cbn [option_map Jax.fsubZ Jax.to_int] in H.
  injection H as _ H1 _ H3. lia.
Qed.

(** X3.  Up to degree 20 the closed forms and the enumeration give the same
    matrix, on intervals, triangles and tetrahedra. *)
Theorem closed_form_agrees_up_to_20 (nan_int : Z) (p : nat) :
  (p <= 20)%nat ->
  Jax.multi_index_matrix nan_int p 1 = Some (multi_index_matrix p 1)
  /\ Jax.multi_index_matrix nan_int p 2 = Some (multi_index_matrix p 2)
  /\ Jax.multi_index_matrix nan_int p 3 = Some (multi_index_matrix p 3).
Proof.
  intros Hp.
  do 21 (destruct p as [|p];
         [clear Hp; split; [|split]; vm_compute; reflexivity|]).
  lia.
Qed.

Lemma closed_form_agrees_up_to_20_witness :
  Jax.multi_index_matrix 0 2 1 = Some (multi_index_matrix 2 1)
  /\ Jax.multi_index_matrix 0 2 2 = Some (multi_index_matrix 2 2)
  /\ Jax.multi_index_matrix 0 2 3 = Some (multi_index_matrix 2 3).
Proof. apply (closed_form_agrees_up_to_20 0 2). lia. Defined.

End JaxFacts.

(** ** Sums of rationals *)

Module QSum.
Export QSumDefs.

Lemma sumq_nil {A} (f : A -> Q) : sumq f [] = 0%Q.
Proof. reflexivity. Qed.

Lemma sumq_cons {A} (f : A -> Q) x l : sumq f (x :: l) = (f x + sumq f l)%Q.
Proof. reflexivity. Qed.

Lemma foldl_Qplus a l : (foldl Qplus a l == a + sumq id l)%Q.
Proof.
  revert a. induction l as [|x l IH]; intros a; cbn [foldl].
  - rewrite sumq_nil. ring.
  - rewrite IH, sumq_cons. unfold id. ring.
Qed.

Lemma qsum_sumq l : (qsum l == sumq id l)%Q.
Proof. unfold qsum. rewrite foldl_Qplus. ring. Qed.

Lemma sumq_map {A B} (g : A -> B) (f : B -> Q) l :
  sumq f (map g l) = sumq (fun x => f (g x)) l.
Proof.
  induction l as [|x l IH]; [reflexivity|].
  cbn [map]. rewrite !sumq_cons, IH. reflexivity.
Qed.

Lemma qsum_map {A} (f : A -> Q) l : (qsum (map f l) == sumq f l)%Q.
Proof. rewrite qsum_sumq, sumq_map. reflexivity. Qed.

Lemma sumq_app {A} (f : A -> Q) l1 l2 :
  (sumq f (l1 ++ l2) == sumq f l1 + sumq f l2)%Q.
Proof.
  induction l1 as [|x l1 IH]; cbn [app].
  - rewrite sumq_nil. ring.
  - rewrite !sumq_cons, IH. ring.
Qed.

Lemma sumq_ext {A} (f g : A -> Q) l :
  (forall x, In x l -> (f x == g x)%Q) -> (sumq f l == sumq g l)%Q.
Proof.
  induction l as [|x l IH]; intros H; [reflexivity|].
  rewrite !sumq_cons.
  assert (E1 : (f x == g x)%Q) by (apply H; simpl; auto).
  assert (E2 : (sumq f l == sumq g l)%Q)
    by (apply IH; intros y Hy; apply H; simpl; auto).
  rewrite E1, E2. reflexivity.
Qed.

Lemma sumq_rev {A} (f : A -> Q) l : (sumq f (rev l) == sumq f l)%Q.
Proof.
  induction l as [|x l IH]; [reflexivity|].
  cbn [rev]. rewrite sumq_app, IH, !sumq_cons, sumq_nil. ring.
Qed.

Lemma sumq_scale {A} (c : Q) (f : A -> Q) l :
  (sumq (fun x => c * f x) l == c * sumq f l)%Q.
Proof.
  induction l as [|x l IH]; [rewrite !sumq_nil; ring|].
  rewrite !sumq_cons, IH. ring.
Qed.

Lemma sumq_plus {A} (f g : A -> Q) l :
  (sumq (fun x => f x + g x) l == sumq f l + sumq g l)%Q.
Proof.
  induction l as [|x l IH]; [rewrite !sumq_nil; ring|].
  rewrite !sumq_cons, IH. ring.
Qed.

Lemma sumq_zero {A} (f : A -> Q) l :
  (forall x, In x l -> (f x == 0)%Q) -> (sumq f l == 0)%Q.
Proof.
  induction l as [|x l IH]; intros H; [reflexivity|].
  rewrite sumq_cons.
  assert (E1 : (f x == 0)%Q) by (apply H; simpl; auto).
  assert (E2 : (sumq f l == 0)%Q)
    by (apply IH; intros y Hy; apply H; simpl; auto).
  rewrite E1, E2. ring.
Qed.

(** A sum over [concat] is the sum of the sums. *)
Lemma sumq_concat {A} (f : A -> Q) ls :
  (sumq f (concat ls) == sumq (sumq f) ls)%Q.
Proof.
  induction ls as [|l ls IH]; [reflexivity|].
  cbn [concat]. rewrite sumq_app, sumq_cons, IH. reflexivity.
Qed.

End QSum.

(** ** From COO to CSR *)

Module SparseFacts.
Export SparseDefs.
Import QSum.
Import Sparse.

Lemma zget_nat {A} (l : list A) (i : nat) : zget l (Z.of_nat i) = l !! i.
Proof.
  unfold zget. destruct (Z.ltb_spec (Z.of_nat i) 0); [lia|].
  rewrite Nat2Z.id. reflexivity.
Qed.

Lemma zset_nat {A} (l : list A) (i : nat) x :
  (i < length l)%nat -> zset l (Z.of_nat i) x = Some (<[i := x]> l).
Proof.
  intros H. unfold zset.
  destruct (Z.leb_spec 0 (Z.of_nat i)); [|lia].
  destruct (Z.ltb_spec (Z.of_nat i) (Z.of_nat (length l))); [|lia].
  rewrite Nat2Z.id. reflexivity.
Qed.

Lemma zget_Z {A} (l : list A) (r : Z) : 0 <= r -> zget l r = l !! Z.to_nat r.
Proof. intros H. rewrite <- (Z2Nat.id r H) at 1. apply zget_nat. Qed.

Lemma zset_Z {A} (l : list A) (r : Z) x :
  0 <= r -> (Z.to_nat r < length l)%nat ->
  zset l r x = Some (<[Z.to_nat r := x]> l).
Proof. intros H Hl. rewrite <- (Z2Nat.id r H) at 1. apply zset_nat, Hl. Qed.

(** A loop keeps an invariant that every iteration keeps. *)
Lemma for_each_invariant {S A} (body : S -> A -> option S)
  (I : nat -> S -> Prop) (l : list A) (s : S) :
  I 0%nat s ->
  (forall k x s, l !! k = Some x -> I k s ->
                 exists s', body s x = Some s' /\ I (Datatypes.S k) s') ->
  exists s', for_each body l s = Some s' /\ I (length l) s'.
Proof.
  revert I s. induction l as [|x l IH]; intros I s H0 Hstep.
  - exists s. split; [reflexivity|exact H0].
  - destruct (Hstep 0%nat x s eq_refl H0) as (s1 & E1 & H1).
    destruct (IH (fun k => I (Datatypes.S k)) s1 H1) as (s' & E & H').
    + intros k y t Hk Ht. apply (Hstep (Datatypes.S k) y t Hk Ht).
    + exists s'. split; [|exact H'].
      cbn [for_each]. rewrite E1. exact E.
Qed.

Lemma lookup_seq_Some (n k x : nat) : seq 0 n !! k = Some x -> x = k /\ (k < n)%nat.
Proof. intros H. apply lookup_seq in H. lia. Qed.

Section Counting.

Variable E : list (Z * Z * Q).

Lemma row_entries_app E1 E2 i :
  row_entries (E1 ++ E2) i = row_entries E1 i ++ row_entries E2 i.
Proof. unfold row_entries. apply omap_app. Qed.

Lemma cnt_0 i : cnt E 0 i = 0%nat.
Proof. reflexivity. Qed.

Lemma cnt_S n i r c v :
  E !! n = Some (r, c, v) ->
  cnt E (S n) i = (cnt E n i + if (r =? Z.of_nat i)%Z then 1 else 0)%nat.
Proof.
  intros H. unfold cnt. rewrite (take_S_r _ _ _ H), row_entries_app, length_app.
  f_equal. unfold row_entries. cbn [omap list_omap].
  destruct (r =? Z.of_nat i); reflexivity.
Qed.

Lemma cnt_le n i : (cnt E n i <= length (row_entries E i))%nat.
Proof.
  unfold cnt. rewrite <- (take_drop n E) at 2.
  rewrite row_entries_app, length_app. lia.
Qed.

Lemma cnt_all n i : (length E <= n)%nat -> cnt E n i = length (row_entries E i).
Proof. intros H. unfold cnt. rewrite take_ge by exact H. reflexivity. Qed.

Lemma cnt_lt n i r c v :
  E !! n = Some (r, c, v) -> r = Z.of_nat i ->
  (cnt E n i < length (row_entries E i))%nat.
Proof.
  intros H ->. pose proof (cnt_S n i _ _ _ H) as HS.
  rewrite Z.eqb_refl in HS. pose proof (cnt_le (S n) i). lia.
Qed.

Lemma row_start_0 : row_start E 0 = 0%nat.
Proof. reflexivity. Qed.

Lemma row_start_S i :
  row_start E (S i) = (row_start E i + length (row_entries E i))%nat.
Proof.
  unfold row_start. rewrite seq_S, map_app, concat_app, length_app.
  simpl. rewrite app_nil_r. reflexivity.
Qed.

Lemma row_start_mono i j : (i <= j)%nat -> (row_start E i <= row_start E j)%nat.
Proof.
  induction 1 as [|j _ IH]; [lia|]. rewrite row_start_S. lia.
Qed.

End Counting.

Lemma row_start_cons r c v E i :
  row_start ((r, c, v) :: E) i
  = ((if ((0 <=? r) && (r <? Z.of_nat i))%Z then 1 else 0) + row_start E i)%nat.
Proof.
  induction i as [|i IH].
  - rewrite !row_start_0. change (Z.of_nat 0) with 0.
    destruct (Z.leb_spec 0 r), (Z.ltb_spec r 0); cbn [andb]; lia.
  - rewrite !row_start_S, IH. unfold row_entries at 1. cbn [omap list_omap].
    fold (row_entries E i).
    destruct (Z.eqb_spec r (Z.of_nat i)) as [->|Hne].
    + destruct (Z.leb_spec 0 (Z.of_nat i)); [|lia].
      destruct (Z.ltb_spec (Z.of_nat i) (Z.of_nat i)); [lia|].
      destruct (Z.ltb_spec (Z.of_nat i) (Z.of_nat (S i))); [|lia].
      cbn [andb length]. lia.
    + destruct (Z.leb_spec 0 r); cbn [andb]; [|lia].
      destruct (Z.ltb_spec r (Z.of_nat i)), (Z.ltb_spec r (Z.of_nat (S i)));
        lia.
Qed.

Lemma row_start_total E M i :
  Forall (fun '(r, _, _) => 0 <= r < Z.of_nat M) E ->
  (M <= i)%nat -> row_start E i = length E.
Proof.
  intros HE Hi. induction HE as [|[[r c] v] E Hr _ IH]; cbn [length].
  - unfold row_start, row_entries. cbn [omap list_omap].
    induction (seq 0 i) as [|x l IHl]; [reflexivity|exact IHl].
  - rewrite row_start_cons, IH.
    destruct (Z.leb_spec 0 r); [|lia].
    destruct (Z.ltb_spec r (Z.of_nat i)); [reflexivity|lia].
Qed.

Lemma cnt_mono E n n' i : (n <= n')%nat -> (cnt E n i <= cnt E n' i)%nat.
Proof.
  intros H. pose proof (cnt_le (take n' E) n i) as Hle.
  unfold cnt in *. rewrite take_take, Nat.min_l in Hle by exact H. exact Hle.
Qed.

Lemma cnt_lt_later E k n i r c v :
  E !! k = Some (r, c, v) -> r = Z.of_nat i -> (k < n)%nat ->
  (cnt E k i < cnt E n i)%nat.
Proof.
  intros He -> Hk. pose proof (cnt_S E k i _ _ _ He) as HS.
  rewrite Z.eqb_refl in HS. pose proof (cnt_mono E (S k) n i Hk). lia.
Qed.

Lemma slot_bounds E k r c v :
  E !! k = Some (r, c, v) -> 0 <= r ->
  (row_start E (Z.to_nat r) <= slot E k r < row_start E (S (Z.to_nat r)))%nat.
Proof.
  intros He Hr. unfold slot. rewrite row_start_S.
  pose proof (cnt_lt E k (Z.to_nat r) r c v He ltac:(lia)). lia.
Qed.

Lemma slot_fresh E k n r' c' v' r c v :
  E !! k = Some (r', c', v') -> E !! n = Some (r, c, v) ->
  0 <= r' -> 0 <= r -> (k < n)%nat -> slot E k r' <> slot E n r.
Proof.
  intros Hk Hn Hr' Hr Hlt.
  pose proof (slot_bounds E k r' c' v' Hk Hr') as B1.
  pose proof (slot_bounds E n r c v Hn Hr) as B2.
  destruct (Nat.lt_trichotomy (Z.to_nat r') (Z.to_nat r)) as [Hc|[Hc|Hc]].
  - pose proof (row_start_mono E (S (Z.to_nat r')) (Z.to_nat r) Hc). lia.
  - assert (r' = r) by lia. subst r'. unfold slot.
    pose proof (cnt_lt_later E k n (Z.to_nat r) r c' v' Hk ltac:(lia) Hlt).
    lia.
  - pose proof (row_start_mono E (S (Z.to_nat r)) (Z.to_nat r') Hc). lia.
Qed.

(** Position [m] of row [i] is position [row_start i + m] of the rows put
    end to end, and every position of the latter is of that form. *)
Lemma concat_rows_lookup E M i m y :
  (i < M)%nat -> row_entries E i !! m = Some y ->
  concat (map (row_entries E) (seq 0 M)) !! (row_start E i + m)%nat = Some y.
Proof.
  intros Hi Hm. induction M as [|M IH]; [lia|].
  rewrite seq_S, map_app, concat_app. cbn [map concat Nat.add].
  rewrite app_nil_r. fold (row_start E M).
  destruct (decide (i = M)) as [->|Hne].
  - rewrite lookup_app_r by (unfold row_start; lia).
    unfold row_start. replace (_ + m - _)%nat with m by lia.
    exact Hm.
  - apply lookup_app_l_Some, IH. lia.
Qed.

Lemma concat_rows_inv E M j y :
  concat (map (row_entries E) (seq 0 M)) !! j = Some y ->
  exists i m, (i < M)%nat /\ j = (row_start E i + m)%nat
              /\ row_entries E i !! m = Some y.
Proof.
  induction M as [|M IH]; [discriminate|].
  rewrite seq_S, map_app, concat_app. cbn [map concat Nat.add].
  rewrite app_nil_r. intros H. apply lookup_app_Some in H as [H|[Hge H]].
  - destruct (IH H) as (i & m & Hi & -> & Hm). exists i, m. auto with lia.
  - exists M, (j - row_start E M)%nat. fold (row_start E M) in Hge.
    split; [lia|]. split; [lia|exact H].
Qed.

(** The position of an entry in its row is the number of entries of that
    row before it. *)
Lemma row_entries_index E i m c v :
  row_entries E i !! m = Some (c, v) ->
  exists k, E !! k = Some (Z.of_nat i, c, v) /\ cnt E k i = m.
Proof.
  revert m. induction E as [|[[r c'] v'] E IH]; intros m H; [discriminate|].
  unfold row_entries in H. cbn [omap list_omap] in H. fold (row_entries E i) in H.
  assert (Hshift : forall k, cnt ((r, c', v') :: E) (S k) i
                   = ((if (r =? Z.of_nat i)%Z then 1 else 0) + cnt E k i)%nat).
  { intros k. unfold cnt, row_entries. cbn [take omap list_omap].
    destruct (r =? Z.of_nat i); reflexivity. }
  destruct (Z.eqb_spec r (Z.of_nat i)) as [->|Hne].
  - destruct m as [|m].
    + injection H as <- <-. exists 0%nat. split; reflexivity.
    + destruct (IH m H) as (k & Hk & Hc). exists (S k). split; [exact Hk|].
      rewrite Hshift. simpl. lia.
  - destruct (IH m H) as (k & Hk & Hc). exists (S k). split; [exact Hk|].
    rewrite Hshift. simpl. exact Hc.
Qed.

Lemma entries_lookup Ai Aj Ax n r c v :
  entries Ai Aj Ax !! n = Some (r, c, v)
  <-> Ai !! n = Some r /\ Aj !! n = Some c /\ Ax !! n = Some v.
Proof.
  unfold entries. split.
  - intros H. apply lookup_zip_with_Some in H as (rc & v' & Heq & Hrc & Hv).
    injection Heq as <- <-.
    apply lookup_zip_with_Some in Hrc as (r' & c' & Heq & Hr & Hc).
    injection Heq as <- <-. auto.
  - intros (Hr & Hc & Hv). apply lookup_zip_with_Some.
    exists (r, c), v. split; [reflexivity|].
    split; [|exact Hv]. apply lookup_zip_with_Some. eauto.
Qed.

Lemma entries_length Ai Aj Ax :
  length Ai = length Ax -> length Aj = length Ax ->
  length (entries Ai Aj Ax) = length Ax.
Proof. intros H1 H2. unfold entries. rewrite !length_zip; lia. Qed.

Lemma entries_rows Ai Aj Ax M :
  Forall (fun r => 0 <= r < Z.of_nat M) Ai ->
  Forall (fun '(r, _, _) => 0 <= r < Z.of_nat M) (entries Ai Aj Ax).
Proof.
  intros H. apply Forall_lookup. intros n [[r c] v] Hn.
  apply entries_lookup in Hn as (Hr & _ & _).
  exact (proj1 (Forall_lookup _ _) H n r Hr).
Qed.

Section Kernel.

Variables (M N : nat) (Ai Aj : list Z) (Ax : list Q).
Hypothesis Hlen_i : length Ai = length Ax.
Hypothesis Hlen_j : length Aj = length Ax.
Hypothesis Hrows : Forall (fun r => 0 <= r < Z.of_nat M) Ai.

Let E := entries Ai Aj Ax.
Let nnz := length Ax.

Lemma entry_at n :
  (n < nnz)%nat ->
  exists r c v, E !! n = Some (r, c, v) /\ Ai !! n = Some r
                /\ Aj !! n = Some c /\ Ax !! n = Some v
                /\ 0 <= r < Z.of_nat M.
Proof.
  intros Hn.
  destruct (lookup_lt_is_Some_2 E n) as [[[r c] v] He].
  { unfold E. rewrite entries_length by assumption. exact Hn. }
  exists r, c, v. split; [exact He|].
  apply entries_lookup in He as (Hr & Hc & Hv). repeat split; try assumption;
    apply (proj1 (Forall_lookup _ _) Hrows n r Hr).
Qed.

(** First loop: [std::fill(Bp, Bp + n_row, 0)]. *)
Lemma fill_loop Bp :
  length Bp = S M ->
  exists Bp',
    for_each (fun Bp i => zset Bp (Z.of_nat i) 0) (seq 0 M) Bp = Some Bp'
    /\ length Bp' = S M /\ forall i, (i < M)%nat -> Bp' !! i = Some 0.
Proof.
  intros HBp.
  destruct (for_each_invariant (fun Bp i => zset Bp (Z.of_nat i) 0)
              (fun k Bp => length Bp = S M
                           /\ forall i, (i < k)%nat -> Bp !! i = Some 0)
              (seq 0 M) Bp) as (Bp' & E1 & HI).
  - split; [exact HBp|]. intros i Hi. lia.
  - intros k x s Hk [Hl Hz]. apply lookup_seq_Some in Hk as [-> Hk].
    rewrite zset_nat by lia. eexists. split; [reflexivity|].
    split; [rewrite length_insert; exact Hl|].
    intros i Hi. destruct (decide (i = k)) as [->|Hne].
    + apply list_lookup_insert_eq. lia.
    + rewrite list_lookup_insert_ne by lia. apply Hz. lia.
  - rewrite length_seq in HI. exists Bp'. tauto.
Qed.

(** Second loop: [Bp[Ai[n]]++]. *)
Lemma count_loop Bp :
  length Bp = S M -> (forall i, (i < M)%nat -> Bp !! i = Some 0) ->
  exists Bp',
    for_each (fun Bp n => r ← Ai !! n; c ← zget Bp r; zset Bp r (c + 1))
             (seq 0 nnz) Bp = Some Bp'
    /\ length Bp' = S M
    /\ forall i, (i < M)%nat ->
                 Bp' !! i = Some (Z.of_nat (length (row_entries E i))).
Proof.
  intros HBp Hz.
  destruct (for_each_invariant
              (fun Bp n => r ← Ai !! n; c ← zget Bp r; zset Bp r (c + 1))
              (fun n Bp => length Bp = S M
                           /\ forall i, (i < M)%nat ->
                                        Bp !! i = Some (Z.of_nat (cnt E n i)))
              (seq 0 nnz) Bp) as (Bp' & E1 & Hl & HI).
  - split; [exact HBp|]. intros i Hi. rewrite cnt_0. apply Hz, Hi.
  - intros k x s Hk [Hl Hc]. apply lookup_seq_Some in Hk as [-> Hk].
    destruct (entry_at k Hk) as (r & c & v & He & Hr & _ & _ & Hb).
    rewrite Hr. cbn [mbind option_bind].
    rewrite zget_Z, (Hc (Z.to_nat r)) by lia. cbn [mbind option_bind].
    rewrite zset_Z by lia. eexists. split; [reflexivity|].
    split; [rewrite length_insert; exact Hl|].
    intros i Hi. rewrite (cnt_S E k i _ _ _ He).
    destruct (decide (Z.to_nat r = i)) as [<-|Hne].
    + rewrite list_lookup_insert_eq by lia.
      rewrite Z2Nat.id, Z.eqb_refl by lia. f_equal. lia.
    + rewrite list_lookup_insert_ne by lia.
      destruct (Z.eqb_spec r (Z.of_nat i)); [lia|].
      rewrite Nat.add_0_r. apply Hc, Hi.
  - rewrite length_seq in HI. exists Bp'. split; [exact E1|].
    split; [exact Hl|]. intros i Hi. rewrite (HI i Hi).
    rewrite cnt_all; [reflexivity|].
    unfold E. rewrite entries_length by assumption. reflexivity.
Qed.

Lemma nnz_total i : (M <= i)%nat -> row_start E i = nnz.
Proof.
  intros Hi. unfold E, nnz.
  rewrite (row_start_total _ M) by (try apply entries_rows; assumption).
  apply entries_length; assumption.
Qed.

(** Third loop: the counts become the offsets of the rows. *)
Lemma cumsum_loop Bp :
  length Bp = S M ->
  (forall i, (i < M)%nat ->
             Bp !! i = Some (Z.of_nat (length (row_entries E i)))) ->
  exists Bp' cumsum,
    for_each (fun '(Bp, cumsum) i =>
                temp ← Bp !! i;
                Bp ← zset Bp (Z.of_nat i) cumsum;
                Some (Bp, cumsum + temp))
             (seq 0 M) (Bp, 0) = Some (Bp', cumsum)
    /\ length Bp' = S M
    /\ forall i, (i < M)%nat -> Bp' !! i = Some (Z.of_nat (row_start E i)).
Proof.
  intros HBp Hc.
  destruct (for_each_invariant
              (fun '(Bp, cumsum) i =>
                 temp ← Bp !! i;
                 Bp ← zset Bp (Z.of_nat i) cumsum;
                 Some (Bp, cumsum + temp))
              (fun i '(Bp, cumsum) =>
                 length Bp = S M /\ cumsum = Z.of_nat (row_start E i)
                 /\ (forall r, (r < i)%nat ->
                                Bp !! r = Some (Z.of_nat (row_start E r)))
                 /\ (forall r, (i <= r < M)%nat ->
                                Bp !! r = Some (Z.of_nat (length (row_entries E r)))))
              (seq 0 M) (Bp, 0)) as ([Bp' cs] & E1 & Hl & _ & HI & _).
  - split; [exact HBp|]. split; [reflexivity|]. split; [intros r Hr; lia|].
    intros r Hr. apply Hc. lia.
  - intros k x [B cs] Hk (Hl & -> & Hlo & Hhi).
    apply lookup_seq_Some in Hk as [-> Hk].
    rewrite (Hhi k) by lia. cbn [mbind option_bind].
    rewrite zset_nat by lia. cbn [mbind option_bind].
    eexists. split; [reflexivity|].
    split; [rewrite length_insert; exact Hl|].
    split; [rewrite row_start_S; lia|]. split.
    + intros r Hr. destruct (decide (r = k)) as [->|Hne].
      * apply list_lookup_insert_eq. lia.
      * rewrite list_lookup_insert_ne by lia. apply Hlo. lia.
    + intros r Hr. rewrite list_lookup_insert_ne by lia. apply Hhi. lia.
  - rewrite length_seq in HI. exists Bp', cs. auto.
Qed.

(** Fifth loop: every entry goes to the next free slot of its row. *)
Lemma scatter_loop Bp Bj Bx :
  length Bp = S M -> length Bj = nnz -> length Bx = nnz ->
  (forall i, (i < M)%nat -> Bp !! i = Some (Z.of_nat (row_start E i))) ->
  exists Bp' Bj' Bx',
    for_each (fun '(Bp, Bj, Bx) n =>
                row ← Ai !! n; dest ← zget Bp row;
                j ← Aj !! n; a ← Ax !! n;
                Bj ← zset Bj dest j;
                Bx ← zset Bx dest a;
                Bp ← zset Bp row (dest + 1);
                Some (Bp, Bj, Bx))
             (seq 0 nnz) (Bp, Bj, Bx) = Some (Bp', Bj', Bx')
    /\ length Bp' = S M /\ Bp' !! M = Bp !! M
    /\ (forall i, (i < M)%nat ->
                   Bp' !! i = Some (Z.of_nat (row_start E (S i))))
    /\ length Bj' = nnz /\ length Bx' = nnz
    /\ (forall k r c v, E !! k = Some (r, c, v) ->
                        Bj' !! slot E k r = Some c /\ Bx' !! slot E k r = Some v).
Proof.
  intros HBp HBj HBx Hstart.
  destruct (for_each_invariant
              (fun '(Bp, Bj, Bx) n =>
                 row ← Ai !! n; dest ← zget Bp row;
                 j ← Aj !! n; a ← Ax !! n;
                 Bj ← zset Bj dest j;
                 Bx ← zset Bx dest a;
                 Bp ← zset Bp row (dest + 1);
                 Some (Bp, Bj, Bx))
              (fun n '(B, Cj, Cx) =>
                 length B = S M /\ B !! M = Bp !! M
                 /\ (forall i, (i < M)%nat ->
                        B !! i = Some (Z.of_nat (row_start E i + cnt E n i)))
                 /\ length Cj = nnz /\ length Cx = nnz
                 /\ (forall k r c v, (k < n)%nat -> E !! k = Some (r, c, v) ->
                        Cj !! slot E k r = Some c /\ Cx !! slot E k r = Some v))
              (seq 0 nnz) (Bp, Bj, Bx))
    as ([[Bp' Bj'] Bx'] & E1 & Hl & HM & HB & Hlj & Hlx & Hslots).
  - split; [exact HBp|]. split; [reflexivity|]. split.
    { intros i Hi. rewrite cnt_0, Nat.add_0_r. apply Hstart, Hi. }
    split; [exact HBj|]. split; [exact HBx|]. intros k r c v Hk. lia.
  - intros n x [[B Cj] Cx] Hn (Hl & HM & HB & Hlj & Hlx & Hslots).
    apply lookup_seq_Some in Hn as [-> Hn].
    destruct (entry_at n Hn) as (r & c & v & He & Hr & Hc & Hv & Hb).
    pose proof (slot_bounds E n r c v He ltac:(lia)) as Hsb.
    pose proof (row_start_mono E (S (Z.to_nat r)) M ltac:(lia)) as Hmono.
    pose proof (nnz_total M (le_n M)) as Htot.
    rewrite Hr. cbn [mbind option_bind].
    rewrite zget_Z, (HB (Z.to_nat r)) by lia. cbn [mbind option_bind].
    rewrite Hc, Hv. cbn [mbind option_bind].
    fold (slot E n r).
    rewrite !zset_nat by lia. cbn [mbind option_bind].
    rewrite zset_Z by lia.
    eexists. split; [reflexivity|].
    split; [rewrite length_insert; exact Hl|].
    split; [rewrite list_lookup_insert_ne by lia; exact HM|]. split.
    { intros i Hi. rewrite (cnt_S E n i _ _ _ He).
      destruct (decide (Z.to_nat r = i)) as [<-|Hne].
      - rewrite list_lookup_insert_eq by lia.
        rewrite Z2Nat.id, Z.eqb_refl by lia. f_equal. unfold slot. lia.
      - rewrite list_lookup_insert_ne by lia.
        destruct (Z.eqb_spec r (Z.of_nat i)); [lia|].
        rewrite Nat.add_0_r. apply HB, Hi. }
    split; [rewrite length_insert; exact Hlj|].
    split; [rewrite length_insert; exact Hlx|].
    intros k r' c' v' Hk He'.
    destruct (decide (k = n)) as [->|Hne].
    + rewrite He in He'. injection He' as <- <- <-.
      rewrite !list_lookup_insert_eq by lia. auto.
    + assert (Hk' : (k < nnz)%nat) by lia.
      destruct (entry_at k Hk') as (r2 & c2 & v2 & He2 & _ & _ & _ & Hb2).
      rewrite He' in He2. injection He2 as <- <- <-.
      pose proof (slot_fresh E k n r' c' v' r c v He' He
                    ltac:(lia) ltac:(lia) ltac:(lia)) as Hfresh.
      rewrite !list_lookup_insert_ne by lia. apply Hslots; [lia|exact He'].
  - rewrite length_seq in HB, Hslots. exists Bp', Bj', Bx'.
    split; [exact E1|]. split; [exact Hl|]. split; [exact HM|]. split.
    { intros i Hi. rewrite (HB i Hi), row_start_S, cnt_all; [reflexivity|].
      unfold E. rewrite entries_length by assumption. reflexivity. }
    split; [exact Hlj|]. split; [exact Hlx|].
    intros k r c v He. apply Hslots; [|exact He].
    apply lookup_lt_Some in He. unfold E in He.
    rewrite entries_length in He by assumption. exact He.
Qed.

(** Sixth loop: the advanced offsets are shifted back by one row. *)
Lemma shift_loop Bp :
  length Bp = S M ->
  (forall i, (i < S M)%nat -> Bp !! i = Some (Z.of_nat (row_start E (S i)))) ->
  exists Bp' last,
    for_each (fun '(Bp, last) i =>
                temp ← Bp !! i;
                Bp ← zset Bp (Z.of_nat i) last;
                Some (Bp, temp))
             (seq 0 (S M)) (Bp, 0) = Some (Bp', last)
    /\ Bp' = map (fun i => Z.of_nat (row_start E i)) (seq 0 (S M)).
Proof.
  intros HBp Hadv.
  destruct (for_each_invariant
              (fun '(Bp, last) i =>
                 temp ← Bp !! i;
                 Bp ← zset Bp (Z.of_nat i) last;
                 Some (Bp, temp))
              (fun i '(B, last) =>
                 length B = S M /\ last = Z.of_nat (row_start E i)
                 /\ (forall r, (r < i)%nat ->
                                B !! r = Some (Z.of_nat (row_start E r)))
                 /\ (forall r, (i <= r < S M)%nat ->
                                B !! r = Some (Z.of_nat (row_start E (S r)))))
              (seq 0 (S M)) (Bp, 0)) as ([Bp' last] & E1 & Hl & _ & HI & _).
  - split; [exact HBp|]. split; [reflexivity|]. split; [intros r Hr; lia|].
    intros r Hr. apply Hadv. lia.
  - intros k x [B last] Hk (Hl & -> & Hlo & Hhi).
    apply lookup_seq_Some in Hk as [-> Hk].
    rewrite (Hhi k) by lia. cbn [mbind option_bind].
    rewrite zset_nat by lia. cbn [mbind option_bind].
    eexists. split; [reflexivity|].
    split; [rewrite length_insert; exact Hl|].
    split; [reflexivity|]. split.
    + intros r Hr. destruct (decide (r = k)) as [->|Hne].
      * apply list_lookup_insert_eq. lia.
      * rewrite list_lookup_insert_ne by lia. apply Hlo. lia.
    + intros r Hr. rewrite list_lookup_insert_ne by lia. apply Hhi. lia.
  - rewrite length_seq in HI. exists Bp', last. split; [exact E1|].
    apply list_eq. intros i. rewrite list_lookup_fmap.
    destruct (decide (i < S M)%nat) as [Hi|Hi].
    + rewrite (HI i Hi), lookup_seq_lt by lia. reflexivity.
    + rewrite lookup_ge_None_2 by lia.
      rewrite lookup_ge_None_2 by (rewrite length_seq; lia). reflexivity.
Qed.

Lemma sorted_columns (Bj : list Z) (Bx : list Q) :
  length Bj = nnz -> length Bx = nnz ->
  (forall k r c v, E !! k = Some (r, c, v) ->
                   Bj !! slot E k r = Some c /\ Bx !! slot E k r = Some v) ->
  Bj = map fst (concat (map (row_entries E) (seq 0 M)))
  /\ Bx = map snd (concat (map (row_entries E) (seq 0 M))).
Proof.
  intros Hlj Hlx Hslots.
  assert (Hlen : length (concat (map (row_entries E) (seq 0 M))) = nnz)
    by (apply (nnz_total M), le_n).
  assert (Hat : forall j c v,
             concat (map (row_entries E) (seq 0 M)) !! j = Some (c, v) ->
             Bj !! j = Some c /\ Bx !! j = Some v).
  { intros j c v Hj.
    apply concat_rows_inv in Hj as (i & m & Hi & -> & Hm).
    apply row_entries_index in Hm as (k & Hk & Hc).
    specialize (Hslots k _ c v Hk). unfold slot in Hslots.
    rewrite Nat2Z.id, Hc in Hslots. exact Hslots. }
  split; apply list_eq; intros j; rewrite list_lookup_fmap;
    destruct (concat (map (row_entries E) (seq 0 M)) !! j) as [[c v]|] eqn:Hj.
  - apply (Hat j c v Hj).
  - apply lookup_ge_None. apply lookup_ge_None in Hj. lia.
  - apply (Hat j c v Hj).
  - apply lookup_ge_None. apply lookup_ge_None in Hj. lia.
Qed.

(** SciPy's conversion stores every entry: the result is [csr_of_coo]. *)
Lemma coo_tocsr_kernel_correct Bp Bj Bx :
  length Bp = S M -> length Bj = nnz -> length Bx = nnz ->
  coo_tocsr_kernel M N nnz Ai Aj Ax Bp Bj Bx = Some (csr_of_coo M E).
Proof.
  intros HBp HBj HBx. unfold coo_tocsr_kernel.
  destruct (fill_loop Bp HBp) as (Bp1 & -> & Hl1 & H1).
  cbn [mbind option_bind].
  destruct (count_loop Bp1 Hl1 H1) as (Bp2 & -> & Hl2 & H2).
  cbn [mbind option_bind].
  destruct (cumsum_loop Bp2 Hl2 H2) as (Bp3 & cs & -> & Hl3 & H3).
  cbn [mbind option_bind].
  rewrite zset_nat by lia. cbn [mbind option_bind].
  destruct (scatter_loop (<[M := Z.of_nat nnz]> Bp3) Bj Bx)
    as (Bp5 & Bj5 & Bx5 & -> & Hl5 & HM5 & H5 & Hlj & Hlx & Hslots);
    try assumption.
  { rewrite length_insert. exact Hl3. }
  { intros i Hi. rewrite list_lookup_insert_ne by lia. apply H3, Hi. }
  cbn [mbind option_bind].
  rewrite list_lookup_insert_eq in HM5 by lia.
  destruct (shift_loop Bp5 Hl5) as (Bp6 & last & -> & ->).
  { intros i Hi. destruct (decide (i = M)) as [->|Hne].
    - rewrite HM5, nnz_total by lia. reflexivity.
    - apply H5. lia. }
  cbn [mbind option_bind].
  destruct (sorted_columns Bj5 Bx5 Hlj Hlx Hslots) as [-> ->].
  reflexivity.
Qed.

End Kernel.

(** [NumPyBackend.coo_tocsr] returns [csr_of_coo], whatever the content of
    the uninitialised arrays it allocates. *)
Lemma coo_tocsr_correct junk M N Ai Aj Ax :
  length Ai = length Ax -> length Aj = length Ax ->
  Forall (fun r => 0 <= r < Z.of_nat M) Ai ->
  coo_tocsr junk (Ai, Aj) Ax (M, N) = Ok (csr_of_coo M (entries Ai Aj Ax)).
Proof.
  intros Hi Hj Hr. unfold coo_tocsr, np_empty.
  rewrite (coo_tocsr_kernel_correct M N Ai Aj Ax Hi Hj Hr);
    rewrite ?length_replicate; try reflexivity; lia.
Qed.

Lemma lookup_seqZ_Some m n k x :
  seqZ m n !! k = Some x -> x = m + Z.of_nat k /\ Z.of_nat k < n.
Proof. intros H. apply lookup_seqZ in H. lia. Qed.

(** The inner loop of [csr_matvec] over the slice of one row. *)
Lemma row_loop (col : list Z) (data x : list Q) (L : list (Z * Q)) (lo : nat) y :
  (forall m c v, L !! m = Some (c, v) ->
                 col !! (lo + m)%nat = Some c /\ data !! (lo + m)%nat = Some v
                 /\ 0 <= c < Z.of_nat (length x)) ->
  for_each (fun sum jj =>
              a ← zget data jj; j ← zget col jj; xv ← zget x j;
              Some (sum + a * xv)%Q)
           (seqZ (Z.of_nat lo) (Z.of_nat (length L))) y
  = Some (row_dot x L y).
Proof.
  intros HL.
  destruct (for_each_invariant
              (fun sum jj =>
                 a ← zget data jj; j ← zget col jj; xv ← zget x j;
                 Some (sum + a * xv)%Q)
              (fun m s => s = row_dot x (take m L) y)
              (seqZ (Z.of_nat lo) (Z.of_nat (length L))) y)
    as (s' & -> & Hs).
  - reflexivity.
  - intros k jj s Hk ->. apply lookup_seqZ_Some in Hk as [-> Hk].
    destruct (lookup_lt_is_Some_2 L k ltac:(lia)) as [[c v] Hcv].
    destruct (HL k c v Hcv) as (Hc & Hd & Hb).
    replace (Z.of_nat lo + Z.of_nat k) with (Z.of_nat (lo + k)) by lia.
    rewrite !zget_nat, Hd, Hc. cbn [mbind option_bind].
    rewrite zget_Z by lia.
    destruct (lookup_lt_is_Some_2 x (Z.to_nat c) ltac:(lia)) as [xv Hxv].
    rewrite Hxv. cbn [mbind option_bind].
    eexists. split; [reflexivity|].
    rewrite (take_S_r _ _ _ Hcv). unfold row_dot. rewrite foldl_app.
    cbn [foldl]. rewrite Hxv. reflexivity.
  - rewrite length_seqZ, Nat2Z.id, firstn_all in Hs. f_equal. exact Hs.
Qed.

(** [csr_matvec] on the triple of [csr_of_coo]. *)
Lemma csr_matvec_correct (M N : nat) (E : list (Z * Z * Q)) (x : list Q) :
  Forall (fun '(r, c, _) => 0 <= r < Z.of_nat M /\ 0 <= c < Z.of_nat N) E ->
  length x = N ->
  let '(crow, col, data) := csr_of_coo M E in
  csr_matvec M N crow col data x (replicate M 0%Q)
  = Some (map (fun i => row_dot x (row_entries E i) 0) (seq 0 M)).
Proof.
  intros HE Hx. unfold csr_of_coo.
  set (sorted := concat (map (row_entries E) (seq 0 M))).
  set (crow := map (fun i => Z.of_nat (row_start E i)) (seq 0 (S M))).
  assert (Hcrow : forall i, (i < S M)%nat ->
                            crow !! i = Some (Z.of_nat (row_start E i))).
  { intros i Hi. unfold crow. rewrite list_lookup_fmap, lookup_seq_lt by lia.
    reflexivity. }
  unfold csr_matvec.
  match goal with |- for_each ?body _ _ = _ =>
    destruct (for_each_invariant body
                (fun i Y => length Y = M
                   /\ (forall r, (r < i)%nat ->
                         Y !! r = Some (row_dot x (row_entries E r) 0))
                   /\ (forall r, (i <= r < M)%nat -> Y !! r = Some 0%Q))
                (seq 0 M) (replicate M 0%Q)) as (Y & -> & Hl & HY & _)
  end.
  - split; [apply length_replicate|]. split; [intros r Hr; lia|].
    intros r Hr. apply lookup_replicate_2. lia.
  - intros k i Y Hk (Hl & Hlo & Hhi). apply lookup_seq_Some in Hk as [-> Hk].
    rewrite !Hcrow, (Hhi k) by lia. cbn [mbind option_bind].
    replace (Z.of_nat (row_start E (S k)) - Z.of_nat (row_start E k))
      with (Z.of_nat (length (row_entries E k)))
      by (rewrite row_start_S; lia).
    rewrite (row_loop _ _ x (row_entries E k) (row_start E k) 0%Q).
    + cbn [mbind option_bind]. rewrite zset_nat by lia.
      eexists. split; [reflexivity|].
      split; [rewrite length_insert; exact Hl|]. split.
      * intros r Hr. destruct (decide (r = k)) as [->|Hne].
        -- apply list_lookup_insert_eq. lia.
        -- rewrite list_lookup_insert_ne by lia. apply Hlo. lia.
      * intros r Hr. rewrite list_lookup_insert_ne by lia. apply Hhi. lia.
    + intros m c v Hm.
      pose proof (concat_rows_lookup E M k m (c, v) Hk Hm) as Hs.
      fold sorted in Hs. rewrite !list_lookup_fmap, Hs. cbn.
      split; [reflexivity|]. split; [reflexivity|].
      apply row_entries_index in Hm as (n & Hn & _).
      rewrite Forall_lookup in HE. specialize (HE n _ Hn). cbn in HE. lia.
  - rewrite length_seq in HY. f_equal. apply list_eq. intros i.
    rewrite list_lookup_fmap. destruct (decide (i < M)%nat) as [Hi|Hi].
    + rewrite (HY i Hi), lookup_seq_lt by lia. reflexivity.
    + rewrite lookup_ge_None_2 by lia.
      rewrite lookup_ge_None_2 by (rewrite length_seq; lia). reflexivity.
Qed.

Lemma row_dot_from x L y :
  (row_dot x L y
   == y + sumq (fun '(c, v) => v * default 0 (x !! Z.to_nat c)) L)%Q.
Proof.
  unfold row_dot. revert y.
  induction L as [|[c v] L IH]; intros y; cbn [foldl].
  - rewrite sumq_nil. ring.
  - rewrite IH, sumq_cons. ring.
Qed.

Lemma row_dot_sumq x L :
  (row_dot x L 0 == sumq (fun '(c, v) => v * default 0 (x !! Z.to_nat c)) L)%Q.
Proof. rewrite row_dot_from. ring. Qed.

Lemma zip_with_map_seq (f : nat -> Q) (x : list Q) (a : nat) :
  zip_with Qmult (map f (seq a (length x))) x
  = map (fun '(j, xv) => f j * xv)%Q (zip (seq a (length x)) x).
Proof.
  revert a. induction x as [|xv x IH]; intros a; [reflexivity|].
  cbn [length seq map zip_with]. f_equal. apply IH.
Qed.

(** One non-zero coefficient picks one term of a sum over the columns. *)
Lemma sumq_delta (v : Q) (c : Z) (x : list Q) (a : nat) :
  Z.of_nat a <= c < Z.of_nat (a + length x) ->
  (sumq (fun '(j, xv) => (if c =? Z.of_nat j then v else 0) * xv)
        (zip (seq a (length x)) x)
   == v * default 0 (x !! (Z.to_nat c - a)%nat))%Q.
Proof.
  revert a. induction x as [|xv x IH]; intros a Hc; [simpl in Hc; lia|].
  cbn [length seq zip_with]. rewrite sumq_cons.
  destruct (Z.eqb_spec c (Z.of_nat a)) as [->|Hne].
  - rewrite Nat2Z.id, Nat.sub_diag. cbn [lookup list_lookup default].
    rewrite sumq_zero; [cbn; ring|].
    intros [j xv'] Hin. apply list_elem_of_In, elem_of_zip_l in Hin.
    apply elem_of_seq in Hin.
    destruct (Z.eqb_spec (Z.of_nat a) (Z.of_nat j)); [lia|]. ring.
  - rewrite (IH (S a)) by (cbn [length] in Hc; lia).
    replace (Z.to_nat c - a)%nat with (S (Z.to_nat c - S a)) by lia.
    change ((xv :: x) !! S (Z.to_nat c - S a))
      with (x !! (Z.to_nat c - S a)%nat).
    ring.
Qed.

Section Dense.

Variables (M N : nat) (x : list Q).
Hypothesis Hx : length x = N.

(** Entry [(i, j)] of the dense matrix. *)
Let cell (E : list (Z * Z * Q)) (i j : nat) : Q :=
  qsum (omap (fun '(r, c, v) =>
                if (r =? Z.of_nat i) && (c =? Z.of_nat j)
                then Some v else None) E).

Lemma cell_cons r c v E i j :
  (cell ((r, c, v) :: E) i j
   == (if (r =? Z.of_nat i) && (c =? Z.of_nat j) then v else 0) + cell E i j)%Q.
Proof.
  unfold cell. cbn [omap list_omap].
  destruct ((r =? Z.of_nat i) && (c =? Z.of_nat j)).
  - rewrite !qsum_sumq, sumq_cons. reflexivity.
  - ring.
Qed.

Lemma dense_row E i :
  Forall (fun '(r, c, _) => 0 <= r < Z.of_nat M /\ 0 <= c < Z.of_nat N) E ->
  (row_dot x (row_entries E i) 0
   == qsum (zip_with Qmult (map (cell E i) (seq 0 N)) x))%Q.
Proof.
  intros HE. rewrite row_dot_sumq, <- Hx, zip_with_map_seq, qsum_map.
  induction HE as [|[[r c] v] E [_ Hc] _ IH].
  - cbn [row_entries omap list_omap]. rewrite sumq_nil. symmetry.
    apply sumq_zero. intros [j xv] _. unfold cell. cbn. ring.
  - rewrite (sumq_ext _ (fun '(j, xv) =>
               (if c =? Z.of_nat j then (if r =? Z.of_nat i then v else 0) else 0)
               * xv + cell E i j * xv)%Q).
    2:{ intros [j xv] _. rewrite cell_cons.
        destruct (r =? Z.of_nat i), (c =? Z.of_nat j); cbn [andb]; ring. }
    rewrite (sumq_ext _ (fun e =>
               (let '(j, xv) := e in
                (if c =? Z.of_nat j then (if r =? Z.of_nat i then v else 0) else 0)
                * xv)
               + (let '(j, xv) := e in cell E i j * xv))%Q)
      by (intros [j xv] _; reflexivity).
    rewrite sumq_plus, <- IH, sumq_delta by lia.
    unfold row_entries. cbn [omap list_omap]. fold (row_entries E i).
    rewrite Nat.sub_0_r.
    destruct (r =? Z.of_nat i); [rewrite sumq_cons; reflexivity|ring].
Qed.

End Dense.

Lemma entries_bounds Ai Aj Ax M N :
  Forall (fun r => 0 <= r < Z.of_nat M) Ai ->
  Forall (fun c => 0 <= c < Z.of_nat N) Aj ->
  Forall (fun '(r, c, _) => 0 <= r < Z.of_nat M /\ 0 <= c < Z.of_nat N)
         (entries Ai Aj Ax).
Proof.
  intros Hr Hc. apply Forall_lookup. intros n [[r c] v] Hn.
  apply entries_lookup in Hn as (Hi & Hj & _). split.
  - exact (proj1 (Forall_lookup _ _) Hr n r Hi).
  - exact (proj1 (Forall_lookup _ _) Hc n c Hj).
Qed.

(** C2 as stated fails in its second half: two entries at the same
    position stay two entries of the CSR triple. *)
Lemma duplicates_are_not_merged :
  ~ (forall junk Ai Aj Ax M N crow col data,
        length Ai = length Ax -> length Aj = length Ax ->
        Forall (fun r => 0 <= r < Z.of_nat M) Ai ->
        Forall (fun c => 0 <= c < Z.of_nat N) Aj ->
        coo_tocsr junk (Ai, Aj) Ax (M, N) = Ok (crow, col, data) ->
        forall i, NoDup (row_columns crow col i)).
Proof.
  intros H.
  specialize (H (0, 0%Q) [0; 0] [0; 0] [1; 2]%Q 1%nat 1%nat
                [0; 2] [0; 0] [1; 2]%Q eq_refl eq_refl).
  assert (Hd : NoDup (row_columns [0; 2] [0; 0] 0)).
  { apply H; [repeat constructor; lia..|reflexivity]. }
  cbn in Hd. apply NoDup_cons in Hd as [Hd _]. apply Hd. left.
Qed.

(** C2, amended.  For a COO matrix with indices inside its shape, sorted
    or not, with or without duplicates, [coo_tocsr] returns the CSR
    triple that keeps every stored entry, row by row and within a row in
    input order (duplicates are carried over, not merged); its row
    pointer has [rows + 1] entries, starts with 0, ends with [nnz] and
    never decreases; and [csr_spmm] on that triple and a vector returns
    the product of the materialised dense matrix, in which duplicates
    add up, with the vector. *)
Theorem coo_tocsr_then_spmm junk (M N : nat) (Ai Aj : list Z) (Ax x : list Q) :
  length Ai = length Ax -> length Aj = length Ax ->
  Forall (fun r => 0 <= r < Z.of_nat M) Ai ->
  Forall (fun c => 0 <= c < Z.of_nat N) Aj ->
  length x = N ->
  exists crow col data y,
    coo_tocsr junk (Ai, Aj) Ax (M, N) = Ok (crow, col, data)
    /\ (crow, col, data) = csr_of_coo M (entries Ai Aj Ax)
    /\ length col = length Ax /\ length data = length Ax
    /\ length crow = S M /\ crow !! 0%nat = Some 0
    /\ crow !! M = Some (Z.of_nat (length Ax))
    /\ (forall i a b, crow !! i = Some a -> crow !! S i = Some b -> a <= b)
    /\ csr_spmm crow col (mk_ndarray [length Ax] data) (M, N)
                (mk_ndarray [N] x)
       = Ok (mk_ndarray [M] y)
    /\ Forall2 Qeq y (dense_matvec (coo_todense (M, N) Ai Aj Ax) x).
Proof.
  intros Hi Hj Hr Hc Hx.
  pose proof (entries_bounds Ai Aj Ax M N Hr Hc) as HE.
  pose proof (coo_tocsr_correct junk M N Ai Aj Ax Hi Hj Hr) as Hconv.
  pose proof (csr_matvec_correct M N (entries Ai Aj Ax) x HE Hx) as Hmv.
  pose proof (nnz_total M Ai Aj Ax Hi Hj Hr) as Htot.
  set (E := entries Ai Aj Ax) in *.
  unfold csr_of_coo in *.
  set (sorted := concat (map (row_entries E) (seq 0 M))) in *.
  assert (Hlen : length sorted = length Ax) by (apply (Htot M), le_n).
  eexists _, _, _, _. split; [exact Hconv|]. split; [reflexivity|].
  split; [rewrite length_map; exact Hlen|].
  split; [rewrite length_map; exact Hlen|].
  split; [rewrite length_map, length_seq; reflexivity|].
  split; [reflexivity|]. split.
  { rewrite list_lookup_fmap, lookup_seq_lt by lia.
    cbn [fmap option_fmap option_map Nat.add].
    rewrite (Htot M) by lia. reflexivity. }
  split.
  { intros i a b Ha Hb. rewrite list_lookup_fmap in Ha, Hb.
    destruct (seq 0 (S M) !! i) as [i'|] eqn:Hi'; [|discriminate].
    destruct (seq 0 (S M) !! S i) as [j'|] eqn:Hj'; [|discriminate].
    apply lookup_seq_Some in Hi' as [-> _].
    apply lookup_seq_Some in Hj' as [-> _].
    injection Ha as <-. injection Hb as <-.
    pose proof (row_start_mono E i (S i)). lia. }
  split.
  { unfold csr_spmm, ndim. cbn [Sparse.shape Sparse.data length Nat.eqb].
    rewrite Hmv. reflexivity. }
  unfold dense_matvec, coo_todense. rewrite map_map.
  apply Forall2_fmap, Forall_Forall2_diag, Forall_forall. intros i _.
  apply (dense_row M N x Hx E i HE).
Qed.

Lemma coo_tocsr_then_spmm_witness :
  exists crow col data y,
    coo_tocsr (7, 9%Q) ([1; 0; 1; 0; 1], [0; 1; 0; 1; 2]) [1; 2; 3; 4; 5]%Q
              (2, 3)%nat = Ok (crow, col, data)
    /\ (crow, col, data)
       = csr_of_coo 2 (entries [1; 0; 1; 0; 1] [0; 1; 0; 1; 2] [1; 2; 3; 4; 5]%Q)
    /\ length col = 5%nat /\ length data = 5%nat
    /\ length crow = 3%nat /\ crow !! 0%nat = Some 0
    /\ crow !! 2%nat = Some 5
    /\ (forall i a b, crow !! i = Some a -> crow !! S i = Some b -> a <= b)
    /\ csr_spmm crow col (mk_ndarray [5%nat] data) (2, 3)%nat
                (mk_ndarray [3%nat] [1; 10; 100]%Q)
       = Ok (mk_ndarray [2%nat] y)
    /\ Forall2 Qeq y
         (dense_matvec
            (coo_todense (2, 3)%nat [1; 0; 1; 0; 1] [0; 1; 0; 1; 2]
                         [1; 2; 3; 4; 5]%Q)
            [1; 10; 100]%Q).
Proof.
  apply (coo_tocsr_then_spmm (7, 9%Q) 2 3 [1; 0; 1; 0; 1] [0; 1; 0; 1; 2]
           [1; 2; 3; 4; 5]%Q [1; 10; 100]%Q);
    try reflexivity; repeat constructor; lia.
Defined.

End SparseFacts.

(** ** Convolutions of binomial sequences *)

Module Convolution.
Export ConvolutionDefs.
Import QSum.

Lemma nq_S n : (nq (S n) == nq n + 1)%Q.
Proof.
  unfold nq. rewrite Nat2Z.inj_succ, <- Z.add_1_r, inject_Z_plus. reflexivity.
Qed.

Lemma nq_sub n k : (k <= n)%nat -> (nq (n - k) == nq n - nq k)%Q.
Proof.
  intros H. unfold nq. rewrite Nat2Z.inj_sub by exact H.
  unfold Z.sub. rewrite inject_Z_plus, inject_Z_opp. reflexivity.
Qed.

Lemma nq_nonneg n : (0 <= nq n)%Q.
Proof. unfold nq, Qle. simpl. lia. Qed.

Lemma nq_S_nonzero n : ~ (nq (S n) == 0)%Q.
Proof. unfold nq, Qeq. simpl. lia. Qed.

Lemma conv_ext_r u v v' n :
  (forall k, (k <= n)%nat -> (v k == v' k)%Q) ->
  (conv u v n == conv u v' n)%Q.
Proof.
  intros H. unfold conv. apply sumq_ext. intros k Hk.
  apply in_seq in Hk. rewrite (H (n - k)%nat) by lia. reflexivity.
Qed.

Lemma conv_ext_l u u' v n :
  (forall k, (k <= n)%nat -> (u k == u' k)%Q) ->
  (conv u v n == conv u' v n)%Q.
Proof.
  intros H. unfold conv. apply sumq_ext. intros k Hk.
  apply in_seq in Hk. rewrite (H k) by lia. reflexivity.
Qed.

Lemma conv_zero_l v n : (conv (fun _ => 0%Q) v n == 0)%Q.
Proof. unfold conv. apply sumq_zero. intros. ring. Qed.

Lemma conv_zero_r u n : (conv u (fun _ => 0%Q) n == 0)%Q.
Proof. unfold conv. apply sumq_zero. intros. ring. Qed.

(** If [(k+1) u(k+1) = (X-k) u(k) + r(k)] and
    [(k+1) v(k+1) = (Y-k) v(k) + s(k)], the convolution [w] of [u] and [v]
    satisfies [(n+1) w(n+1) = (X+Y-n) w(n) + (r*v)(n) + (u*s)(n)]. *)
Lemma conv_recurrence (X Y : Q) (u r v s : nat -> Q) :
  (forall k, (nq (S k) * u (S k) == (X - nq k) * u k + r k)%Q) ->
  (forall k, (nq (S k) * v (S k) == (Y - nq k) * v k + s k)%Q) ->
  forall n,
    (nq (S n) * conv u v (S n)
     == (X + Y - nq n) * conv u v n + conv r v n + conv u s n)%Q.
Proof.
  intros Hu Hv n.
  (* the terms weighted by [k] *)
  assert (T1 : (sumq (fun k => nq k * (u k * v (S n - k)%nat)) (seq 0 (S (S n)))
                == sumq (fun k => ((X - nq k) * u k + r k) * v (n - k)%nat)
                        (seq 0 (S n)))%Q).
  { change (seq 0 (S (S n))) with (0%nat :: seq 1 (S n)).
    rewrite sumq_cons, <- seq_shift, sumq_map.
    assert (Z0 : (nq 0 * (u 0%nat * v (S n - 0)%nat) == 0)%Q)
      by (unfold nq; simpl; ring).
    rewrite Z0, Qplus_0_l. apply sumq_ext. intros k _.
    replace (S n - S k)%nat with (n - k)%nat by lia.
    rewrite <- Hu. ring. }
  (* the terms weighted by [n + 1 - k] *)
  assert (T2 : (sumq (fun k => nq (S n - k) * (u k * v (S n - k)%nat))
                     (seq 0 (S (S n)))
                == sumq (fun k => u k * ((Y - nq (n - k)) * v (n - k)%nat
                                         + s (n - k)%nat))
                        (seq 0 (S n)))%Q).
  { rewrite (seq_S (S n)), sumq_app. cbn [Nat.add].
    rewrite sumq_cons, sumq_nil, Nat.sub_diag.
    assert (Z0 : (nq 0 * (u (S n) * v 0%nat) + 0 == 0)%Q)
      by (unfold nq; simpl; ring).
    rewrite Z0, Qplus_0_r. apply sumq_ext. intros k Hk. apply in_seq in Hk.
    replace (S n - k)%nat with (S (n - k)) by lia.
    rewrite <- Hv. ring. }
  transitivity
    (sumq (fun k => nq k * (u k * v (S n - k)%nat)) (seq 0 (S (S n)))
     + sumq (fun k => nq (S n - k) * (u k * v (S n - k)%nat)) (seq 0 (S (S n))))%Q.
  { rewrite <- sumq_plus. unfold conv. rewrite <- sumq_scale.
    apply sumq_ext. intros k Hk. apply in_seq in Hk.
    rewrite (nq_sub (S n) k) by lia. ring. }
  rewrite T1, T2. unfold conv.
  rewrite <- sumq_scale, <- !sumq_plus. apply sumq_ext. intros k Hk.
  apply in_seq in Hk. rewrite (nq_sub n k) by lia. ring.
Qed.

Lemma bq_step X k : (nq (S k) * bq X (S k) == (X - nq k) * bq X k + 0)%Q.
Proof. cbn [bq]. field. apply nq_S_nonzero. Qed.

Lemma dbq_step X k :
  (nq (S k) * dbq X (S k) == (X - nq k) * dbq X k + bq X k)%Q.
Proof. cbn [dbq]. field. apply nq_S_nonzero. Qed.

Lemma conv_0 u v : (conv u v 0 == u 0%nat * v 0%nat)%Q.
Proof. unfold conv. cbn [seq]. rewrite sumq_cons, sumq_nil. cbn. ring. Qed.

Lemma Qmult_cancel_l (a x y : Q) : ~ (a == 0)%Q -> (a * x == a * y)%Q -> (x == y)%Q.
Proof. intros Ha H. apply (Qmult_inj_l x y a Ha). exact H. Qed.

(** The Chu-Vandermonde identity. *)
Lemma vandermonde X Y n : (conv (bq X) (bq Y) n == bq (X + Y) n)%Q.
Proof.
  induction n as [|n IH].
  - rewrite conv_0. cbn. ring.
  - apply (Qmult_cancel_l (nq (S n))); [apply nq_S_nonzero|].
    rewrite (conv_recurrence X Y (bq X) (fun _ => 0%Q) (bq Y) (fun _ => 0%Q)
               (bq_step X) (bq_step Y)).
    rewrite conv_zero_l, conv_zero_r, IH, bq_step. ring.
Qed.

(** Its derivative with respect to the first and to the second variable. *)
Lemma vandermonde_dl X Y n : (conv (dbq X) (bq Y) n == dbq (X + Y) n)%Q.
Proof.
  induction n as [|n IH].
  - rewrite conv_0. cbn. ring.
  - apply (Qmult_cancel_l (nq (S n))); [apply nq_S_nonzero|].
    rewrite (conv_recurrence X Y (dbq X) (bq X) (bq Y) (fun _ => 0%Q)
               (dbq_step X) (bq_step Y)).
    rewrite conv_zero_r, IH, vandermonde, dbq_step. ring.
Qed.

Lemma vandermonde_dr X Y n : (conv (bq X) (dbq Y) n == dbq (X + Y) n)%Q.
Proof.
  induction n as [|n IH].
  - rewrite conv_0. cbn. ring.
  - apply (Qmult_cancel_l (nq (S n))); [apply nq_S_nonzero|].
    rewrite (conv_recurrence X Y (bq X) (fun _ => 0%Q) (dbq Y) (bq Y)
               (bq_step X) (dbq_step Y)).
    rewrite conv_zero_l, IH, vandermonde, dbq_step. ring.
Qed.

Lemma bq_ext X X' k : (X == X')%Q -> (bq X k == bq X' k)%Q.
Proof.
  intros E. induction k as [|k IH]; [reflexivity|].
  cbn [bq]. rewrite IH, E. reflexivity.
Qed.

Lemma dbq_ext X X' k : (X == X')%Q -> (dbq X k == dbq X' k)%Q.
Proof.
  intros E. induction k as [|k IH]; [reflexivity|].
  cbn [dbq]. rewrite IH, (bq_ext X X' k E), E. reflexivity.
Qed.

Import MultiIndex MultiIndexFacts.

Lemma conv_list_cons u u' us :
  conv_list (u :: u' :: us) = conv u (conv_list (u' :: us)).
Proof. reflexivity. Qed.

Section OverSeparators.

Variable p : nat.

(** The separators at or above [a]. *)
Let pool (a : nat) : list Z := map Z.of_nat (seq a (S p - a)).

Lemma sum_over_cwr dim : forall us a,
  length us = S dim -> (a <= p)%nat ->
  (sumq (fun s => prod_at us (diff_from (Z.of_nat a) (s ++ [Z.of_nat p])))
        (combinations_with_replacement dim (pool a))
   == conv_list us (p - a))%Q.
Proof.
  induction dim as [|dim IH]; intros us a Hlen Ha.
  - destruct us as [|u [|? ?]]; try discriminate.
    cbn [combinations_with_replacement]. rewrite sumq_cons, sumq_nil.
    cbn [app diff_from prod_at conv_list].
    replace (Z.to_nat (Z.of_nat p - Z.of_nat a)) with (p - a)%nat by lia.
    ring.
  - destruct us as [|u [|u' us']]; try discriminate.
    assert (Hlen' : length (u' :: us') = S dim) by (simpl in *; lia).
    rewrite conv_list_cons.
    (* the separators whose first element is at least [b] *)
    assert (Hinner : forall n b, (b + n = S p)%nat -> (a <= b)%nat ->
              (sumq (fun s => prod_at (u :: u' :: us')
                                (diff_from (Z.of_nat a) (s ++ [Z.of_nat p])))
                    (combinations_with_replacement (S dim)
                       (map Z.of_nat (seq b n)))
               == sumq (fun c => u (c - a)%nat
                                 * conv_list (u' :: us') (p - c)%nat)
                       (seq b n))%Q).
    { induction n as [|n IHn]; intros b Hb Hab.
      - reflexivity.
      - cbn [seq map]. rewrite cwr_cons, sumq_app, sumq_map, sumq_cons.
        rewrite (IHn (S b)) by lia.
        apply Qplus_comp; [|reflexivity].
        rewrite <- (IH (u' :: us') b Hlen') by lia.
        unfold pool. replace (S p - b)%nat with (S n) by lia. cbn [seq map].
        rewrite <- sumq_scale. apply sumq_ext. intros s _.
        cbn [app diff_from prod_at].
        replace (Z.to_nat (Z.of_nat b - Z.of_nat a)) with (b - a)%nat by lia.
        reflexivity. }
    unfold pool. rewrite (Hinner (S p - a)%nat a) by lia.
    unfold conv. replace (S p - a)%nat with (S (p - a)) by lia.
    assert (E : seq a (S (p - a)) = map (Nat.add a) (seq 0 (S (p - a)))).
    { pose proof (fmap_add_seq a 0 (S (p - a))) as F.
      rewrite Nat.add_0_r in F. symmetry. exact F. }
    rewrite E, sumq_map. apply sumq_ext. intros k Hk. apply in_seq in Hk.
    replace (a + k - a)%nat with k by lia.
    replace (p - (a + k))%nat with (p - a - k)%nat by lia. reflexivity.
Qed.

(** The sum over the rows of the multi-index matrix is a convolution. *)
Lemma sum_over_multi_indices dim us :
  length us = S dim ->
  (sumq (prod_at us) (rows_of_separators p dim) == conv_list us p)%Q.
Proof.
  intros Hlen. unfold rows_of_separators.
  rewrite sumq_map, sumq_rev.
  pose proof (sum_over_cwr dim us 0 Hlen ltac:(lia)) as H.
  unfold pool in H. rewrite Nat.sub_0_r in H.
  unfold range. replace (p + 1)%nat with (S p) by lia.
  rewrite Nat.sub_0_r in H. exact H.
Qed.

End OverSeparators.

(** A convolution of binomial sequences is the binomial sequence of the
    sum; with one factor differentiated it is the derivative. *)
Lemma conv_list_bq (Xs : list Q) n :
  Xs <> [] ->
  (conv_list (map bq Xs) n == bq (sumq id Xs) n)%Q.
Proof.
  revert n. induction Xs as [|X Xs IH]; intros n Hne; [congruence|].
  destruct Xs as [|X' Xs].
  - cbn [map conv_list]. rewrite sumq_cons, sumq_nil. unfold id.
    apply bq_ext. ring.
  - change (map bq (X :: X' :: Xs)) with (bq X :: bq X' :: map bq Xs).
    rewrite conv_list_cons.
    rewrite (conv_ext_r _ _ (bq (sumq id (X' :: Xs)))).
    + rewrite vandermonde, (sumq_cons id X). reflexivity.
    + intros k _. apply IH. discriminate.
Qed.

Lemma conv_scale_l c u v n :
  (conv (fun k => c * u k) v n == c * conv u v n)%Q.
Proof.
  unfold conv. rewrite <- sumq_scale. apply sumq_ext. intros k _. ring.
Qed.

Lemma conv_scale_r c u v n :
  (conv u (fun k => c * v k) n == c * conv u v n)%Q.
Proof.
  unfold conv. rewrite <- sumq_scale. apply sumq_ext. intros k _. ring.
Qed.

Lemma conv_list_marked c Xs : forall i n,
  (i < length Xs)%nat ->
  (conv_list (marked c i Xs) n == c * dbq (sumq id Xs) n)%Q.
Proof.
  induction Xs as [|X Xs IH]; intros i n Hi; [simpl in Hi; lia|].
  rewrite sumq_cons. unfold id at 1. destruct i as [|i].
  - destruct Xs as [|X' Xs].
    + cbn [marked map conv_list]. rewrite sumq_nil.
      rewrite (dbq_ext (X + 0) X) by ring. reflexivity.
    + change (marked c 0 (X :: X' :: Xs))
        with ((fun k => c * dbq X k)%Q :: bq X' :: map bq Xs).
      rewrite conv_list_cons.
      rewrite (conv_ext_r _ _ (bq (sumq id (X' :: Xs)))).
      * rewrite conv_scale_l, vandermonde_dl. reflexivity.
      * intros k _. apply (conv_list_bq (X' :: Xs)). discriminate.
  - cbn [length] in Hi. destruct Xs as [|X' Xs]; [simpl in Hi; lia|].
    assert (Hi' : (i < length (X' :: Xs))%nat) by lia.
    assert (Hc : exists u us, marked c i (X' :: Xs) = u :: us).
    { destruct i; cbn [marked]; eauto. }
    destruct Hc as (u & us & Hc).
    cbn [marked]. fold (marked c i (X' :: Xs)). rewrite Hc, conv_list_cons, <- Hc.
    rewrite (conv_ext_r _ _ (fun k => c * dbq (sumq id (X' :: Xs)) k)%Q).
    * rewrite conv_scale_r, vandermonde_dr. reflexivity.
    * intros k _. apply IH, Hi'.
Qed.

(** Sequences that agree term by term have the same convolution. *)
Lemma conv_list_ext us us' :
  Forall2 (fun u u' => forall k, (u k == u' k)%Q) us us' ->
  forall n, (conv_list us n == conv_list us' n)%Q.
Proof.
  induction 1 as [|u u' us us' Hu Hus IH]; intros n; [reflexivity|].
  destruct Hus as [|v v' vs vs' Hv Hvs].
  - apply Hu.
  - rewrite !conv_list_cons.
    rewrite (conv_ext_l u u') by (intros; apply Hu).
    apply conv_ext_r. intros k _. apply IH.
Qed.

(** [C(n, n) = 1]. *)
Lemma bq_factorials n k :
  (k <= n)%nat ->
  (bq (nq n) k * inject_Z (factorial k) * inject_Z (factorial (n - k))
   == inject_Z (factorial n))%Q.
Proof.
  induction k as [|k IH]; intros Hk.
  - cbn [bq factorial]. rewrite Nat.sub_0_r. ring.
  - specialize (IH ltac:(lia)).
    replace (n - k)%nat with (S (n - S k)) in IH by lia.
    cbn [bq]. rewrite <- IH.
    change (factorial (S k)) with (Z.of_nat (S k) * factorial k).
    change (factorial (S (n - S k)))
      with (Z.of_nat (S (n - S k)) * factorial (n - S k)).
    rewrite !inject_Z_mult. fold (nq (S k)). fold (nq (S (n - S k))).
    replace (S (n - S k)) with (n - k)%nat by lia.
    rewrite (nq_sub n k) by lia. field. apply nq_S_nonzero.
Qed.

Lemma factorial_pos n : 0 < factorial n.
Proof. induction n as [|n IH]; cbn [factorial]; lia. Qed.

Lemma bq_diag n : (bq (nq n) n == 1)%Q.
Proof.
  pose proof (bq_factorials n n (le_n n)) as H.
  rewrite Nat.sub_diag in H. change (inject_Z (factorial 0)) with 1%Q in H.
  apply (Qmult_cancel_l (inject_Z (factorial n))).
  - pose proof (factorial_pos n). unfold Qeq. simpl. lia.
  - rewrite <- H at 2. ring.
Qed.

End Convolution.

(** ** The tables of the shape functions *)

Module ShapeTables.
Export ShapeDefs.
Import QSum Convolution MultiIndex MultiIndexFacts Shape.

(** *** The reciprocals of the factorials *)

Lemma factorial_S n : factorial (S n) = Z.of_nat (S n) * factorial n.
Proof. reflexivity. Qed.

Lemma factorial_mono n m : (n <= m)%nat -> factorial n <= factorial m.
Proof.
  induction 1 as [|m _ IH]; [lia|].
  rewrite factorial_S. pose proof (factorial_pos m). nia.
Qed.

Lemma factorial_ge n : Z.of_nat n <= factorial n.
Proof.
  destruct n as [|n]; [cbn; lia|].
  rewrite factorial_S. pose proof (factorial_pos n). nia.
Qed.

Lemma accumulate_from_factorials n : forall k,
  factorial (k + n) < 2 ^ 63 ->
  accumulate_from (factorial k)
    (map int64 (map (fun j => 1 + Z.of_nat j) (seq k n)))
  = map factorial (seq (S k) n).
Proof.
  induction n as [|n IH]; intros k Hb; [reflexivity|].
  cbn [seq map accumulate_from].
  pose proof (factorial_mono (S k) (k + S n) ltac:(lia)) as Hm.
  pose proof (factorial_ge (S k)) as Hg. pose proof (factorial_pos (S k)) as Hp.
  assert (E : int64 (factorial k * int64 (1 + Z.of_nat k)) = factorial (S k)).
  { rewrite factorial_S in Hm, Hg, Hp |- *.
    assert (Hk : - 2 ^ 63 <= 1 + Z.of_nat k < 2 ^ 63).
    { pose proof (factorial_pos k). nia. }
    rewrite (int64_small (1 + Z.of_nat k)) by exact Hk.
    replace (factorial k * (1 + Z.of_nat k))
      with (Z.of_nat (S k) * factorial k) by lia.
    apply int64_small. lia. }
  rewrite E. f_equal. apply IH. replace (S k + n)%nat with (k + S n)%nat by lia.
  exact Hb.
Qed.

Lemma multiply_accumulate_factorials p :
  factorial p < 2 ^ 63 ->
  multiply_accumulate (map int64 (arange 1 p)) = map factorial (seq 1 p).
Proof.
  intros Hb. destruct p as [|p]; [reflexivity|].
  unfold arange. cbn [seq map multiply_accumulate].
  change (int64 (1 + Z.of_nat 0)) with (factorial 1). f_equal.
  rewrite <- seq_shift, map_map.
  pose proof (accumulate_from_factorials p 1 Hb) as H.
  rewrite <- seq_shift, map_map in H. exact H.
Qed.

Lemma fdiv_nonzero (z : Z) :
  z <> 0 -> fdiv 1 (inject_Z z) = Some (1 / inject_Z z)%Q.
Proof.
  intros Hz. unfold fdiv.
  destruct (Qeq_bool (inject_Z z) 0) eqn:E; [|reflexivity].
  apply Qeq_bool_eq in E. unfold Qeq in E. simpl in E. lia.
Qed.

(** Up to degree 20 no running product leaves the 64-bit integers. *)
Lemma inverse_factorials_small p :
  (p <= 20)%nat ->
  inverse_factorials p
  = map (fun k => Some (1 / inject_Z (factorial k))%Q) (seq 1 p).
Proof.
  intros Hp. unfold inverse_factorials.
  rewrite multiply_accumulate_factorials, map_map.
  - apply map_ext. intros k. apply fdiv_nonzero.
    pose proof (factorial_pos k). lia.
  - pose proof (factorial_mono p 20 Hp) as H.
    change (factorial 20) with 2432902008176640000 in H. lia.
Qed.

(** *** The table [A] *)

Section Tables.

Variable p : nat.

Lemma zip_with_map_same {A B C D} (f : B -> C -> D) (g : A -> B) (h : A -> C) l :
  zip_with f (map g l) (map h l) = map (fun x => f (g x) (h x)) l.
Proof. induction l as [|x l IH]; [reflexivity|]. cbn. f_equal. exact IH. Qed.

Lemma shifted_rows_eq bc :
  shifted_rows p bc = map (fun k => map (shifted p k) bc) (seq 0 p).
Proof. unfold shifted_rows, arange. rewrite map_map. reflexivity. Qed.

Lemma cumprod_from_columns bc n : forall k,
  cumprod_from (map (cum p k) bc) (map (fun k => map (shifted p k) bc) (seq k n))
  = map (fun k => map (cum p k) bc) (seq (S k) n).
Proof.
  induction n as [|n IH]; intros k; [reflexivity|].
  cbn [seq map cumprod_from]. rewrite zip_with_map_same.
  change (map (fun x => cum p k x * shifted p k x)%Q bc) with (map (cum p (S k)) bc).
  f_equal. apply IH.
Qed.

Lemma cumprod_columns bc :
  cumprod (map (fun _ => 1%Q) bc :: shifted_rows p bc)
  = map (fun k => map (cum p k) bc) (seq 0 (S p)).
Proof.
  rewrite shifted_rows_eq. cbn [cumprod seq map].
  change (map (fun _ => 1%Q) bc) with (map (cum p 0) bc).
  f_equal. apply cumprod_from_columns.
Qed.

Lemma scale_columns (f : nat -> Q -> Q) bc :
  (p <= 20)%nat ->
  scale_rows (map (fun k => map (f k) bc) (seq 0 (S p))) (inverse_factorials p)
  = map (fun k => map (fun x => Some (match k with
                                      | O => f 0%nat x
                                      | S _ => f k x * (1 / inject_Z (factorial k))
                                      end)%Q) bc)
        (seq 0 (S p)).
Proof.
  intros Hp. rewrite inverse_factorials_small by exact Hp.
  cbn [seq map scale_rows]. f_equal; [apply map_map|].
  rewrite zip_with_map_same. apply map_ext_in. intros k Hk.
  apply in_seq in Hk. destruct k as [|k]; [lia|].
  rewrite map_map. reflexivity.
Qed.

Lemma table_columns bc :
  (p <= 20)%nat ->
  table p bc = map (fun k => map (fun x => Some (tabA p k x)) bc) (seq 0 (S p)).
Proof.
  intros Hp. unfold table. rewrite cumprod_columns.
  apply (scale_columns (cum p) bc Hp).
Qed.

(** The entries of [A] are generalised binomial coefficients of [p*x]. *)
Lemma cum_factorial k x :
  (cum p k x == bq (nq p * x) k * inject_Z (factorial k))%Q.
Proof.
  induction k as [|k IH]; [cbn; ring|].
  cbn [cum bq]. rewrite IH, factorial_S, inject_Z_mult.
  unfold shifted. fold (nq (S k)). change (0 + Z.of_nat k) with (Z.of_nat k).
  fold (nq k). fold (nq p). field. apply nq_S_nonzero.
Qed.

Lemma factorial_nonzero k : ~ (inject_Z (factorial k) == 0)%Q.
Proof. pose proof (factorial_pos k). unfold Qeq. simpl. lia. Qed.

Lemma tabA_bq k x : (tabA p k x == bq (nq p * x) k)%Q.
Proof.
  destruct k as [|k]; [reflexivity|].
  unfold tabA. rewrite cum_factorial. field. apply factorial_nonzero.
Qed.

End Tables.

End ShapeTables.

(** ** The shape functions as a sum over multi-indices *)

Module ShapeSums.
Import QSum Convolution MultiIndex MultiIndexFacts Shape ShapeTables.

Lemma getitem_Z {A} (l : list A) (i : Z) x :
  0 <= i -> l !! Z.to_nat i = Some x -> getitem l i = Ok x.
Proof.
  intros Hi Hx. unfold getitem. pose proof (lookup_lt_Some _ _ _ Hx) as Hl.
  destruct (Z.ltb_spec i 0); [lia|].
  destruct (Z.leb_spec 0 i); [|lia].
  destruct (Z.ltb_spec i (Z.of_nat (length l))); [|lia].
  cbn [andb]. rewrite Hx. reflexivity.
Qed.

Lemma traverse_ok {A B} (f : A -> result B) (g : A -> B) l :
  (forall x, In x l -> f x = Ok (g x)) -> traverse f l = Ok (map g l).
Proof.
  induction l as [|x l IH]; intros H; [reflexivity|].
  cbn [traverse map]. rewrite (H x) by (left; reflexivity). cbn [bind].
  rewrite IH by (intros y Hy; apply H; right; exact Hy). reflexivity.
Qed.

(** Reading a table given by columns at a row of the multi-index matrix. *)
Lemma gather_row_columns {X} (f : nat -> Q -> X) (p : nat) bc alpha :
  Forall (fun a => 0 <= a <= Z.of_nat p) alpha ->
  length alpha = length bc ->
  gather_row (map (fun k => map (f k) bc) (seq 0 (S p))) alpha
  = Ok (zip_with (fun a x => f (Z.to_nat a) x) alpha bc).
Proof.
  intros Hb Hl. unfold gather_row.
  set (T := map (fun k => map (f k) bc) (seq 0 (S p))).
  assert (G : forall al j,
             Forall (fun a => 0 <= a <= Z.of_nat p) al ->
             (j + length al = length bc)%nat ->
             traverse (fun '(k, i) => let* row := getitem T k in
                                      getitem row (Z.of_nat i))
                      (zip al (seq j (length al)))
             = Ok (zip_with (fun a x => f (Z.to_nat a) x) al (drop j bc))).
  { induction al as [|a al IH]; intros j Hal Hj; [reflexivity|].
    inversion Hal as [|? ? Ha Hal']; subst.
    destruct (lookup_lt_is_Some_2 bc j ltac:(simpl in Hj; lia)) as [x Hx].
    cbn [length seq zip_with traverse].
    rewrite (getitem_Z T a (map (f (Z.to_nat a)) bc)) by
      (try lia; unfold T; rewrite list_lookup_fmap, lookup_seq_lt by lia;
       reflexivity).
    cbn [bind]. rewrite (getitem_Z _ (Z.of_nat j) (f (Z.to_nat a) x)) by
      (try lia; rewrite Nat2Z.id, list_lookup_fmap, Hx; reflexivity).
    cbn [bind]. rewrite (IH (S j) Hal') by (simpl in Hj; lia). cbn [bind].
    rewrite (drop_S _ _ _ Hx). reflexivity. }
  specialize (G alpha 0%nat Hb ltac:(lia)). rewrite drop_0 in G. exact G.
Qed.

Lemma gather_columns {X} (f : nat -> Q -> X) (p : nat) bc mi :
  Forall (fun alpha => Forall (fun a => 0 <= a <= Z.of_nat p) alpha
                       /\ length alpha = length bc) mi ->
  gather (map (fun k => map (f k) bc) (seq 0 (S p))) mi
  = Ok (map (fun alpha => zip_with (fun a x => f (Z.to_nat a) x) alpha bc) mi).
Proof.
  intros H. unfold gather. apply traverse_ok. intros alpha Hin.
  rewrite Forall_forall in H. destruct (H alpha) as [Hb Hl].
  { apply list_elem_of_In, Hin. }
  apply gather_row_columns; assumption.
Qed.

Lemma sumZ_bound l a : Forall (Z.le 0) l -> In a l -> 0 <= a <= sumZ l.
Proof.
  induction 1 as [|x l Hx Hl IH]; intros Hin; [destruct Hin|].
  assert (Hs : 0 <= sumZ l).
  { clear -Hl. induction Hl as [|y l Hy _ IH]; [cbn; lia|].
    change (sumZ (y :: l)) with (y + sumZ l). lia. }
  change (sumZ (x :: l)) with (x + sumZ l).
  destruct Hin as [<-|Hin]; [lia|].
  specialize (IH Hin). lia.
Qed.

(** The rows of the multi-index matrix index the table inside its bounds. *)
Lemma multi_index_rows_in_range p dim (bc : list Q) :
  Z.of_nat p < 2 ^ 31 -> length bc = S dim ->
  Forall (fun alpha => Forall (fun a => 0 <= a <= Z.of_nat p) alpha
                       /\ length alpha = length bc)
         (multi_index_matrix p dim).
Proof.
  intros Hp Hl. rewrite multi_index_matrix_unwrapped by exact Hp.
  apply Forall_forall. intros alpha Hin. apply list_elem_of_In in Hin.
  apply rows_of_separators_spec in Hin as (Hlen & Hnn & Hsum).
  split; [|lia]. apply Forall_forall. intros a Ha. rewrite <- Hsum.
  apply sumZ_bound; [exact Hnn|]. apply list_elem_of_In, Ha.
Qed.

Lemma foldl_fmul_Some a l :
  foldl fmul (Some a) (map Some l) = Some (foldl Qmult a l).
Proof. revert a. induction l as [|x l IH]; intros a; [reflexivity|]. apply IH. Qed.

Lemma fprod_Some l : fprod (map Some l) = Some (foldl Qmult 1%Q l).
Proof. apply foldl_fmul_Some. Qed.

Lemma foldl_fadd_Some a l :
  foldl fadd (Some a) (map Some l) = Some (foldl Qplus a l).
Proof. revert a. induction l as [|x l IH]; intros a; [reflexivity|]. apply IH. Qed.

Lemma fsum_Some l : fsum (map Some l) = Some (qsum l).
Proof. apply foldl_fadd_Some. Qed.

Lemma zip_with_Some {A B} (h : A -> B -> Q) l k :
  zip_with (fun a x => Some (h a x)) l k = map Some (zip_with h l k).
Proof.
  revert k. induction l as [|a l IH]; intros [|x k]; try reflexivity.
  cbn. f_equal. apply IH.
Qed.

(** The left-to-right product of the entries that a multi-index picks. *)
Lemma foldl_Qmult_prod_at (f : nat -> Q -> Q) alpha : forall bc c,
  (foldl Qmult c (zip_with (fun a x => f (Z.to_nat a) x) alpha bc)
   == c * prod_at (map (fun x k => f k x) bc) alpha)%Q.
Proof.
  induction alpha as [|a alpha IH]; intros [|x bc] c;
    cbn [zip_with foldl map prod_at]; try ring.
  rewrite IH. ring.
Qed.

Lemma small_degree p : (p <= 20)%nat -> Z.of_nat p < 2 ^ 31.
Proof. intros H. change (2 ^ 31) with 2147483648. lia. Qed.

(** What [simplex_shape_function] returns up to degree 20. *)
Lemma simplex_shape_function_values (x : Q) (rest : list Q) (p : nat) :
  (p <= 20)%nat -> p <> 1%nat ->
  simplex_shape_function (x :: rest) p
  = Ok (map Some
          (map (fun alpha =>
                  foldl Qmult 1%Q
                    (zip_with (fun a y => tabA p (Z.to_nat a) y) alpha (x :: rest)))
               (multi_index_matrix p (length rest)))).
Proof.
  intros Hp H1. unfold simplex_shape_function.
  destruct (Nat.eqb_spec p 1) as [|_]; [contradiction|].
  rewrite (table_columns p (x :: rest) Hp).
  rewrite (gather_columns (fun k y => Some (tabA p k y)) p (x :: rest)).
  - cbn [bind]. f_equal. rewrite !map_map. apply map_ext. intros alpha.
    rewrite zip_with_Some. apply fprod_Some.
  - apply multi_index_rows_in_range; [apply small_degree, Hp|reflexivity].
Qed.

Lemma sumq_id_scale c l : (sumq id (map (Qmult c) l) == c * sumq id l)%Q.
Proof. rewrite sumq_map. apply (sumq_scale c id). Qed.

Lemma rows_of_separators_length p dim :
  length (rows_of_separators p dim) = binom (p + dim) dim.
Proof.
  unfold rows_of_separators.
  rewrite length_map, length_rev, cwr_length.
  unfold range. rewrite length_map, length_seq. f_equal. lia.
Qed.

(** The values of the shape functions of a degree other than 1 sum to the
    binomial coefficient [C(p * sum(bc), p)]. *)
Lemma shape_function_sum (bc : list Q) (p : nat) :
  (p <= 20)%nat -> p <> 1%nat -> bc <> [] ->
  exists phi,
    simplex_shape_function bc p = Ok (map Some phi)
    /\ length phi = binom (p + (length bc - 1)) (length bc - 1)
    /\ (qsum phi == bq (nq p * qsum bc) p)%Q.
Proof.
  intros Hp H1 Hne. destruct bc as [|x rest]; [congruence|].
  eexists. split; [apply simplex_shape_function_values; assumption|].
  rewrite multi_index_matrix_unwrapped by (apply small_degree, Hp).
  split.
  - replace (length (x :: rest) - 1)%nat with (length rest)
      by (cbn [length]; lia).
    rewrite length_map. apply rows_of_separators_length.
  - rewrite qsum_map.
    rewrite (sumq_ext _ (prod_at (map (fun y k => tabA p k y) (x :: rest)))).
    2:{ intros alpha _.
        rewrite (foldl_Qmult_prod_at (tabA p) alpha (x :: rest) 1). ring. }
    rewrite (sum_over_multi_indices p (length rest))
      by (rewrite length_map; reflexivity).
    rewrite (conv_list_ext _ (map bq (map (Qmult (nq p)) (x :: rest)))).
    2:{ rewrite map_map. apply Forall2_fmap, Forall_Forall2_diag, Forall_forall.
        intros y _ k. apply tabA_bq. }
    rewrite conv_list_bq by discriminate.
    apply bq_ext. rewrite sumq_id_scale, <- qsum_sumq. reflexivity.
Qed.

(** X1.  The shape functions of degree at most 20 form a partition of unity:
    at every point whose barycentric coordinates sum to 1, in every
    dimension, the values returned by [simplex_shape_function] are finite
    and sum to 1. *)
Theorem partition_of_unity (bc : list Q) (p : nat) :
  (p <= 20)%nat -> bc <> [] -> (qsum bc == 1)%Q ->
  exists phi,
    simplex_shape_function bc p = Ok (map Some phi)
    /\ fsum (map Some phi) = Some (qsum phi)
    /\ (qsum phi == 1)%Q.
Proof.
  intros Hp Hne Hsum. destruct (Nat.eq_dec p 1%nat) as [->|H1].
  - exists bc. split; [reflexivity|]. split; [apply fsum_Some|exact Hsum].
  - destruct (shape_function_sum bc p Hp H1 Hne) as (phi & E & _ & Hphi).
    exists phi. split; [exact E|]. split; [apply fsum_Some|].
    rewrite Hphi. rewrite (bq_ext _ (nq p)); [apply bq_diag|].
    rewrite Hsum. ring.
Qed.

Lemma partition_of_unity_witness :
  exists phi,
    simplex_shape_function [1 # 3; 1 # 3; 1 # 3]%Q 2 = Ok (map Some phi)
    /\ fsum (map Some phi) = Some (qsum phi)
    /\ (qsum phi == 1)%Q.
Proof.
  apply (partition_of_unity [1 # 3; 1 # 3; 1 # 3]%Q 2);
    [lia | discriminate | reflexivity].
Defined.

(** X2.  At degree 0 there is one shape function, the constant 1, in every
    dimension and at every point. *)
Theorem constant_shape_function (bc : list Q) :
  bc <> [] ->
  exists v, simplex_shape_function bc 0 = Ok [Some v] /\ (v == 1)%Q.
Proof.
  intros Hne.
  destruct (shape_function_sum bc 0 ltac:(lia) ltac:(lia) Hne)
    as (phi & E & Hlen & Hphi).
  rewrite binom_diag in Hlen.
  destruct phi as [|v [|w phi]]; cbn [length] in Hlen; try lia.
  exists v. split; [exact E|].
  rewrite qsum_sumq, sumq_cons, sumq_nil in Hphi. unfold id in Hphi.
  cbn [bq] in Hphi. rewrite <- Hphi. ring.
Qed.

Lemma constant_shape_function_witness :
  exists v, simplex_shape_function [1 # 2; 1 # 2]%Q 0 = Ok [Some v] /\ (v == 1)%Q.
Proof. apply (constant_shape_function [1 # 2; 1 # 2]%Q). discriminate. Defined.

End ShapeSums.

(** ** The gradients of the shape functions *)

Module ShapeGradients.
Import QSum Convolution MultiIndex MultiIndexFacts Shape ShapeTables ShapeSums.

Lemma nth_map_lt {A B} (f : A -> B) (l : list A) (d : B) (d' : A) i :
  (i < length l)%nat -> nth i (map f l) d = f (nth i l d').
Proof.
  intros Hi. rewrite (nth_indep _ d (f d')) by (rewrite length_map; exact Hi).
  apply map_nth.
Qed.

Lemma map_nth_seq {A B} (g : A -> B) (l : list A) (d : A) :
  map (fun i => g (nth i l d)) (seq 0 (length l)) = map g l.
Proof.
  induction l as [|x l IH]; [reflexivity|].
  cbn [length seq map nth]. f_equal. rewrite <- seq_shift, map_map. exact IH.
Qed.

(** Transposing a table given by columns. *)
Lemma transpose_columns {A} (f : nat -> Q -> A) (d : A) (bc : list Q) n :
  transpose d (length bc) (map (fun k => map (f k) bc) (seq 0 n))
  = map (fun x => map (fun k => f k x) (seq 0 n)) bc.
Proof.
  unfold transpose.
  rewrite <- (map_nth_seq (fun x => map (fun k => f k x) (seq 0 n)) bc 0%Q).
  apply map_ext_in. intros i Hi. apply in_seq in Hi.
  rewrite map_map. apply map_ext. intros k.
  apply nth_map_lt. lia.
Qed.

Lemma transpose_rows {A} (f : Q -> list A) (d : A) (bc : list Q) n :
  transpose d n (map f bc) = map (fun j => map (fun x => nth j (f x) d) bc) (seq 0 n).
Proof. unfold transpose. apply map_ext. intros j. apply map_map. Qed.

Section GradTable.

Variable p : nat.

Lemma insert_replicate {A} (v a : A) n j :
  <[j := v]> (replicate n a)
  = map (fun m => if (m =? j)%nat then v else a) (seq 0 n).
Proof.
  revert j. induction n as [|n IH]; intros j; [reflexivity|].
  destruct j as [|j]; cbn [replicate seq map].
  - cbn. f_equal. rewrite <- seq_shift, map_map.
    clear. induction n as [|n IH]; [reflexivity|].
    cbn [replicate seq map]. f_equal. rewrite <- seq_shift, map_map. exact IH.
  - cbn [insert list_insert]. change (0 =? S j)%nat with false. cbv iota. f_equal.
    rewrite IH, <- seq_shift, map_map. reflexivity.
Qed.

Lemma imap_map_seq {B C} (f : nat -> B -> C) (g : nat -> B) (n : nat) :
  imap f (map g (seq 0 n)) = map (fun k => f k (g k)) (seq 0 n).
Proof.
  apply list_eq. intros i. rewrite list_lookup_imap, !list_lookup_fmap.
  destruct (seq 0 n !! i) as [k|] eqn:E; [|reflexivity].
  apply lookup_seq in E as [-> _]. reflexivity.
Qed.

Lemma set_diagonal_entries x :
  set_diagonal p
    (map (fun a => map (fun one => a * one)%Q (replicate p 1%Q))
         (map (fun k => shifted p k x) (seq 0 p)))
  = map (fun j => map (diag_entry p x j) (seq 0 p)) (seq 0 p).
Proof.
  unfold set_diagonal. rewrite map_map.
  rewrite imap_map_seq.
  apply map_ext. intros j.
  assert (E : forall a n, map (fun one => a * one)%Q (replicate n 1%Q)
                          = replicate n (a * 1)%Q).
  { intros a n. induction n as [|n IH]; [reflexivity|]. cbn. f_equal. exact IH. }
  rewrite E, insert_replicate. reflexivity.
Qed.

Lemma cumprod_from_entries x (L : list nat) n : forall k,
  cumprod_from (map (cum_entry p x k) L)
    (map (fun j => map (diag_entry p x j) L) (seq (S k) n))
  = map (fun j => map (cum_entry p x j) L) (seq (S k) n).
Proof.
  induction n as [|n IH]; intros k; [reflexivity|].
  cbn [seq map cumprod_from]. rewrite zip_with_map_same.
  change (map (fun m => cum_entry p x k m * diag_entry p x (S k) m)%Q L)
    with (map (cum_entry p x (S k)) L).
  f_equal. apply IH.
Qed.

Lemma cumprod_entries x (L : list nat) n :
  cumprod (map (fun j => map (diag_entry p x j) L) (seq 0 n))
  = map (fun j => map (cum_entry p x j) L) (seq 0 n).
Proof.
  destruct n as [|n]; [reflexivity|].
  cbn [seq map cumprod].
  change (map (diag_entry p x 0) L) with (map (cum_entry p x 0) L).
  f_equal. apply cumprod_from_entries.
Qed.

Lemma tril_sums_entries x :
  tril_sums p x
  = map (fun j => qsum (map (fun m => if (m <=? j)%nat then cum_entry p x j m else 0%Q)
                            (seq 0 p)))
        (seq 0 p).
Proof.
  unfold tril_sums. rewrite set_diagonal_entries, cumprod_entries.
  unfold tril. rewrite imap_map_seq, map_map. apply map_ext. intros j.
  rewrite imap_map_seq. reflexivity.
Qed.

Lemma cum_entry_above x j : forall m,
  (j < m)%nat -> (cum_entry p x j m == cum p (S j) x)%Q.
Proof.
  induction j as [|j IH]; intros m Hm.
  - cbn [cum_entry cum]. unfold diag_entry.
    destruct (Nat.eqb_spec m 0); [lia|]. ring.
  - cbn [cum_entry]. rewrite (IH m) by lia. unfold diag_entry.
    destruct (Nat.eqb_spec m (S j)); [lia|].
    change (cum p (S (S j)) x) with (cum p (S j) x * shifted p (S j) x)%Q. ring.
Qed.

Lemma cum_entry_sum x j :
  (sumq (cum_entry p x j) (seq 0 (S j)) == dcum p (S j) x)%Q.
Proof.
  induction j as [|j IH].
  - cbn [seq]. rewrite sumq_cons, sumq_nil. cbn [cum_entry dcum cum].
    unfold diag_entry. cbn [Nat.eqb]. fold (nq p). ring.
  - rewrite seq_S, sumq_app, sumq_cons, sumq_nil. cbn [Nat.add].
    rewrite (sumq_ext _ (fun m => shifted p (S j) x * cum_entry p x j m)%Q).
    2:{ intros m Hm. apply in_seq in Hm. cbn [cum_entry]. unfold diag_entry.
        destruct (Nat.eqb_spec m (S j)); [lia|]. ring. }
    rewrite sumq_scale, IH. cbn [cum_entry].
    rewrite (cum_entry_above x j (S j)) by lia.
    unfold diag_entry. rewrite Nat.eqb_refl. fold (nq p).
    change (dcum p (S (S j)) x)
      with (dcum p (S j) x * shifted p (S j) x + nq p * cum p (S j) x)%Q.
    ring.
Qed.

Lemma tril_sums_nth x j :
  (j < p)%nat -> (nth j (tril_sums p x) 0 == dcum p (S j) x)%Q.
Proof.
  intros Hj. rewrite tril_sums_entries.
  rewrite (nth_map_lt _ _ _ 0%nat) by (rewrite length_seq; exact Hj).
  rewrite seq_nth by exact Hj. cbn [Nat.add].
  rewrite qsum_map.
  replace (seq 0 p) with (seq 0 (S j) ++ seq (S j) (p - S j)).
  2:{ rewrite <- seq_app. f_equal. lia. }
  rewrite sumq_app.
  rewrite (sumq_ext _ (cum_entry p x j) (seq 0 (S j))).
  2:{ intros m Hm. apply in_seq in Hm.
      destruct (Nat.leb_spec m j); [reflexivity|lia]. }
  rewrite (sumq_zero _ (seq (S j) (p - S j))).
  2:{ intros m Hm. apply in_seq in Hm.
      destruct (Nat.leb_spec m j); [lia|reflexivity]. }
  rewrite cum_entry_sum. ring.
Qed.

(** The entries of [F] are the derivatives of the entries of [A]. *)
Lemma dcum_factorial k x :
  (dcum p k x == nq p * dbq (nq p * x) k * inject_Z (factorial k))%Q.
Proof.
  induction k as [|k IH]; [cbn; ring|].
  cbn [dcum dbq]. rewrite IH, cum_factorial, factorial_S, inject_Z_mult.
  unfold shifted. fold (nq (S k)). change (0 + Z.of_nat k) with (Z.of_nat k).
  fold (nq k). fold (nq p). field. apply nq_S_nonzero.
Qed.

Lemma tabF_dbq k x :
  (k <= p)%nat -> (tabF p k x == nq p * dbq (nq p * x) k)%Q.
Proof.
  intros Hk. destruct k as [|k]; [cbn; ring|].
  unfold tabF. rewrite tril_sums_nth by lia. rewrite dcum_factorial.
  field. apply factorial_nonzero.
Qed.

Lemma grad_table_columns bc :
  (p <= 20)%nat ->
  grad_table p bc = map (fun k => map (fun x => Some (tabF p k x)) bc) (seq 0 (S p)).
Proof.
  intros Hp. unfold grad_table, einsum_kjm.
  rewrite shifted_rows_eq, transpose_columns, !map_map.
  change (map (fun x => map qsum (tril (cumprod (set_diagonal p
            (map (fun a => map (fun one => a * one)%Q (replicate p 1%Q))
                 (map (fun k => shifted p k x) (seq 0 p))))))) bc)
    with (map (tril_sums p) bc).
  rewrite transpose_rows.
  set (g := fun (k : nat) (x : Q) =>
              match k with O => 0%Q | S j => nth j (tril_sums p x) 0%Q end).
  assert (E : map (fun _ : Q => 0%Q) bc
                :: map (fun j => map (fun x => nth j (tril_sums p x) 0%Q) bc) (seq 0 p)
              = map (fun k => map (g k) bc) (seq 0 (S p))).
  { cbn [seq map]. f_equal. rewrite <- seq_shift, map_map. reflexivity. }
  rewrite E. rewrite (scale_columns p g bc Hp).
  apply map_ext. intros k. apply map_ext. intros x. destruct k; reflexivity.
Qed.

End GradTable.

(** *** The gradient array *)

Lemma mixed_length f g bc : forall i, length (mixed f g i bc) = length bc.
Proof.
  induction bc as [|x bc IH]; intros [|i]; cbn [mixed length]; try reflexivity.
  - rewrite length_map. reflexivity.
  - rewrite IH. reflexivity.
Qed.

Lemma foldl_Qmult_scale l : forall c, (foldl Qmult c l == c * foldl Qmult 1 l)%Q.
Proof.
  induction l as [|x l IH]; intros c; cbn [foldl]; [ring|].
  rewrite (IH (c * x)%Q), (IH (1 * x)%Q). ring.
Qed.

Lemma remove_index_cons {X} (i : nat) (x : X) l :
  remove_index (S i) (x :: l) = x :: remove_index i l.
Proof. reflexivity. Qed.

Lemma remove_index_map {X Y} (h : X -> Y) l i :
  remove_index i (map h l) = map h (remove_index i l).
Proof.
  unfold remove_index. change (@map X Y h) with (@fmap list _ X Y h).
  rewrite fmap_app, fmap_take, fmap_drop. reflexivity.
Qed.

(** One entry of the gradient array is a product over the coordinates. *)
Lemma entry_prod_at (f g : nat -> Q -> Q) alpha : forall bc i,
  (i < length alpha)%nat -> length alpha = length bc ->
  (nth i (zip_with (fun a x => g (Z.to_nat a) x) alpha bc) 0
   * foldl Qmult 1 (remove_index i (zip_with (fun a x => f (Z.to_nat a) x) alpha bc))
   == prod_at (mixed f g i bc) alpha)%Q.
Proof.
  induction alpha as [|a alpha IH]; intros [|x bc] i Hi Hl;
    cbn [length] in *; try lia.
  destruct i as [|i].
  - cbn [zip_with nth mixed prod_at]. unfold remove_index. cbn [take drop app].
    rewrite (foldl_Qmult_prod_at f alpha bc 1). ring.
  - cbn [zip_with nth mixed prod_at]. rewrite remove_index_cons. cbn [foldl].
    rewrite foldl_Qmult_scale, <- (IH bc i) by lia. ring.
Qed.

Lemma nth_imap {A B} (h : nat -> A -> B) (l : list A) (d : B) (d' : A) i :
  (i < length l)%nat -> nth i (imap h l) d = h i (nth i l d').
Proof.
  intros Hi. destruct (lookup_lt_is_Some_2 l i Hi) as [y Hy].
  rewrite (nth_lookup_Some _ _ d' _ Hy).
  apply nth_lookup_Some. rewrite list_lookup_imap, Hy. reflexivity.
Qed.

Lemma imap_Some (h : nat -> Q -> Q) (l : list Q) :
  imap (fun i m => Some (h i m)) l = map Some (imap h l).
Proof.
  apply list_eq. intros i.
  rewrite list_lookup_fmap, !list_lookup_imap.
  destruct (l !! i); reflexivity.
Qed.

Lemma imap_map {A B C} (h : nat -> B -> C) (g : A -> B) (l : list A) :
  imap h (map g l) = imap (fun i a => h i (g a)) l.
Proof.
  apply list_eq. intros i.
  rewrite !list_lookup_imap, list_lookup_fmap. destruct (l !! i); reflexivity.
Qed.

(** Sequences that agree up to [n] have the same convolution at [n]. *)
Lemma conv_list_ext_le us us' n :
  Forall2 (fun u u' => forall k, (k <= n)%nat -> (u k == u' k)%Q) us us' ->
  forall m, (m <= n)%nat -> (conv_list us m == conv_list us' m)%Q.
Proof.
  induction 1 as [|u u' us us' Hu Hus IH]; intros m Hm; [reflexivity|].
  destruct Hus as [|v v' vs vs' Hv Hvs].
  - apply Hu, Hm.
  - rewrite !conv_list_cons.
    rewrite (conv_ext_l u u') by (intros; apply Hu; lia).
    apply conv_ext_r. intros k Hk. apply IH. lia.
Qed.

Lemma mixed_marked (p : nat) bc : forall i,
  Forall2 (fun u u' => forall k, (k <= p)%nat -> (u k == u' k)%Q)
          (mixed (tabA p) (tabF p) i bc)
          (marked (nq p) i (map (Qmult (nq p)) bc)).
Proof.
  induction bc as [|x bc IH]; intros i; [destruct i; constructor|].
  destruct i as [|i]; cbn [mixed marked map]; constructor.
  - intros k Hk. apply tabF_dbq, Hk.
  - rewrite !map_map. apply Forall2_fmap, Forall_Forall2_diag, Forall_forall.
    intros y _ k _. apply tabA_bq.
  - intros k _. apply tabA_bq.
  - apply IH.
Qed.

(** What [simplex_grad_shape_function] returns up to degree 20. *)
Lemma simplex_grad_shape_function_values (x : Q) (rest : list Q) (p : nat) :
  (p <= 20)%nat ->
  simplex_grad_shape_function (x :: rest) p
  = Ok (map (map Some)
          (map (fun alpha =>
                  imap (fun i m =>
                          (m * foldl Qmult 1
                                 (remove_index i
                                    (zip_with (fun a y => tabA p (Z.to_nat a) y)
                                              alpha (x :: rest))))%Q)
                       (zip_with (fun a y => tabF p (Z.to_nat a) y) alpha (x :: rest)))
               (multi_index_matrix p (length rest)))).
Proof.
  intros Hp. unfold simplex_grad_shape_function.
  rewrite (table_columns p (x :: rest) Hp), (grad_table_columns p (x :: rest) Hp).
  pose proof (multi_index_rows_in_range p (length rest) (x :: rest)
                (small_degree p Hp) eq_refl) as Hr.
  rewrite (gather_columns (fun k y => Some (tabA p k y)) p (x :: rest) _ Hr).
  rewrite (gather_columns (fun k y => Some (tabF p k y)) p (x :: rest) _ Hr).
  cbn [bind]. f_equal. rewrite zip_with_map_same, !map_map.
  apply map_ext. intros alpha.
  rewrite !zip_with_Some, imap_map, <- imap_Some.
  apply imap_ext. intros i m _. cbv beta.
  rewrite remove_index_map, fprod_Some. reflexivity.
Qed.

Lemma prod_at_ext_le (p : nat) us us' :
  Forall2 (fun u u' => forall k, (k <= p)%nat -> (u k == u' k)%Q) us us' ->
  forall alpha : list Z,
    Forall (fun a => 0 <= a <= Z.of_nat p) alpha ->
    (prod_at us alpha == prod_at us' alpha)%Q.
Proof.
  induction 1 as [|u u' us us' Hu _ IH]; intros [|a alpha] Ha;
    cbn [prod_at]; try reflexivity.
  apply Forall_cons in Ha as [Ha Halpha].
  rewrite (Hu (Z.to_nat a)) by lia. rewrite (IH alpha Halpha). reflexivity.
Qed.

(** C3, amended.  The gradients of the shape functions of degree at most
    20, in every dimension and at every point.  The entries of the array
    returned by [simplex_grad_shape_function] are finite; the entry
    [(a, i)] is [p * C'(p * bc_i, alpha_i)] times the product of the
    [C(p * bc_j, alpha_j)] over [j <> i], where [alpha] is the row [a] of
    the multi-index matrix, [C(X, k)] the binomial coefficient [bq] and
    [C'(X, k)] its derivative [dbq] in [X]; and the sum of the entries over
    the shape functions is the same in each of the barycentric
    directions, namely [p] times the derivative of [C(X, p)] at
    [X = p * sum(bc)]. *)
Theorem gradient_column_sums (bc : list Q) (p : nat) :
  (p <= 20)%nat -> bc <> [] ->
  exists grad,
    simplex_grad_shape_function bc p = Ok (map (map Some) grad)
    /\ length grad = length (multi_index_matrix p (length bc - 1))
    /\ Forall (fun row => length row = length bc) grad
    /\ (forall a alpha i,
          multi_index_matrix p (length bc - 1) !! a = Some alpha ->
          (i < length bc)%nat ->
          exists row,
            grad !! a = Some row
            /\ (nth i row 0
                == prod_at (marked (nq p) i (map (Qmult (nq p)) bc)) alpha)%Q)
    /\ forall i, (i < length bc)%nat ->
         (sumq (fun row => nth i row 0) grad
          == nq p * dbq (nq p * qsum bc) p)%Q.
Proof.
  intros Hp Hne. destruct bc as [|x rest]; [congruence|].
  pose proof (multi_index_rows_in_range p (length rest) (x :: rest)
                (small_degree p Hp) eq_refl) as Hr.
  replace (length (x :: rest) - 1)%nat with (length rest)
    by (cbn [length]; lia).
  assert (Hentry : forall alpha i,
             In alpha (multi_index_matrix p (length rest)) ->
             (i < length (x :: rest))%nat ->
             (nth i (imap (fun i m =>
                             (m * foldl Qmult 1
                                    (remove_index i
                                       (zip_with (fun a y => tabA p (Z.to_nat a) y)
                                                 alpha (x :: rest))))%Q)
                          (zip_with (fun a y => tabF p (Z.to_nat a) y)
                                    alpha (x :: rest))) 0
              == prod_at (mixed (tabA p) (tabF p) i (x :: rest)) alpha)%Q).
  { intros alpha i Hin Hi. rewrite Forall_forall in Hr.
    destruct (Hr alpha) as [_ Hl]; [apply list_elem_of_In, Hin|].
    rewrite (nth_imap _ _ _ 0%Q) by (rewrite length_zip_with; lia).
    apply entry_prod_at; lia. }
  eexists. split; [apply simplex_grad_shape_function_values, Hp|].
  split; [|split; [|split]].
  - apply length_map.
  - apply Forall_fmap. eapply Forall_impl; [exact Hr|].
    intros alpha [_ Hl]. cbv beta. unfold compose.
    rewrite length_imap, length_zip_with. lia.
  - intros a alpha i Ha Hi. eexists. split.
    + rewrite list_lookup_fmap, Ha. reflexivity.
    + assert (Hin : In alpha (multi_index_matrix p (length rest)))
        by (apply list_elem_of_In; exact (list_elem_of_lookup_2 _ _ _ Ha)).
      rewrite (Hentry alpha i Hin Hi).
      apply (prod_at_ext_le p); [apply mixed_marked|].
      rewrite Forall_forall in Hr.
      exact (proj1 (Hr alpha (proj2 (list_elem_of_In _ _) Hin))).
  - intros i Hi. rewrite sumq_map.
    rewrite (sumq_ext _ (prod_at (mixed (tabA p) (tabF p) i (x :: rest)))).
    2:{ intros alpha Hin. apply Hentry; assumption. }
    rewrite multi_index_matrix_unwrapped by (apply small_degree, Hp).
    rewrite (sum_over_multi_indices p (length rest))
      by (rewrite mixed_length; reflexivity).
    rewrite (conv_list_ext_le _ _ p (mixed_marked p (x :: rest) i) p (le_n p)).
    rewrite conv_list_marked by (rewrite length_map; exact Hi).
    rewrite (dbq_ext _ (nq p * qsum (x :: rest))); [reflexivity|].
    rewrite sumq_id_scale, <- qsum_sumq. reflexivity.
Qed.

Lemma gradient_column_sums_witness :
  exists grad,
    simplex_grad_shape_function [1 # 3; 1 # 3; 1 # 3]%Q 2 = Ok (map (map Some) grad)
    /\ length grad = length (multi_index_matrix 2 (length [1 # 3; 1 # 3; 1 # 3]%Q - 1))
    /\ Forall (fun row => length row = length [1 # 3; 1 # 3; 1 # 3]%Q) grad
    /\ (forall a alpha i,
          multi_index_matrix 2 (length [1 # 3; 1 # 3; 1 # 3]%Q - 1) !! a
          = Some alpha ->
          (i < length [1 # 3; 1 # 3; 1 # 3]%Q)%nat ->
          exists row,
            grad !! a = Some row
            /\ (nth i row 0
                == prod_at (marked (nq 2) i
                              (map (Qmult (nq 2)) [1 # 3; 1 # 3; 1 # 3]))
                           alpha)%Q)
    /\ forall i, (i < length [1 # 3; 1 # 3; 1 # 3]%Q)%nat ->
         (sumq (fun row => nth i row 0) grad
          == nq 2 * dbq (nq 2 * qsum [1 # 3; 1 # 3; 1 # 3]) 2)%Q.
Proof.
  apply (gradient_column_sums [1 # 3; 1 # 3; 1 # 3]%Q 2); [lia | discriminate].
Defined.

End ShapeGradients.

(** ** The nodal basis *)

Module NodalBasis.
Export NodalDefs.
Import QSum Convolution MultiIndex MultiIndexFacts Shape ShapeTables ShapeSums.

(** A binomial coefficient [C(n, k)] with [k > n] vanishes. *)
Lemma bq_above n k : (n < k)%nat -> (bq (nq n) k == 0)%Q.
Proof.
  induction 1 as [|k Hk IH].
  - cbn [bq]. field. apply nq_S_nonzero.
  - cbn [bq]. rewrite IH. field. apply nq_S_nonzero.
Qed.

Lemma nq_to_nat z : 0 <= z -> nq (Z.to_nat z) = inject_Z z.
Proof. intros H. unfold nq. rewrite Z2Nat.id by exact H. reflexivity. Qed.

(** The product of the binomial coefficients [C(alpha_i, beta_i)] of two
    multi-indices of the same degree is 1 when they are equal and 0
    otherwise. *)
Lemma prod_at_binomials (alpha : list Z) : forall beta : list Z,
  length alpha = length beta ->
  Forall (Z.le 0) alpha -> Forall (Z.le 0) beta ->
  sumZ alpha <= sumZ beta ->
  (prod_at (map (fun x => bq (inject_Z x)) alpha) beta
   == if decide (alpha = beta) then 1 else 0)%Q.
Proof.
  induction alpha as [|x alpha IH]; intros [|y beta] Hl Ha Hb Hs;
    cbn [length] in Hl; try lia.
  - cbn [map prod_at]. destruct (decide _); [reflexivity|congruence].
  - apply Forall_cons in Ha as [Hx Ha]. apply Forall_cons in Hb as [Hy Hb].
    change (sumZ (x :: alpha)) with (x + sumZ alpha) in Hs.
    change (sumZ (y :: beta)) with (y + sumZ beta) in Hs.
    cbn [map prod_at]. rewrite <- (nq_to_nat x Hx).
    destruct (Z.lt_trichotomy x y) as [Hlt|[->|Hgt]].
    + rewrite bq_above by lia.
      destruct (decide _) as [E|_]; [injection E; lia|ring].
    + assert (E := IH beta ltac:(lia) Ha Hb ltac:(lia)).
      rewrite bq_diag, E.
      destruct (decide (alpha = beta)) as [->|Hne];
        destruct (decide _) as [E'|Hne']; try ring; congruence.
    + assert (E := IH beta ltac:(lia) Ha Hb ltac:(lia)).
      rewrite E.
      destruct (decide (alpha = beta)) as [->|_]; [lia|].
      destruct (decide _) as [E'|_]; [injection E'; lia|ring].
Qed.

(** At degree 1 the rows of the multi-index matrix are the unit vectors,
    in their order. *)
Lemma cwr_singleton {A} (x : A) r :
  combinations_with_replacement r [x] = [replicate r x].
Proof.
  induction r as [|r IH]; [reflexivity|].
  rewrite cwr_cons, IH, cwr_nil. reflexivity.
Qed.

Lemma cwr_two {A} (x y : A) r :
  combinations_with_replacement r [x; y]
  = map (fun t => replicate (r - t) x ++ replicate t y) (seq 0 (S r)).
Proof.
  induction r as [|r IH]; [reflexivity|].
  rewrite cwr_cons, IH, cwr_singleton, map_map.
  rewrite (seq_S (S r)), map_app. cbn [map Nat.add].
  rewrite Nat.sub_diag. cbn [replicate app]. f_equal.
  apply map_ext_in. intros t Ht. apply in_seq in Ht.
  replace (S r - t)%nat with (S (r - t)) by lia. reflexivity.
Qed.

Lemma rev_lookup {A} (l : list A) (i : nat) :
  (i < length l)%nat -> rev l !! i = l !! (length l - S i)%nat.
Proof. intros H. rewrite rev_alt. apply (reverse_lookup l i H). Qed.

Lemma diff_from_ones n : diff_from 1 (replicate n 1) = replicate n 0.
Proof. induction n as [|n IH]; [reflexivity|]. cbn. f_equal. exact IH. Qed.

Lemma diff_from_step b m :
  diff_from 0 (replicate b 0 ++ replicate (S m) 1)
  = replicate b 0 ++ [1] ++ replicate m 0.
Proof.
  induction b as [|b IH].
  - cbn [replicate app diff_from]. f_equal. apply diff_from_ones.
  - cbn [replicate app diff_from]. f_equal. exact IH.
Qed.

Lemma rows_of_separators_1 dim :
  rows_of_separators 1 dim = map (unit_row dim) (seq 0 (S dim)).
Proof.
  unfold rows_of_separators, range.
  change (map Z.of_nat (seq 0 (1 + 1))) with [0; 1]. change (Z.of_nat 1) with 1.
  rewrite cwr_two. apply list_eq. intros b.
  rewrite !list_lookup_fmap.
  destruct (decide (b < S dim)%nat) as [Hb|Hb].
  - rewrite rev_lookup by (rewrite length_map, length_seq; lia).
    rewrite length_map, length_seq, list_lookup_fmap, !lookup_seq_lt by lia.
    cbn [fmap option_fmap option_map Nat.add]. f_equal. unfold unit_row.
    replace (dim - (S dim - S b))%nat with b by lia.
    rewrite <- app_assoc.
    change (replicate (S dim - S b) 1 ++ [1]) with
      (replicate (S dim - S b) 1 ++ replicate 1 1).
    rewrite <- replicate_add.
    replace (S dim - S b + 1)%nat with (S (dim - b)) by lia.
    apply diff_from_step.
  - rewrite !lookup_ge_None_2; [reflexivity| |].
    + rewrite length_seq. lia.
    + rewrite length_rev, length_map, length_seq. lia.
Qed.

Lemma unit_row_lookup dim a b :
  (a <= dim)%nat -> (b <= dim)%nat ->
  unit_row dim b !! a = Some (if decide (a = b) then 1 else 0).
Proof.
  intros Ha Hb. unfold unit_row.
  destruct (lt_eq_lt_dec a b) as [[Hlt| ->]|Hgt].
  - rewrite lookup_app_l by (rewrite length_replicate; lia).
    rewrite lookup_replicate_2 by lia.
    destruct (decide _); [lia|reflexivity].
  - rewrite lookup_app_r by (rewrite length_replicate; lia).
    rewrite length_replicate, Nat.sub_diag.
    destruct (decide _); [reflexivity|congruence].
  - rewrite lookup_app_r by (rewrite length_replicate; lia).
    rewrite length_replicate.
    replace (a - b)%nat with (S (a - b - 1)) by lia.
    change (([1] ++ replicate (dim - b) 0) !! S (a - b - 1))
      with (replicate (dim - b) 0 !! (a - b - 1)%nat).
    rewrite lookup_replicate_2 by lia.
    destruct (decide _); [lia|reflexivity].
Qed.

(** X4.  The shape functions of degree [1 <= p <= 20] are the nodal basis of
    the lattice points [alpha / p]: at the point of the row [b] of the
    multi-index matrix the shape function of the row [a] has the value 1
    when [a = b] and 0 otherwise. *)
Theorem lagrange_nodal_basis (p dim a b : nat) (alpha beta : list Z) :
  (1 <= p <= 20)%nat ->
  multi_index_matrix p dim !! b = Some alpha ->
  multi_index_matrix p dim !! a = Some beta ->
  exists phi v,
    simplex_shape_function (map (fun z => inject_Z z / nq p)%Q alpha) p
    = Ok (map Some phi)
    /\ phi !! a = Some v
    /\ (v == if decide (a = b) then 1 else 0)%Q.
Proof.
  intros Hp Hb Ha.
  assert (Hp31 : Z.of_nat p < 2 ^ 31) by (apply small_degree; lia).
  pose proof Hb as Hb'. pose proof Ha as Ha'.
  rewrite multi_index_matrix_unwrapped in Hb', Ha' by exact Hp31.
  pose proof (rows_of_separators_spec p dim alpha
                (proj1 (list_elem_of_In _ _) (list_elem_of_lookup_2 _ _ _ Hb')))
    as (Hla & Hna & Hsa).
  pose proof (rows_of_separators_spec p dim beta
                (proj1 (list_elem_of_In _ _) (list_elem_of_lookup_2 _ _ _ Ha')))
    as (Hlb & Hnb & Hsb).
  destruct (Nat.eq_dec p 1%nat) as [->|Hp1].
  { rewrite rows_of_separators_1 in Hb', Ha'.
    rewrite list_lookup_fmap in Hb', Ha'.
    destruct (seq 0 (S dim) !! b) as [b'|] eqn:Eb; [|discriminate].
    destruct (seq 0 (S dim) !! a) as [a'|] eqn:Ea; [|discriminate].
    apply lookup_seq in Eb as [-> Hbd]. apply lookup_seq in Ea as [-> Had].
    cbn [Nat.add] in *. injection Hb' as <-.
    exists (map (fun z => inject_Z z / nq 1)%Q (unit_row dim b)),
           (inject_Z (if decide (a = b) then 1 else 0) / nq 1)%Q.
    split; [reflexivity|]. split.
    - rewrite list_lookup_fmap, unit_row_lookup by lia. reflexivity.
    - destruct (decide (a = b)); reflexivity. }
  destruct alpha as [|x0 rest]; [discriminate|].
  assert (Hrest : length rest = dim) by (cbn [length] in Hla; lia).
  set (bc := map (fun z => inject_Z z / nq p)%Q (x0 :: rest)).
  exists (map (fun gamma =>
                 foldl Qmult 1%Q
                   (zip_with (fun a y => tabA p (Z.to_nat a) y) gamma bc))
              (multi_index_matrix p dim)),
         (foldl Qmult 1%Q (zip_with (fun a y => tabA p (Z.to_nat a) y) beta bc)).
  split; [|split].
  - unfold bc. cbn [map].
    rewrite simplex_shape_function_values by lia.
    rewrite length_map, Hrest. reflexivity.
  - rewrite list_lookup_fmap, Ha. reflexivity.
  - rewrite (foldl_Qmult_prod_at (tabA p) beta bc 1).
    assert (E : Forall2 (fun u u' => forall k : nat, (u k == u' k)%Q)
                  (map (fun y k => tabA p k y) bc)
                  (map (fun z => bq (inject_Z z)) (x0 :: rest))).
    { unfold bc. rewrite map_map. apply Forall2_fmap, Forall_Forall2_diag.
      apply Forall_forall. intros z _ k. rewrite tabA_bq. apply bq_ext.
      field. intros H. apply (nq_S_nonzero (p - 1)).
      replace (S (p - 1)) with p by lia. exact H. }
    assert (Eprod : forall us us' (gamma : list Z),
               Forall2 (fun u u' => forall k : nat, (u k == u' k)%Q) us us' ->
               (prod_at us gamma == prod_at us' gamma)%Q).
    { intros us us' gamma H. revert gamma.
      induction H as [|u u' us us' Hu _ IH]; intros [|g gamma];
        cbn [prod_at]; try reflexivity.
      rewrite Hu, IH. reflexivity. }
    rewrite (Eprod _ _ beta E), prod_at_binomials by (assumption || lia).
    pose proof (sorted_NoDup (flip lex_lt) _ lex_lt_irrefl
                  (rows_of_separators_sorted p dim)) as Hnd.
    destruct (decide (x0 :: rest = beta)) as [<-|Hne];
      destruct (decide (a = b)) as [->|Hab]; try ring.
    + exfalso. apply Hab. exact (NoDup_lookup _ _ _ _ Hnd Ha' Hb').
    + exfalso. apply Hne. congruence.
Qed.

Lemma lagrange_nodal_basis_witness :
  exists phi v,
    simplex_shape_function (map (fun z => inject_Z z / nq 2)%Q [1; 1; 0]) 2
    = Ok (map Some phi)
    /\ phi !! 0%nat = Some v
    /\ (v == if decide (0%nat = 1%nat) then 1 else 0)%Q.
Proof.
  apply (lagrange_nodal_basis 2 2 0 1 [1; 1; 0] [2; 0; 0]);
    [lia | reflexivity | reflexivity].
Defined.

End NodalBasis.

(** ** Sparse products in COO and CSR form *)

Module SparseProducts.
Export MatrixDefs.
Import QSum Sparse SparseFacts.

Lemma row_dot_snoc x L c v y :
  row_dot x (L ++ [(c, v)]) y
  = (row_dot x L y + v * default 0 (x !! Z.to_nat c))%Q.
Proof. unfold row_dot. rewrite foldl_app. reflexivity. Qed.

Lemma row_entries_snoc E r c v i :
  row_entries (E ++ [(r, c, v)]) i
  = row_entries E i ++ (if r =? Z.of_nat i then [(c, v)] else []).
Proof.
  rewrite row_entries_app. f_equal. unfold row_entries. cbn [omap list_omap].
  destruct (r =? Z.of_nat i); reflexivity.
Qed.

Lemma map_const_replicate {A} (a : A) n s :
  map (fun _ : nat => a) (seq s n) = replicate n a.
Proof.
  revert s. induction n as [|n IH]; intros s; [reflexivity|].
  cbn. f_equal. apply IH.
Qed.

(** The loop of [coo_matvec] adds the terms of every row in the order of
    the input. *)
Lemma coo_matvec_correct (M : nat) (Ai Aj : list Z) (Ax x : list Q) :
  length Ai = length Ax -> length Aj = length Ax ->
  Forall (fun r => 0 <= r < Z.of_nat M) Ai ->
  Forall (fun c => 0 <= c < Z.of_nat (length x)) Aj ->
  coo_matvec (length Ax) Ai Aj Ax x (replicate M 0%Q)
  = Some (map (fun i => row_dot x (row_entries (entries Ai Aj Ax) i) 0)
              (seq 0 M)).
Proof.
  intros Hi Hj Hr Hc. set (E := entries Ai Aj Ax).
  assert (HlenE : length E = length Ax) by (apply entries_length; assumption).
  unfold coo_matvec.
  match goal with |- for_each ?body _ _ = _ =>
    destruct (for_each_invariant body
                (fun n Y => Y = map (fun i => row_dot x (row_entries (take n E) i) 0)
                                    (seq 0 M))
                (seq 0 (length Ax)) (replicate M 0%Q)) as (Y & -> & HY)
  end.
  - cbn [take]. symmetry. apply (map_const_replicate 0%Q M 0).
  - intros k n Y Hk ->. apply lookup_seq_Some in Hk as [-> Hk].
    destruct (entry_at M Ai Aj Ax Hi Hj Hr k Hk) as (r & c & v & He & Hr' & Hc' & Hv & Hrb).
    pose proof (proj1 (Forall_lookup _ _) Hc k c Hc') as Hcb. cbv beta in Hcb.
    destruct (lookup_lt_is_Some_2 x (Z.to_nat c) ltac:(lia)) as [xv Hxv].
    rewrite Hr', Hc', Hv. cbn [mbind option_bind].
    rewrite (zget_Z x c) by lia. rewrite Hxv. cbn [mbind option_bind].
    rewrite zget_Z by lia.
    rewrite list_lookup_fmap, lookup_seq_lt by lia.
    cbn [fmap option_fmap option_map Nat.add mbind option_bind].
    rewrite zset_Z by (rewrite ?length_map, ?length_seq; lia).
    eexists. split; [reflexivity|].
    apply list_eq. intros i.
    destruct (decide (i < M)%nat) as [Hi'|Hi'].
    2:{ rewrite !lookup_ge_None_2;
          rewrite ?length_insert, ?length_map, ?length_seq; try reflexivity; lia. }
    fold E in He. rewrite (take_S_r _ _ _ He).
    rewrite (list_lookup_fmap _ (seq 0 M) i), lookup_seq_lt by lia.
    cbn [fmap option_fmap option_map Nat.add].
    rewrite row_entries_snoc.
    destruct (decide (i = Z.to_nat r)) as [->|Hne].
    + rewrite list_lookup_insert_eq by (rewrite length_map, length_seq; lia).
      rewrite Z2Nat.id, Z.eqb_refl by lia.
      rewrite row_dot_snoc, Hxv. reflexivity.
    + rewrite list_lookup_insert_ne by congruence.
      rewrite list_lookup_fmap, lookup_seq_lt by lia.
      destruct (Z.eqb_spec r (Z.of_nat i)); [lia|].
      rewrite app_nil_r. reflexivity.
  - rewrite length_seq in HY. rewrite HY. f_equal.
    rewrite take_ge by (rewrite HlenE; lia). reflexivity.
Qed.

(** X5.  [coo_spmm] with a vector returns the product of the materialised dense
    matrix, in which duplicates add up, with the vector; the entries need
    not be sorted. *)
Theorem coo_spmm_dense (M N : nat) (Ai Aj : list Z) (Ax x : list Q) :
  length Ai = length Ax -> length Aj = length Ax ->
  Forall (fun r => 0 <= r < Z.of_nat M) Ai ->
  Forall (fun c => 0 <= c < Z.of_nat N) Aj ->
  length x = N ->
  exists y,
    coo_spmm (Ai, Aj) (mk_ndarray [length Ax] Ax) (M, N) (mk_ndarray [N] x)
    = Ok (mk_ndarray [M] y)
    /\ Forall2 Qeq y (dense_matvec (coo_todense (M, N) Ai Aj Ax) x).
Proof.
  intros Hi Hj Hr Hc Hx. subst N.
  pose proof (entries_bounds Ai Aj Ax M (length x) Hr Hc) as HE.
  eexists. split.
  - unfold coo_spmm, ndim.
    cbn [Sparse.shape Sparse.data last length Nat.eqb fst].
    rewrite (coo_matvec_correct M Ai Aj Ax x Hi Hj Hr Hc). reflexivity.
  - unfold dense_matvec, coo_todense. rewrite map_map.
    apply Forall2_fmap, Forall_Forall2_diag, Forall_forall. intros i _.
    apply (dense_row M (length x) x eq_refl _ i HE).
Qed.

Lemma coo_spmm_dense_witness :
  exists y,
    coo_spmm ([1; 0; 1; 0; 1], [0; 1; 0; 1; 2])
             (mk_ndarray [length [1; 2; 3; 4; 5]%Q] [1; 2; 3; 4; 5]%Q)
             (2, 3)%nat (mk_ndarray [3%nat] [1; 10; 100]%Q)
    = Ok (mk_ndarray [2%nat] y)
    /\ Forall2 Qeq y
         (dense_matvec
            (coo_todense (2, 3)%nat [1; 0; 1; 0; 1] [0; 1; 0; 1; 2]
                         [1; 2; 3; 4; 5]%Q)
            [1; 10; 100]%Q).
Proof.
  apply (coo_spmm_dense 2 3 [1; 0; 1; 0; 1] [0; 1; 0; 1; 2]
           [1; 2; 3; 4; 5]%Q [1; 10; 100]%Q);
    try reflexivity; repeat constructor; lia.
Defined.

(** X6.  The two routes to a sparse product agree: [coo_spmm] on a COO matrix
    and [csr_spmm] on its conversion by [coo_tocsr] return the same
    vector, the additions being made in the same order. *)
Theorem coo_and_csr_products_agree junk (M N : nat) (Ai Aj : list Z)
  (Ax x : list Q) :
  length Ai = length Ax -> length Aj = length Ax ->
  Forall (fun r => 0 <= r < Z.of_nat M) Ai ->
  Forall (fun c => 0 <= c < Z.of_nat N) Aj ->
  length x = N ->
  exists crow col data y,
    coo_tocsr junk (Ai, Aj) Ax (M, N) = Ok (crow, col, data)
    /\ csr_spmm crow col (mk_ndarray [length data] data) (M, N) (mk_ndarray [N] x)
       = Ok y
    /\ coo_spmm (Ai, Aj) (mk_ndarray [length Ax] Ax) (M, N) (mk_ndarray [N] x)
       = Ok y.
Proof.
  intros Hi Hj Hr Hc Hx.
  pose proof (entries_bounds Ai Aj Ax M N Hr Hc) as HE.
  pose proof (coo_tocsr_correct junk M N Ai Aj Ax Hi Hj Hr) as Hconv.
  pose proof (csr_matvec_correct M N (entries Ai Aj Ax) x HE Hx) as Hmv.
  destruct (csr_of_coo M (entries Ai Aj Ax)) as [[crow col] data].
  exists crow, col, data. eexists. split; [exact Hconv|]. split.
  - unfold csr_spmm, ndim. cbn [Sparse.shape Sparse.data length Nat.eqb].
    rewrite Hmv. reflexivity.
  - subst N. unfold coo_spmm, ndim.
    cbn [Sparse.shape Sparse.data last length Nat.eqb fst].
    rewrite (coo_matvec_correct M Ai Aj Ax x Hi Hj Hr Hc). reflexivity.
Qed.

Lemma coo_and_csr_products_agree_witness :
  exists crow col data y,
    coo_tocsr (7, 9%Q) ([1; 0; 1; 0; 1], [0; 1; 0; 1; 2]) [1; 2; 3; 4; 5]%Q
              (2, 3)%nat = Ok (crow, col, data)
    /\ csr_spmm crow col (mk_ndarray [length data] data) (2, 3)%nat
                (mk_ndarray [3%nat] [1; 10; 100]%Q) = Ok y
    /\ coo_spmm ([1; 0; 1; 0; 1], [0; 1; 0; 1; 2])
                (mk_ndarray [length [1; 2; 3; 4; 5]%Q] [1; 2; 3; 4; 5]%Q)
                (2, 3)%nat (mk_ndarray [3%nat] [1; 10; 100]%Q) = Ok y.
Proof.
  apply (coo_and_csr_products_agree (7, 9%Q) 2 3 [1; 0; 1; 0; 1]
           [0; 1; 0; 1; 2] [1; 2; 3; 4; 5]%Q [1; 10; 100]%Q);
    try reflexivity; repeat constructor; lia.
Defined.

(** *** Dense operands of rank 2 *)

Section Matrix.

Variables (M N K : nat) (X : list Q).
Hypothesis HX : length X = (N * K)%nat.

Lemma holds_ext Y F G :
  holds M K Y F -> (forall r k, (r < M)%nat -> (k < K)%nat -> F r k = G r k) ->
  holds M K Y G.
Proof.
  intros [Hl HF] HG. split; [exact Hl|].
  intros r k Hr Hk. rewrite <- HG by assumption. apply HF; assumption.
Qed.

Lemma holds_insert Y F r k v :
  holds M K Y F -> (r < M)%nat -> (k < K)%nat ->
  holds M K (<[(r * K + k)%nat := v]> Y)
        (fun r' k' => if ((r' =? r) && (k' =? k))%nat then v else F r' k').
Proof.
  intros [Hl HF] Hr Hk. split; [rewrite length_insert; exact Hl|].
  intros r' k' Hr' Hk'.
  destruct (Nat.eqb_spec r' r) as [->|Hne]; cbn [andb].
  - destruct (Nat.eqb_spec k' k) as [->|Hne].
    + apply list_lookup_insert_eq. rewrite Hl. nia.
    + rewrite list_lookup_insert_ne by lia. apply HF; assumption.
  - rewrite list_lookup_insert_ne by nia. apply HF; assumption.
Qed.

Lemma holds_unique Y Y' F : holds M K Y F -> holds M K Y' F -> Y = Y'.
Proof.
  intros [Hl HF] [Hl' HF']. apply list_eq. intros n.
  destruct (decide (n < M * K)%nat) as [Hn|Hn].
  - assert (HK : (0 < K)%nat) by nia.
    pose proof (Nat.div_mod_eq n K) as Hd.
    pose proof (Nat.mod_upper_bound n K ltac:(lia)) as Hm.
    assert (Hq : (n / K < M)%nat) by (apply Nat.Div0.div_lt_upper_bound; lia).
    replace n with (n / K * K + n mod K)%nat by lia.
    rewrite HF, HF' by assumption. reflexivity.
  - rewrite !lookup_ge_None_2 by lia. reflexivity.
Qed.

Lemma block_snoc L c v k :
  block K X (L ++ [(c, v)]) k
  = (block K X L k + v * default 0 (X !! (Z.to_nat c * K + k)%nat))%Q.
Proof. unfold block. rewrite foldl_app. reflexivity. Qed.

Lemma omap_total {A B} (f : A -> option B) (g : A -> B) (l : list A) :
  (forall a, In a l -> f a = Some (g a)) -> omap f l = map g l.
Proof.
  induction l as [|a l IH]; intros H; [reflexivity|].
  cbn [omap list_omap map]. rewrite (H a) by (left; reflexivity).
  cbn [fmap option_fmap option_map]. f_equal.
  apply IH. intros a' Ha'. apply H. right. exact Ha'.
Qed.

Lemma column_eq k :
  (k < K)%nat ->
  column K X k = map (fun r => default 0%Q (X !! (r * K + k)%nat)) (seq 0 N).
Proof.
  intros Hk. unfold column. rewrite HX, Nat.div_mul by lia.
  apply omap_total. intros r Hr. apply in_seq in Hr.
  destruct (lookup_lt_is_Some_2 X (r * K + k)) as [x Hx]; [rewrite HX; nia|].
  rewrite Hx. reflexivity.
Qed.

Lemma column_lookup k j :
  (k < K)%nat -> (j < N)%nat ->
  column K X k !! j = X !! (j * K + k)%nat.
Proof.
  intros Hk Hj. rewrite column_eq, list_lookup_fmap, lookup_seq_lt by lia.
  cbn [fmap option_fmap option_map Nat.add].
  destruct (lookup_lt_is_Some_2 X (j * K + k)) as [x Hx]; [rewrite HX; nia|].
  rewrite Hx. reflexivity.
Qed.

Lemma column_length k : (k < K)%nat -> length (column K X k) = N.
Proof. intros Hk. rewrite column_eq, length_map, length_seq by lia. reflexivity. Qed.

Lemma block_row_dot L k :
  (k < K)%nat -> Forall (fun '(c, _) => 0 <= c < Z.of_nat N) L ->
  block K X L k = row_dot (column K X k) L 0.
Proof.
  intros Hk HL. unfold block, row_dot.
  assert (G : forall y,
             foldl (fun s '(c, v) =>
                      s + v * default 0 (X !! (Z.to_nat c * K + k)%nat))%Q y L
             = foldl (fun s '(c, v) =>
                        s + v * default 0 (column K X k !! Z.to_nat c))%Q y L).
  { induction HL as [|[c v] L Hc _ IH]; intros y; [reflexivity|].
    cbn [foldl]. rewrite column_lookup by lia. apply IH. }
  apply G.
Qed.

Lemma holds_zeros : holds M K (replicate (M * K) 0%Q) (fun _ _ => 0%Q).
Proof.
  split; [apply length_replicate|]. intros r k Hr Hk.
  apply lookup_replicate_2. nia.
Qed.

(** The three nested loops of [csr_matvecs] on the conversion of a COO
    matrix. *)
Lemma csr_matvecs_correct (E : list (Z * Z * Q)) :
  Forall (fun '(r, c, _) => 0 <= r < Z.of_nat M /\ 0 <= c < Z.of_nat N) E ->
  let '(crow, col, data) := csr_of_coo M E in
  exists Y,
    csr_matvecs M N K crow col data X (replicate (M * K) 0%Q) = Some Y
    /\ holds M K Y (fun r k => block K X (row_entries E r) k).
Proof.
  intros HE. unfold csr_of_coo.
  set (sorted := concat (map (row_entries E) (seq 0 M))).
  set (crow := map (fun i => Z.of_nat (row_start E i)) (seq 0 (S M))).
  assert (Hcrow : forall i, (i < S M)%nat ->
                            crow !! i = Some (Z.of_nat (row_start E i))).
  { intros i Hi. unfold crow. rewrite list_lookup_fmap, lookup_seq_lt by lia.
    reflexivity. }
  unfold csr_matvecs.
  match goal with |- exists Y, for_each ?body _ _ = _ /\ _ =>
    destruct (for_each_invariant body
                (fun i Y => holds M K Y (fun r k =>
                   if (r <? i)%nat then block K X (row_entries E r) k else 0%Q))
                (seq 0 M) (replicate (M * K) 0%Q)) as (Y & HY & HI)
  end.
  - exact holds_zeros.
  - intros n i Y Hn HIi. apply lookup_seq_Some in Hn as [-> Hn].
    rewrite !Hcrow by lia. cbn [mbind option_bind].
    replace (Z.of_nat (row_start E (S n)) - Z.of_nat (row_start E n))
      with (Z.of_nat (length (row_entries E n)))
      by (rewrite row_start_S; lia).
    set (L := row_entries E n).
    match goal with |- exists s', for_each ?body _ _ = _ /\ _ =>
      destruct (for_each_invariant body
                  (fun m Y => holds M K Y (fun r k =>
                     if (r <? n)%nat then block K X (row_entries E r) k
                     else if (r =? n)%nat then block K X (take m L) k else 0%Q))
                  (seqZ (Z.of_nat (row_start E n)) (Z.of_nat (length L))) Y)
        as (Y1 & HY1 & HI1)
    end.
    + apply (holds_ext _ _ _ HIi). intros r k _ _.
      destruct (r <? n)%nat; [reflexivity|]. destruct (r =? n)%nat; reflexivity.
    + intros m jj Y0 Hm HIm. apply lookup_seqZ_Some in Hm as [-> Hm].
      destruct (lookup_lt_is_Some_2 L m ltac:(lia)) as [[c v] Hcv].
      pose proof (concat_rows_lookup E M n m (c, v) Hn Hcv) as Hs.
      fold sorted in Hs.
      assert (Hcb : 0 <= c < Z.of_nat N).
      { pose proof Hcv as Hcv'. apply row_entries_index in Hcv' as (e & He & _).
        rewrite Forall_lookup in HE. specialize (HE e _ He). cbn in HE. lia. }
      replace (Z.of_nat (row_start E n) + Z.of_nat m)
        with (Z.of_nat (row_start E n + m)) by lia.
      rewrite !zget_nat, !list_lookup_fmap, Hs. cbn [fmap option_fmap option_map
        mbind option_bind fst snd].
      match goal with |- exists s', for_each ?body _ _ = _ /\ _ =>
        destruct (for_each_invariant body
                    (fun k' Y => holds M K Y (fun r k =>
                       if (r <? n)%nat then block K X (row_entries E r) k
                       else if (r =? n)%nat
                            then (if (k <? k')%nat then block K X (take (S m) L) k
                                  else block K X (take m L) k)
                            else 0%Q))
                    (seq 0 K) Y0) as (Y2 & HY2 & HI2)
      end.
      * apply (holds_ext _ _ _ HIm). intros r k _ _. reflexivity.
      * intros k' k Y3 Hk HIk. apply lookup_seq_Some in Hk as [-> Hk].
        destruct (lookup_lt_is_Some_2 X (Z.to_nat c * K + k')) as [x Hx];
          [rewrite HX; nia|].
        replace (Z.of_nat K * c + Z.of_nat k')
          with (Z.of_nat (Z.to_nat c * K + k')) by nia.
        replace (Z.of_nat K * Z.of_nat n + Z.of_nat k')
          with (Z.of_nat (n * K + k')) by nia.
        rewrite !zget_nat, Hx. cbn [mbind option_bind].
        destruct HIk as [Hl3 HF3]. rewrite (HF3 n k' Hn Hk).
        rewrite !Nat.ltb_irrefl, Nat.eqb_refl. cbn [mbind option_bind].
        rewrite zset_nat by (rewrite Hl3; nia).
        eexists. split; [reflexivity|].
        apply (holds_ext _ _ _ (holds_insert _ _ n k' _ (conj Hl3 HF3) Hn Hk)).
        intros r k Hr Hk2.
        destruct (Nat.eqb_spec r n) as [->|Hne]; cbn [andb].
        -- destruct (Nat.ltb_spec n n); [lia|].
           destruct (Nat.eqb_spec k k') as [->|Hne].
           ++ destruct (Nat.ltb_spec k' (S k')); [|lia].
              rewrite (take_S_r _ _ _ Hcv), block_snoc, Hx. reflexivity.
           ++ destruct (Nat.ltb_spec k k'), (Nat.ltb_spec k (S k'));
                try reflexivity; lia.
        -- reflexivity.
      * rewrite length_seq in HI2. exists Y2. split; [exact HY2|].
        apply (holds_ext _ _ _ HI2). intros r k Hr Hk.
        destruct (Nat.ltb_spec k K); [reflexivity|lia].
    + rewrite length_seqZ in HI1. exists Y1. split; [exact HY1|].
      apply (holds_ext _ _ _ HI1). intros r k Hr Hk.
      rewrite Nat2Z.id, take_ge by lia.
      destruct (Nat.ltb_spec r n), (Nat.ltb_spec r (S n)); try lia; try reflexivity.
      * destruct (Nat.eqb_spec r n) as [->|]; [reflexivity|lia].
      * destruct (Nat.eqb_spec r n); [lia|reflexivity].
  - rewrite length_seq in HI. exists Y. split; [exact HY|].
    apply (holds_ext _ _ _ HI). intros r k Hr Hk.
    destruct (Nat.ltb_spec r M); [reflexivity|lia].
Qed.

End Matrix.

Lemma concat_blocks (g : nat -> nat -> Q) (K M : nat) :
  holds M K (concat (map (fun r => map (g r) (seq 0 K)) (seq 0 M))) g.
Proof.
  induction M as [|M [IHl IH]].
  - split; [reflexivity|]. intros r k Hr. lia.
  - rewrite seq_S, map_app, concat_app. cbn [map concat Nat.add].
    rewrite app_nil_r. split.
    + rewrite length_app, IHl, length_map, length_seq. lia.
    + intros r k Hr Hk. destruct (decide (r = M)) as [->|Hne].
      * rewrite lookup_app_r by (rewrite IHl; lia).
        rewrite IHl. replace (M * K + k - M * K)%nat with k by lia.
        rewrite list_lookup_fmap, lookup_seq_lt by lia. reflexivity.
      * apply lookup_app_l_Some, IH; lia.
Qed.

Lemma of_columns_blocks (g : nat -> nat -> Q) (K M : nat) :
  holds M K
    (of_columns M (map (fun k => map (fun i => g i k) (seq 0 M)) (seq 0 K))) g.
Proof.
  unfold of_columns.
  replace (map (fun r => omap (fun c : list Q => c !! r)
                           (map (fun k => map (fun i => g i k) (seq 0 M)) (seq 0 K)))
               (seq 0 M))
    with (map (fun r => map (g r) (seq 0 K)) (seq 0 M)).
  { apply concat_blocks. }
  apply map_ext_in. intros r Hr. apply in_seq in Hr. symmetry.
  rewrite (omap_total _ (fun c : list Q => default 0%Q (c !! r))).
  - rewrite map_map. apply map_ext. intros k.
    rewrite list_lookup_fmap, lookup_seq_lt by lia. reflexivity.
  - intros c Hc. apply in_map_iff in Hc as (k & <- & _).
    rewrite list_lookup_fmap, lookup_seq_lt by lia. reflexivity.
Qed.

Lemma row_entries_columns (E : list (Z * Z * Q)) (M N i : nat) :
  Forall (fun '(r, c, _) => 0 <= r < Z.of_nat M /\ 0 <= c < Z.of_nat N) E ->
  Forall (fun '(c, _) => 0 <= c < Z.of_nat N) (row_entries E i).
Proof.
  intros HE. apply Forall_lookup. intros m [c v] Hm.
  apply row_entries_index in Hm as (e & He & _).
  rewrite Forall_lookup in HE. specialize (HE e _ He). cbn in HE. lia.
Qed.

(** X7.  A dense operand of rank 2: [coo_spmm], which multiplies column by
    column, and [csr_spmm] on the conversion by [coo_tocsr], which runs
    [csr_matvecs], return the same array of shape [(M, K)], and its entry
    [(i, k)] is the product of row [i] of the materialised dense matrix
    with column [k] of the operand. *)
Theorem spmm_matrix_operand junk (M N K : nat) (Ai Aj : list Z)
  (Ax X : list Q) :
  length Ai = length Ax -> length Aj = length Ax ->
  Forall (fun r => 0 <= r < Z.of_nat M) Ai ->
  Forall (fun c => 0 <= c < Z.of_nat N) Aj ->
  length X = (N * K)%nat ->
  exists crow col data Y,
    coo_tocsr junk (Ai, Aj) Ax (M, N) = Ok (crow, col, data)
    /\ coo_spmm (Ai, Aj) (mk_ndarray [length Ax] Ax) (M, N) (mk_ndarray [N; K] X)
       = Ok (mk_ndarray [M; K] Y)
    /\ csr_spmm crow col (mk_ndarray [length data] data) (M, N)
                (mk_ndarray [N; K] X)
       = Ok (mk_ndarray [M; K] Y)
    /\ length Y = (M * K)%nat
    /\ forall i k, (i < M)%nat -> (k < K)%nat ->
         exists y d,
           Y !! (i * K + k)%nat = Some y
           /\ dense_matvec (coo_todense (M, N) Ai Aj Ax) (column K X k) !! i
              = Some d
           /\ (y == d)%Q.
Proof.
  intros Hi Hj Hr Hc HX.
  pose proof (entries_bounds Ai Aj Ax M N Hr Hc) as HE.
  pose proof (coo_tocsr_correct junk M N Ai Aj Ax Hi Hj Hr) as Hconv.
  pose proof (csr_matvecs_correct M N K X HX (entries Ai Aj Ax) HE) as Hmv.
  set (E := entries Ai Aj Ax) in *.
  destruct (csr_of_coo M E) as [[crow col] data].
  destruct Hmv as (Y & Hcsr & HY).
  assert (Hcoo : coo_spmm (Ai, Aj) (mk_ndarray [length Ax] Ax) (M, N)
                   (mk_ndarray [N; K] X) = Ok (mk_ndarray [M; K] Y)).
  { unfold coo_spmm, ndim.
    cbn [Sparse.shape Sparse.data last length Nat.eqb fst default].
    change (id K) with K.
    rewrite (ShapeSums.traverse_ok _
               (fun k => map (fun i => row_dot (column K X k) (row_entries E i) 0)
                             (seq 0 M))).
    - cbn [bind]. do 2 f_equal. apply (holds_unique M N K X HX _ _ _ (of_columns_blocks
        (fun i k => row_dot (column K X k) (row_entries E i) 0) K M)).
      apply (holds_ext M K _ _ _ HY). intros r k _ Hk.
      apply (block_row_dot N K X HX _ k Hk).
      apply (row_entries_columns E M N r HE).
    - intros k Hk. apply in_seq in Hk. cbv beta. change (id K) with K.
      rewrite (coo_matvec_correct M Ai Aj Ax (column K X k) Hi Hj Hr).
      + reflexivity.
      + rewrite (column_length N K X HX k) by lia. exact Hc. }
  exists crow, col, data, Y. split; [exact Hconv|]. split; [exact Hcoo|].
  split.
  { unfold csr_spmm, ndim.
    cbn [Sparse.shape Sparse.data last length Nat.eqb default].
    change (id K) with K. rewrite Hcsr. reflexivity. }
  split; [exact (proj1 HY)|].
  intros i k Hik Hk. destruct HY as [_ HY]. eexists _, _.
  split; [apply HY; assumption|]. split.
  - unfold dense_matvec, coo_todense. cbn [fst snd].
    rewrite map_map, list_lookup_fmap.
    rewrite lookup_seq_lt by lia. reflexivity.
  - cbn [Nat.add]. rewrite (block_row_dot N K X HX _ k Hk).
    + apply (dense_row M N (column K X k) (column_length N K X HX k Hk) E i HE).
    + apply (row_entries_columns E M N i HE).
Qed.

Lemma spmm_matrix_operand_witness :
  exists crow col data Y,
    coo_tocsr (7, 9%Q) ([1; 0; 1], [0; 1; 0]) [1; 2; 3]%Q (2, 2)%nat
    = Ok (crow, col, data)
    /\ coo_spmm ([1; 0; 1], [0; 1; 0])
                (mk_ndarray [length [1; 2; 3]%Q] [1; 2; 3]%Q) (2, 2)%nat
                (mk_ndarray [2; 3]%nat [1; 2; 3; 4; 5; 6]%Q)
       = Ok (mk_ndarray [2; 3]%nat Y)
    /\ csr_spmm crow col (mk_ndarray [length data] data) (2, 2)%nat
                (mk_ndarray [2; 3]%nat [1; 2; 3; 4; 5; 6]%Q)
       = Ok (mk_ndarray [2; 3]%nat Y)
    /\ length Y = (2 * 3)%nat
    /\ forall i k, (i < 2)%nat -> (k < 3)%nat ->
         exists y d,
           Y !! (i * 3 + k)%nat = Some y
           /\ dense_matvec (coo_todense (2, 2)%nat [1; 0; 1] [0; 1; 0] [1; 2; 3]%Q)
                           (column 3 [1; 2; 3; 4; 5; 6]%Q k) !! i
              = Some d
           /\ (y == d)%Q.
Proof.
  apply (spmm_matrix_operand (7, 9%Q) 2 2 3 [1; 0; 1] [0; 1; 0] [1; 2; 3]%Q
           [1; 2; 3; 4; 5; 6]%Q);
    try reflexivity; repeat constructor; lia.
Defined.

End SparseProducts.

(** ** Gradients of the barycentric coordinates *)

Module GradientFacts.
Export GradientDefs.
Import QSum Geometry Gradients.

Ltac split_rows :=
  repeat lazymatch goal with
         | |- Forall2 _ [] [] => apply List.Forall2_nil
         | |- Forall2 _ (_ :: _) (_ :: _) => apply List.Forall2_cons
         end.

(** X8.  In exact arithmetic, that is when the value the determinant routine
    returns for the edge matrix is twice the signed area of the triangle,
    and on a triangle of non-zero area, [triangle_grad_lambda_2d] returns
    the gradients of the barycentric coordinates: the affine function
    with gradient row [i] and value 1 at vertex [i] vanishes at the two
    other vertices. *)
Theorem triangle_grad_lambda_2d_dual (linalg_det : list (list Q) -> Q)
  tri node (x0 y0 x1 y1 x2 y2 : Q) :
  traverse (getitem node) tri = Ok [[x0; y0]; [x1; y1]; [x2; y2]] ->
  (linalg_det [[x2 - x1; y2 - y1]; [x0 - x2; y0 - y2]]
   == (x1 - x0) * (y2 - y0) - (x2 - x0) * (y1 - y0))%Q ->
  ~ ((x1 - x0) * (y2 - y0) - (x2 - x0) * (y1 - y0) == 0)%Q ->
  exists g0 g1 g2,
    triangle_grad_lambda_2d linalg_det tri node
    = Ok (map (map Some) [g0; g1; g2])
    /\ Forall2 (Forall2 Qeq)
         (map (fun '(g, p) =>
                 map (affine g p) [[x0; y0]; [x1; y1]; [x2; y2]])
              [(g0, [x0; y0]); (g1, [x1; y1]); (g2, [x2; y2])])
         identity3.
Proof.
  intros Hpts Env Harea. unfold triangle_grad_lambda_2d.
  rewrite Hpts. cbn [bind].
  change (getitem [[x0; y0]; [x1; y1]; [x2; y2]] 2) with (Ok [x2; y2]).
  change (getitem [[x0; y0]; [x1; y1]; [x2; y2]] 1) with (Ok [x1; y1]).
  change (getitem [[x0; y0]; [x1; y1]; [x2; y2]] 0) with (Ok [x0; y0]).
  cbn -[Qmult Qplus Qminus Qopp fdiv].
  set (nv := linalg_det [[x2 - x1; y2 - y1]; [x0 - x2; y0 - y2]]%Q) in *.
  assert (Hnv : ~ (nv == 0)%Q) by (rewrite Env; exact Harea).
  assert (Hdiv : forall x, fdiv x nv = Some (x / nv)%Q).
  { intros x. unfold fdiv. destruct (Qeq_bool nv 0) eqn:E; [|reflexivity].
    apply Qeq_bool_eq in E. contradiction. }
  clearbody nv. rewrite !Hdiv.
  exists [((y2 - y1) * -1 / nv)%Q; ((x2 - x1) / nv)%Q],
         [((y0 - y2) * -1 / nv)%Q; ((x0 - x2) / nv)%Q],
         [((y1 - y0) * -1 / nv)%Q; ((x1 - x0) / nv)%Q].
  split; [reflexivity|].
  unfold identity3, affine, dot, vsub. cbn -[Qmult Qplus Qminus Qopp Qdiv qsum].
  split_rows; unfold qsum; simpl foldl; rewrite Env; field; exact Harea.
Qed.

(** *** Intervals *)

Lemma square_nonneg (a : Q) : (0 <= a ^ 2)%Q.
Proof. unfold Qle. destruct a as [n d]. simpl. nia. Qed.

Lemma qsum_nonneg (l : list Q) :
  Forall (Qle 0) l -> (0 <= qsum l)%Q.
Proof.
  intros H. rewrite qsum_sumq. induction H as [|a l Ha _ IH].
  - rewrite sumq_nil. apply Qle_refl.
  - rewrite sumq_cons. unfold id at 1.
    apply (Qle_trans _ (0 + 0)); [apply Qle_refl|]. apply Qplus_le_compat; assumption.
Qed.

Lemma square_zero (a : Q) : (a ^ 2 == 0)%Q -> (a == 0)%Q.
Proof. unfold Qeq. destruct a as [n d]. simpl. nia. Qed.

(** A sum of squares vanishes only when every term does. *)
Lemma sum_squares_zero (v : list Q) :
  (qsum (map (fun a => a ^ 2) v) == 0)%Q -> Forall (fun a => a == 0)%Q v.
Proof.
  induction v as [|a v IH]; intros H; [constructor|].
  cbn [map] in H. rewrite GeometryFacts.qsum_cons in H.
  assert (Hv : (0 <= qsum (map (fun a => a ^ 2) v))%Q).
  { apply qsum_nonneg. apply Forall_forall. intros x Hx.
    apply list_elem_of_In, in_map_iff in Hx as (b & <- & _). apply square_nonneg. }
  pose proof (square_nonneg a) as Ha.
  assert (E1 : (a ^ 2 == 0)%Q).
  { apply Qle_antisym; [|exact Ha]. rewrite <- H.
    rewrite <- (Qplus_0_r (a ^ 2)) at 1. apply Qplus_le_compat; [apply Qle_refl|exact Hv]. }
  constructor; [apply square_zero, E1|].
  apply IH. rewrite E1 in H. rewrite <- H. ring.
Qed.

Lemma vsub_zero (p1 : list Q) : forall p0,
  length p0 = length p1 ->
  Forall (fun a => a == 0)%Q (vsub p1 p0) -> Forall2 Qeq p0 p1.
Proof.
  induction p1 as [|x p1 IH]; intros [|y p0] Hl H; cbn [length] in Hl; try lia.
  - constructor.
  - unfold vsub in H. cbn [zip_with] in H. apply Forall_cons in H as [Hx H].
    constructor; [|apply IH; [lia|exact H]].
    rewrite <- (Qplus_0_l y), <- Hx. ring.
Qed.

Lemma dot_scaled (h : Q) (v : list Q) :
  ~ (h == 0)%Q ->
  (dot (map (fun a => a / h) v) v == qsum (map (fun a => a ^ 2) v) / h)%Q.
Proof.
  intros Hh. unfold dot. induction v as [|a v IH].
  - cbn. field. exact Hh.
  - cbn [map zip_with]. rewrite !GeometryFacts.qsum_cons, IH. field. exact Hh.
Qed.

Lemma vsub_equal (p1 : list Q) : forall p0,
  Forall2 Qeq p0 p1 -> Forall (fun a => a == 0)%Q (vsub p1 p0).
Proof.
  intros p0 H. induction H as [|y x p0 p1 Hxy _ IH]; [constructor|].
  unfold vsub. cbn [zip_with]. constructor; [rewrite Hxy; ring|exact IH].
Qed.

Lemma fdiv_by_zero (h : Q) (l : list Q) :
  Qeq_bool h 0 = true ->
  map (fun a => fdiv a h) l = replicate (length l) None.
Proof.
  intros Hh. induction l as [|a l IH]; [reflexivity|].
  cbn [map length replicate]. unfold fdiv at 1. rewrite Hh, IH. reflexivity.
Qed.

Lemma sum_squares_of_zeros (v : list Q) :
  Forall (fun a => a == 0)%Q v -> (qsum (map (fun a => a ^ 2) v) == 0)%Q.
Proof.
  induction 1 as [|a v Ha _ IH]; [reflexivity|].
  cbn [map]. rewrite GeometryFacts.qsum_cons, IH, Ha. reflexivity.
Qed.

Lemma map_fneg_None n : map fneg (replicate n None) = replicate n None.
Proof. induction n as [|n IH]; [reflexivity|]. cbn. f_equal. exact IH. Qed.

Lemma at_least_nonzero (l a : Q) : (0 < l)%Q -> at_least l a -> ~ (a == 0)%Q.
Proof.
  intros Hl [H|H] E; rewrite E in H.
  - apply (Qlt_irrefl 0). apply Qlt_le_trans with l; [exact Hl|].
    apply Qopp_le_compat in H. rewrite Qopp_involutive in H. exact H.
  - apply (Qlt_irrefl 0). apply Qlt_le_trans with l; assumption.
Qed.

(** X9.  In exact arithmetic, on an interval whose end points differ by a
    vector with components of at most [2^500] in absolute value, one of
    them of at least [2^-500] (so that its squared length neither
    overflows nor underflows in doubles), [interval_grad_lambda] returns
    the gradients of the two barycentric coordinates, [-g] and [g], with
    [g . (p1 - p0) = 1]; when the end points coincide it raises nothing
    and no entry of the result is finite. *)
Theorem interval_grad_lambda_dual line node (p0 p1 : list Q) :
  traverse (getitem node) line = Ok [p0; p1] ->
  length p0 = length p1 ->
  (squares_in_range (vsub p1 p0) ->
   exists g,
     interval_grad_lambda line node = Ok [map Some (map Qopp g); map Some g]
     /\ (dot g (vsub p1 p0) == 1)%Q)
  /\ (Forall2 Qeq p0 p1 ->
      interval_grad_lambda line node
      = Ok [replicate (length p0) None; replicate (length p0) None]).
Proof.
  intros Hpts Hlen. unfold interval_grad_lambda. rewrite Hpts. cbn [bind].
  change (getitem [p0; p1] 1) with (Ok p1).
  change (getitem [p0; p1] 0) with (Ok p0). cbn [bind].
  set (v := vsub p1 p0). set (h2 := qsum (map (fun a => a ^ 2)%Q v)).
  split.
  - intros [_ Hex].
    assert (Hh : ~ (h2 == 0)%Q).
    { intros E. apply sum_squares_zero in E.
      apply Exists_exists in Hex as (a & Ha & Hb).
      rewrite Forall_forall in E.
      apply (at_least_nonzero _ a (eq_refl : (0 < 2 ^ (-500))%Q) Hb).
      apply E, Ha. }
    assert (Hdiv : forall x, fdiv x h2 = Some (x / h2)%Q).
    { intros x. unfold fdiv. destruct (Qeq_bool h2 0) eqn:E; [|reflexivity].
      apply Qeq_bool_eq in E. contradiction. }
    exists (map (fun a => a / h2)%Q v). split.
    + rewrite !map_map.
      rewrite (map_ext (fun x => fneg (fdiv x h2)) (fun x => Some (- (x / h2))%Q))
        by (intros a; rewrite Hdiv; reflexivity).
      rewrite (map_ext (fun x => fdiv x h2) (fun x => Some (x / h2)%Q))
        by (intros a; apply Hdiv).
      reflexivity.
    + rewrite dot_scaled by exact Hh. fold h2. field. exact Hh.
  - intros Heq.
    assert (Hh : Qeq_bool h2 0 = true).
    { apply Qeq_eq_bool, sum_squares_of_zeros, vsub_equal, Heq. }
    assert (Hlv : length v = length p0).
    { unfold v, vsub. rewrite length_zip_with. lia. }
    rewrite (fdiv_by_zero h2 v Hh), Hlv, map_fneg_None. reflexivity.
Qed.

(** *** Tetrahedra *)

Lemma cube_pos (L : Q) : (2 ^ (-300) <= L)%Q -> (0 < L ^ 3 / 2 ^ 30)%Q.
Proof.
  intros HL.
  assert (H0 : (0 < L)%Q)
    by (apply Qlt_le_trans with (2 ^ (-300))%Q; [reflexivity|exact HL]).
  apply Qlt_shift_div_l; [reflexivity|]. rewrite Qmult_0_l.
  change (L ^ 3)%Q with (L * (L * L))%Q.
  apply Qmult_lt_0_compat; [exact H0|]. apply Qmult_lt_0_compat; exact H0.
Qed.

Lemma getitem_map {A B} (f : A -> B) (l : list A) (i : Z) (x : A) :
  getitem l i = Ok x -> getitem (map f l) i = Ok (f x).
Proof.
  unfold getitem. rewrite length_map.
  destruct (_ && _); [|discriminate].
  rewrite list_lookup_fmap. destruct (l !! _); [|discriminate].
  intros H. injection H as ->. reflexivity.
Qed.

(** X10.  In exact arithmetic, with these faces and on a tetrahedron that is
    well shaped (edge components of at most [L] in absolute value with
    [2^-300 <= L <= 2^300], six times the volume of at least [L^3 / 2^30],
    so that doubles compute its determinant without overflow, underflow
    or cancellation to zero), [tetrahedron_grad_lambda_3d] returns the
    gradients of the four barycentric coordinates: the affine function
    with gradient row [i] and value 1 at vertex [i] vanishes at the three
    other vertices. *)
Theorem tetrahedron_grad_lambda_3d_dual (t0 t1 t2 t3 : Z) (node : list vec3)
  (P0 P1 P2 P3 : vec3) (L vol : Q) :
  getitem node t0 = Ok P0 -> getitem node t1 = Ok P1 ->
  getitem node t2 = Ok P2 -> getitem node t3 = Ok P3 ->
  simplex_measure [t0; t1; t2; t3] (map list3 node) = Ok vol ->
  well_shaped L vol [P0; P1; P2; P3] ->
  exists g0 g1 g2 g3,
    tetrahedron_grad_lambda_3d (t0, t1, t2, t3) node opposite_faces
    = Ok (map (map Some) [g0; g1; g2; g3])
    /\ Forall2 (Forall2 Qeq)
         (map (fun '(g, p) => map (affine g p) (map list3 [P0; P1; P2; P3]))
              [(g0, list3 P0); (g1, list3 P1); (g2, list3 P2); (g3, list3 P3)])
         identity4.
Proof.
  intros H0 H1 H2 H3 Hvol Hshape.
  assert (Hne : ~ (vol == 0)%Q).
  { destruct Hshape as ([HL _] & _ & Hbig). intros E.
    apply (at_least_nonzero _ _ (cube_pos L HL) Hbig).
    rewrite E. reflexivity. }
  clear Hshape.
  destruct P0 as [[x0 y0] z0], P1 as [[x1 y1] z1], P2 as [[x2 y2] z2],
           P3 as [[x3 y3] z3].
  assert (Evol : (vol == ((x1 - x0) * ((y2 - y0) * (z3 - z0) - (z2 - z0) * (y3 - y0))
                          - (y1 - y0) * ((x2 - x0) * (z3 - z0) - (z2 - z0) * (x3 - x0))
                          + (z1 - z0) * ((x2 - x0) * (y3 - y0) - (y2 - y0) * (x3 - x0)))
                         / 6)%Q).
  { unfold simplex_measure in Hvol. cbn [traverse] in Hvol.
    rewrite (getitem_map list3 _ _ _ H0), (getitem_map list3 _ _ _ H1),
      (getitem_map list3 _ _ _ H2), (getitem_map list3 _ _ _ H3) in Hvol.
    cbn -[Qmult Qplus Qminus Qdiv Qopp inject_Z det] in Hvol.
    injection Hvol as <-.
    cbn -[Qmult Qplus Qminus Qdiv Qopp inject_Z]. unfold qsum. simpl foldl.
    change (inject_Z _) with 6%Q. field. }
  unfold tetrahedron_grad_lambda_3d. rewrite Hvol. cbn [bind].
  assert (Hdiv : forall x, fdiv x (6 * vol) = Some (x / (6 * vol))%Q).
  { intros x. unfold fdiv. destruct (Qeq_bool (6 * vol) 0) eqn:E; [|reflexivity].
    apply Qeq_bool_eq in E. exfalso. apply Hne.
    rewrite <- (Qmult_0_r 6) in E. apply Qmult_inj_l in E; [exact E|discriminate]. }
  unfold opposite_faces, arange. cbn [seq map traverse].
  change (getitem [(1, 2, 3); (0, 3, 2); (0, 1, 3); (0, 2, 1)] (0 + Z.of_nat 0))
    with (Ok (1, 2, 3)).
  change (getitem [(1, 2, 3); (0, 3, 2); (0, 1, 3); (0, 2, 1)] (0 + Z.of_nat 1))
    with (Ok (0, 3, 2)).
  change (getitem [(1, 2, 3); (0, 3, 2); (0, 1, 3); (0, 2, 1)] (0 + Z.of_nat 2))
    with (Ok (0, 1, 3)).
  change (getitem [(1, 2, 3); (0, 3, 2); (0, 1, 3); (0, 2, 1)] (0 + Z.of_nat 3))
    with (Ok (0, 2, 1)).
  cbn [bind].
  change (getitem [t0; t1; t2; t3] 0) with (Ok t0).
  change (getitem [t0; t1; t2; t3] 1) with (Ok t1).
  change (getitem [t0; t1; t2; t3] 2) with (Ok t2).
  change (getitem [t0; t1; t2; t3] 3) with (Ok t3).
  cbn [bind]. rewrite H0, H1, H2, H3. cbn [bind sub3 cross list3 map].
  rewrite !Hdiv.
  match goal with
  | |- exists g0 g1 g2 g3,
         Ok [[Some ?a0; Some ?a1; Some ?a2]; [Some ?b0; Some ?b1; Some ?b2];
             [Some ?c0; Some ?c1; Some ?c2]; [Some ?d0; Some ?d1; Some ?d2]] = _
         /\ _ =>
      exists [a0; a1; a2], [b0; b1; b2], [c0; c1; c2], [d0; d1; d2]
  end.
  split; [reflexivity|].
  unfold identity4, affine, dot, vsub.
  cbn [map list3 zip_with]. clear Hvol Hdiv H0 H1 H2 H3.
  assert (Hne' : ~ ((x1 - x0) * ((y2 - y0) * (z3 - z0) - (z2 - z0) * (y3 - y0))
                    - (y1 - y0) * ((x2 - x0) * (z3 - z0) - (z2 - z0) * (x3 - x0))
                    + (z1 - z0) * ((x2 - x0) * (y3 - y0) - (y2 - y0) * (x3 - x0))
                    == 0)%Q).
  { intros E. apply Hne. rewrite Evol, E. reflexivity. }
  split_rows; unfold qsum; simpl foldl; rewrite Evol; field; exact Hne'.
Qed.

Lemma triangle_grad_lambda_2d_dual_witness :
  exists g0 g1 g2,
    triangle_grad_lambda_2d (det 2) [0; 1; 2] [[0; 0]; [1; 0]; [0; 1]]%Q
    = Ok (map (map Some) [g0; g1; g2])
    /\ Forall2 (Forall2 Qeq)
         (map (fun '(g, p) => map (affine g p) [[0; 0]; [1; 0]; [0; 1]]%Q)
              [(g0, [0; 0]%Q); (g1, [1; 0]%Q); (g2, [0; 1]%Q)])
         identity3.
Proof.
  apply (triangle_grad_lambda_2d_dual (det 2) [0; 1; 2]
           [[0; 0]; [1; 0]; [0; 1]]%Q 0%Q 0%Q 1%Q 0%Q 0%Q 1%Q);
    [reflexivity|reflexivity|].
  intros H. vm_compute in H. discriminate H.
Defined.

Lemma interval_grad_lambda_dual_witness :
  exists g,
    interval_grad_lambda [0; 1] [[0; 0]; [3; 4]]%Q
    = Ok [map Some (map Qopp g); map Some g]
    /\ (dot g (vsub [3; 4] [0; 0]) == 1)%Q.
Proof.
  apply (proj1 (interval_grad_lambda_dual [0; 1] [[0; 0]; [3; 4]]%Q
                  [0; 0]%Q [3; 4]%Q eq_refl eq_refl)).
  split; [repeat constructor; discriminate|].
  left. right. discriminate.
Defined.

Lemma unit_tetrahedron_well_shaped :
  well_shaped 1 (1 # 6) [(0, 0, 0); (1, 0, 0); (0, 1, 0); (0, 0, 1)]%Q.
Proof.
  split; [split; discriminate|]. split.
  - repeat constructor; discriminate.
  - right. discriminate.
Qed.

Lemma tetrahedron_grad_lambda_3d_dual_witness :
  exists g0 g1 g2 g3,
    tetrahedron_grad_lambda_3d (0, 1, 2, 3)
      [(0, 0, 0); (1, 0, 0); (0, 1, 0); (0, 0, 1)]%Q opposite_faces
    = Ok (map (map Some) [g0; g1; g2; g3])
    /\ Forall2 (Forall2 Qeq)
         (map (fun '(g, p) =>
                 map (affine g p)
                     (map list3 [(0, 0, 0); (1, 0, 0); (0, 1, 0); (0, 0, 1)]%Q))
              [(g0, list3 (0, 0, 0)%Q); (g1, list3 (1, 0, 0)%Q);
               (g2, list3 (0, 1, 0)%Q); (g3, list3 (0, 0, 1)%Q)])
         identity4.
Proof.
  apply (tetrahedron_grad_lambda_3d_dual 0 1 2 3
           [(0, 0, 0); (1, 0, 0); (0, 1, 0); (0, 0, 1)]%Q
           (0, 0, 0)%Q (1, 0, 0)%Q (0, 1, 0)%Q (0, 0, 1)%Q 1 (1 # 6)%Q);
    try reflexivity.
  apply unit_tetrahedron_well_shaped.
Defined.

End GradientFacts.

(** ** Unique values *)

Module UniqueFacts.
Import Unique.

Lemma first_index_spec (v : Z) (a : list Z) :
  v ∈ a ->
  a !! first_index v a = Some v
  /\ forall n, a !! n = Some v -> (first_index v a <= n)%nat.
Proof.
  intros Hin. unfold first_index.
  destruct (list_find (fun x => x = v) a) as [[i x]|] eqn:E.
  - apply list_find_Some in E as (Hi & -> & Hmin). split; [exact Hi|].
    intros n Hn. destruct (decide (i <= n)%nat) as [|Hlt]; [assumption|].
    exfalso. apply (Hmin n v Hn); [lia|reflexivity].
  - apply list_find_None in E. rewrite Forall_forall in E.
    exfalso. apply (E v Hin). reflexivity.
Qed.

(** The loop of the assignment: after the first [m] assignments position
    [k] holds the last [n < m] with [inverse[n] = k]. *)
Lemma assign_at_last (inverse : list nat) (x : list nat) :
  (forall n k, inverse !! n = Some k -> (k < length x)%nat) ->
  let r := assign_at x inverse (seq 0 (length inverse)) in
  length r = length x
  /\ forall k l, inverse !! l = Some k ->
       (forall n, inverse !! n = Some k -> (n <= l)%nat) ->
       r !! k = Some l.
Proof.
  intros Hb. cbv zeta. unfold assign_at.
  assert (G : forall m, (m <= length inverse)%nat ->
            let r := foldl (fun acc '(k, n) => <[k := n]> acc) x
                           (zip (take m inverse) (seq 0 m)) in
            length r = length x
            /\ forall k l, (l < m)%nat -> inverse !! l = Some k ->
                 (forall n, (n < m)%nat -> inverse !! n = Some k -> (n <= l)%nat) ->
                 r !! k = Some l).
  { induction m as [|m IH]; intros Hm; cbv zeta.
    - split; [reflexivity|]. intros k l Hl. lia.
    - destruct (IH ltac:(lia)) as [IHl IHr].
      destruct (lookup_lt_is_Some_2 inverse m ltac:(lia)) as [km Hkm].
      rewrite (take_S_r _ _ _ Hkm), seq_S. cbn [Nat.add].
      rewrite zip_with_app by (rewrite length_take, length_seq; lia).
      rewrite foldl_app. cbn [zip_with foldl]. split.
      + rewrite length_insert. exact IHl.
      + intros k l Hl Hk Hlast. destruct (decide (l = m)) as [->|Hne].
        * assert (k = km) by congruence. subst k.
          apply list_lookup_insert_eq. rewrite IHl. apply (Hb m km Hkm).
        * destruct (decide (k = km)) as [->|Hk'].
          -- pose proof (Hlast m ltac:(lia) Hkm). lia.
          -- rewrite list_lookup_insert_ne by congruence.
             apply IHr; [lia|exact Hk|]. intros n Hn. apply Hlast. lia. }
  specialize (G (length inverse) (le_n _)). cbv zeta in G.
  rewrite firstn_all in G. destruct G as [Gl Gr]. split; [exact Gl|].
  intros k l Hk Hlast. apply Gr; [apply (lookup_lt_Some _ _ _ Hk)|exact Hk|].
  intros n _. apply Hlast.
Qed.

Lemma last_occurrence (v : Z) (a : list Z) :
  v ∈ a ->
  exists l, a !! l = Some v /\ forall n, a !! n = Some v -> (n <= l)%nat.
Proof.
  induction a as [|x a IH]; intros Hin; [inversion Hin|].
  destruct (decide (v ∈ a)) as [Ha|Ha].
  - destruct (IH Ha) as (l & Hl & Hmax). exists (S l). split; [exact Hl|].
    intros [|n] Hn; [lia|]. specialize (Hmax n Hn). lia.
  - apply elem_of_cons in Hin as [->|Hin]; [|contradiction].
    exists 0%nat. split; [reflexivity|].
    intros [|n] Hn; [lia|]. exfalso. apply Ha.
    apply (list_elem_of_lookup_2 _ n). exact Hn.
Qed.

(** X11.  [unique_all_] on a one-dimensional integer array: the distinct values
    come sorted and without repetition, [inverse] maps every element to
    the position of its value, and for every distinct value [indices0]
    holds the index of its first and [indices1] the index of its last
    occurrence in the input. *)
Theorem unique_all_first_last (a : list Z) :
  let '(b, indices0, indices1, inverse, counts) := unique_all_ a in
  Sorted Z.le b /\ NoDup b
  /\ length indices0 = length b /\ length indices1 = length b
  /\ (forall n x, a !! n = Some x ->
        exists k, inverse !! n = Some k /\ b !! k = Some x)
  /\ (forall k v, b !! k = Some v ->
        exists f l,
          indices0 !! k = Some f /\ indices1 !! k = Some l
          /\ a !! f = Some v /\ a !! l = Some v
          /\ forall n, a !! n = Some v -> (f <= n <= l)%nat).
Proof.
  unfold unique_all_, np_unique.
  set (b := merge_sort Z.le (remove_dups a)).
  assert (Hperm : b ≡ₚ remove_dups a) by apply merge_sort_Permutation.
  assert (Hin : forall x, x ∈ b <-> x ∈ a).
  { intros x. rewrite Hperm. apply elem_of_remove_dups. }
  assert (Hnd : NoDup b) by (rewrite Hperm; apply NoDup_remove_dups).
  set (inverse := map (fun x => first_index x b) a).
  assert (Hinv : forall n x, a !! n = Some x ->
                   inverse !! n = Some (first_index x b)
                   /\ b !! first_index x b = Some x).
  { intros n x Hn. unfold inverse. rewrite list_lookup_fmap, Hn. split; [reflexivity|].
    apply first_index_spec, Hin, (list_elem_of_lookup_2 _ n), Hn. }
  assert (Hinv' : forall n k, inverse !! n = Some k ->
                    exists x, a !! n = Some x /\ b !! k = Some x).
  { intros n k Hk. unfold inverse in Hk. rewrite list_lookup_fmap in Hk.
    destruct (a !! n) as [x|] eqn:Hn; [|discriminate].
    injection Hk as <-. exists x. split; [reflexivity|].
    apply (Hinv n x Hn). }
  destruct (assign_at_last inverse
              (map (fun _ => 0%nat) (map (fun v => first_index v a) b)))
    as [Hl1 Hlast].
  { intros n k Hk. destruct (Hinv' n k Hk) as (x & _ & Hb).
    rewrite !length_map. apply (lookup_lt_Some _ _ _ Hb). }
  split; [apply Sorted_merge_sort; apply _|]. split; [exact Hnd|].
  split; [apply length_map|]. split; [rewrite Hl1, !length_map; reflexivity|].
  split.
  { intros n x Hn. exists (first_index x b). apply (Hinv n x Hn). }
  intros k v Hk.
  assert (Hva : v ∈ a) by (apply Hin, (list_elem_of_lookup_2 _ k), Hk).
  destruct (first_index_spec v a Hva) as [Hf Hfmin].
  destruct (last_occurrence v a Hva) as (l & Hl & Hlmax).
  exists (first_index v a), l.
  split; [rewrite list_lookup_fmap, Hk; reflexivity|].
  split.
  { apply Hlast.
    - destruct (Hinv l v Hl) as [E Hb]. rewrite E. f_equal.
      apply (NoDup_lookup _ _ _ _ Hnd Hb Hk).
    - intros n Hn. destruct (Hinv' n k Hn) as (x & Hx & Hb).
      assert (x = v) by congruence. subst x. apply Hlmax, Hx. }
  split; [exact Hf|]. split; [exact Hl|].
  intros n Hn. split; [apply Hfmin, Hn|apply Hlmax, Hn].
Qed.

End UniqueFacts.

(** ** The data structure of the JAX meshes *)

Module MeshFacts.
Export MeshDefs.
Import Mesh.

Section DataStructure.

Context {Array Index : Type}.
Variable ndim : Array -> nat.
Variable getitem : Array -> Index -> outcome Array.
Variable class_name : string.

Lemma storage_name_cases (name : string) :
  name ∈ _STORAGE_ATTR ->
  name = "cell" \/ name = "face" \/ name = "edge"
  \/ name = "cell_location" \/ name = "face_location".
Proof.
  unfold _STORAGE_ATTR. rewrite !elem_of_cons, elem_of_nil. tauto.
Qed.

Lemma dict_getitem_entity (self : @instance Array) (name : string) :
  entities_stored_apart self -> name ∈ _STORAGE_ATTR ->
  dict_getitem self name = Raises (KeyError name).
Proof.
  intros Hwf Hin. unfold dict_getitem. rewrite (Hwf name Hin).
  destruct (storage_name_cases name Hin) as [->|[->|[->|[->| ->]]]]; reflexivity.
Qed.

(** [ds.name] for the name of a stored entity. *)
Lemma getattr_entity (self : @instance Array) (name : string) :
  entities_stored_apart self -> name ∈ _STORAGE_ATTR ->
  getattr ndim getitem class_name self name
  = do* etype_dim := entity_str2dim self name in
    do* et := entity_dim2array ndim getitem class_name self etype_dim None None in
    Returns (AArray et).
Proof.
  intros Hwf Hin. unfold getattr, __getattr__.
  rewrite (dict_getitem_entity self name Hwf Hin).
  rewrite (bool_decide_eq_true_2 _ Hin). reflexivity.
Qed.

(** X12.  The guard of [__setattr__] is dead code: [hasattr] lets the [KeyError]
    of [__getattr__] through, so that assigning a stored entity before
    [__init__] has run raises that [KeyError], and the [RuntimeError]
    that asks to call [super().__init__()] is never raised. *)
Theorem setattr_before_init (self : @instance Array) (name : string) (value : Array) :
  (forall msg, __setattr__ ndim getitem class_name self name value
               <> Raises (RuntimeError msg))
  /\ (_entity_storage self = None -> name ∈ _STORAGE_ATTR ->
      __setattr__ ndim getitem class_name self name value
      = Raises (KeyError "_entity_storage")).
Proof.
  assert (Hstr : forall etype msg,
             entity_str2dim self etype <> Raises (RuntimeError msg)).
  { intros etype msg. unfold entity_str2dim, top_dimension.
    repeat (destruct (String.eqb etype _)); destruct (TD self) as [td|];
      cbn [obind]; try discriminate; destruct (td <=? 1); discriminate. }
  split.
  - intros msg. unfold __setattr__, hasattr, getattr, __getattr__, get_storage.
    destruct (bool_decide (name ∈ _STORAGE_ATTR)); [|discriminate].
    change (bool_decide ("_entity_storage" ∈ _STORAGE_ATTR)) with false.
    cbn [negb]. unfold dict_getitem at 1 2.
    change (String.eqb "_entity_storage" "_entity_storage") with true. cbv iota.
    destruct (_entity_storage self) as [s|]; cbn [fmap option_fmap option_map obind negb];
      [|discriminate].
    destruct (entity_str2dim self name) as [dim|e] eqn:E; cbn [obind];
      [discriminate|].
    intros H. apply (Hstr name msg). rewrite E. congruence.
  - intros Hnone Hin. unfold __setattr__, hasattr, getattr, __getattr__.
    rewrite (bool_decide_eq_true_2 _ Hin).
    change (bool_decide ("_entity_storage" ∈ _STORAGE_ATTR)) with false.
    cbn [negb]. unfold dict_getitem.
    change (String.eqb "_entity_storage" "_entity_storage") with true. cbv iota.
    rewrite Hnone. reflexivity.
Qed.

(** X13.  Assigning a stored entity and reading one: [ds.n1 = value] followed
    by [ds.n2] returns [value] when the two names have the same dimension,
    and what [ds.n2] returned before otherwise; the names of the stored
    entities stay out of the instance dictionary. *)
Theorem entity_assignment (self : @instance Array) (n1 n2 : string)
  (k1 k2 : Z) (s : gmap Z Array) (value : Array) :
  entities_stored_apart self ->
  n1 ∈ _STORAGE_ATTR -> n2 ∈ _STORAGE_ATTR ->
  _entity_storage self = Some s ->
  entity_str2dim self n1 = Returns k1 ->
  entity_str2dim self n2 = Returns k2 ->
  exists self',
    __setattr__ ndim getitem class_name self n1 value = Returns self'
    /\ entities_stored_apart self'
    /\ getattr ndim getitem class_name self' n2
       = if decide (k1 = k2) then Returns (AArray value)
         else getattr ndim getitem class_name self n2.
Proof.
  intros Hwf H1 H2 Hs E1 E2.
  set (self' := mk_instance (Some (<[k1 := value]> s)) (NN self) (TD self)
                            (others self)).
  assert (Hset : __setattr__ ndim getitem class_name self n1 value
                 = Returns self').
  { unfold __setattr__, hasattr, getattr, get_storage.
    rewrite (bool_decide_eq_true_2 _ H1). unfold dict_getitem at 1.
    change (String.eqb "_entity_storage" "_entity_storage") with true. cbv iota.
    rewrite Hs, E1. reflexivity. }
  assert (Hwf' : entities_stored_apart self') by exact Hwf.
  exists self'. split; [exact Hset|]. split; [exact Hwf'|].
  rewrite !getattr_entity by assumption.
  assert (E2' : entity_str2dim self' n2 = Returns k2) by exact E2.
  rewrite E2, E2'. cbn [obind]. unfold entity_dim2array, get_storage.
  cbn [_entity_storage self']. rewrite Hs. cbn [obind].
  destruct (decide (k1 = k2)) as [->|Hne].
  - rewrite lookup_insert_eq. reflexivity.
  - rewrite lookup_insert_ne by exact Hne. reflexivity.
Qed.

(** X14.  Which stored entities share a slot: in a mesh of topological dimension
    [TD >= 1] two different names of stored entities have the same
    dimension exactly when they are [cell] and [edge] and [TD = 1], or
    [face] and [edge] and [TD = 2]. *)
Theorem shared_entity_slots (self : @instance Array) (td : Z) (n1 n2 : string) :
  TD self = Some td -> 1 <= td ->
  n1 ∈ _STORAGE_ATTR -> n2 ∈ _STORAGE_ATTR -> n1 <> n2 ->
  (exists k, entity_str2dim self n1 = Returns k
             /\ entity_str2dim self n2 = Returns k)
  <-> (td = 1 /\ (n1 = "cell" /\ n2 = "edge" \/ n1 = "edge" /\ n2 = "cell"))
      \/ (td = 2 /\ (n1 = "face" /\ n2 = "edge" \/ n1 = "edge" /\ n2 = "face")).
Proof.
  intros Htd Hpos H1 H2 Hne.
  assert (Hc : entity_str2dim self "cell" = Returns td)
    by (unfold entity_str2dim, top_dimension; rewrite Htd; reflexivity).
  assert (Hcl : entity_str2dim self "cell_location" = Returns (- td))
    by (unfold entity_str2dim, top_dimension; rewrite Htd; reflexivity).
  assert (He : entity_str2dim self "edge" = Returns 1) by reflexivity.
  assert (Hf : entity_str2dim self "face"
               = if td <=? 1 then Raises (ValueError "the mesh has no face entity.")
                 else Returns (td - 1))
    by (unfold entity_str2dim, top_dimension; rewrite Htd; reflexivity).
  assert (Hfl : entity_str2dim self "face_location"
                = if td <=? 1
                  then Raises (ValueError "the mesh has no face location.")
                  else Returns (- td + 1))
    by (unfold entity_str2dim, top_dimension; rewrite Htd; reflexivity).
  destruct (storage_name_cases n1 H1) as [->|[->|[->|[->| ->]]]];
    destruct (storage_name_cases n2 H2) as [->|[->|[->|[->| ->]]]];
    try congruence;
    rewrite ?Hc, ?Hcl, ?He, ?Hf, ?Hfl;
    (split;
     [ intros (k & Ha & Hb); destruct (Z.leb_spec td 1);
       try discriminate; injection Ha as <-; injection Hb as Hb;
       first [ left; split; [lia|]; first [left; split; reflexivity
                                          |right; split; reflexivity]
             | right; split; [lia|]; first [left; split; reflexivity
                                           |right; split; reflexivity]
             | exfalso; lia ]
     | intros [[-> [[Ha Hb]|[Ha Hb]]]|[-> [[Ha Hb]|[Ha Hb]]]];
       try discriminate; eexists; split; reflexivity ]).
Qed.

End DataStructure.

(** An instance for the witnesses: arrays are numbers, every array has two
    axes and indexing returns the array. *)
Lemma initialised_apart (NN TD : Z) :
  entities_stored_apart (@__init__ nat NN TD).
Proof. intros name _. apply lookup_empty. Qed.

Lemma entity_assignment_witness :
  exists self',
    __setattr__ (fun _ : nat => 2%nat) (fun (a : nat) (_ : nat) => Returns a)
                "MeshDataStructure" (__init__ 4 2) "face" 7%nat
    = Returns self'
    /\ entities_stored_apart self'
    /\ getattr (fun _ : nat => 2%nat) (fun (a : nat) (_ : nat) => Returns a)
               "MeshDataStructure" self' "edge"
       = if decide (1 = 1) then Returns (AArray 7%nat)
         else getattr (fun _ : nat => 2%nat)
                      (fun (a : nat) (_ : nat) => Returns a)
                      "MeshDataStructure" (__init__ 4 2) "edge".
Proof.
  apply (entity_assignment (fun _ : nat => 2%nat)
           (fun (a : nat) (_ : nat) => Returns a) "MeshDataStructure"
           (__init__ 4 2) "face" "edge" 1 1 ∅ 7%nat);
    try reflexivity;
    [ apply initialised_apart
    | apply (bool_decide_unpack _); vm_compute; exact I
    | apply (bool_decide_unpack _); vm_compute; exact I ].
Defined.

Lemma shared_entity_slots_witness :
  (exists k, entity_str2dim (@__init__ nat 4 2) "face" = Returns k
             /\ entity_str2dim (@__init__ nat 4 2) "edge" = Returns k)
  <-> (2 = 1 /\ ("face" = "cell" /\ "edge" = "edge"
                 \/ "face" = "edge" /\ "edge" = "cell"))
      \/ (2 = 2 /\ ("face" = "face" /\ "edge" = "edge"
                    \/ "face" = "edge" /\ "edge" = "face")).
Proof.
  apply (shared_entity_slots (@__init__ nat 4 2) 2 "face" "edge");
    [ reflexivity | lia
    | apply (bool_decide_unpack _); vm_compute; exact I
    | apply (bool_decide_unpack _); vm_compute; exact I
    | discriminate ].
Defined.

End MeshFacts.

(** ** Vectorising map *)

Module VmapTruncation.
Import Vmap.

Section Truncation.

Context {T : Type}.
Variable unstack : Z -> T -> result (list T).
Variable stack : Z -> list T -> result T.

Lemma zip_star_two (l1 l2 : list T) : forall fuel,
  (length l1 <= fuel)%nat ->
  zip_star fuel [l1; l2] = zip_with (fun a b => [a; b]) l1 l2.
Proof.
  revert l2. induction l1 as [|a l1 IH]; intros l2 fuel Hf.
  - destruct fuel; reflexivity.
  - destruct fuel as [|fuel]; [cbn [length] in Hf; lia|].
    destruct l2 as [|b l2]; [reflexivity|].
    cbn [zip_star mapM head tail map zip_with mbind option_bind mret option_ret].
    cbn. f_equal. apply IH. cbn [length] in Hf. lia.
Qed.

(** X15.  The vectorised function of two arrays runs the function on the pairs
    of slices up to the shorter of the two arrays: slices that have no
    partner are dropped without an error. *)
Theorem vectorized_truncates (func : list T -> returned T) (f : list T -> T)
  (in_axes : Z) (x1 x2 : T) (l1 l2 : list T) :
  unstack in_axes x1 = Ok l1 -> unstack in_axes x2 = Ok l2 ->
  (forall args, func args = Single (f args)) ->
  l1 <> [] -> l2 <> [] ->
  vectorized unstack stack func in_axes [x1; x2]
  = (let* r := stack in_axes (zip_with (fun a b => f [a; b]) l1 l2) in
     Ok (Single r))
  /\ length (zip_with (fun a b => f [a; b]) l1 l2)
     = Nat.min (length l1) (length l2).
Proof.
  intros H1 H2 Hf Hn1 Hn2. split; [|apply length_zip_with].
  unfold vectorized. cbn [traverse]. rewrite H1, H2. cbn [bind].
  rewrite zip_star_two by lia.
  destruct l1 as [|a l1]; [congruence|]. destruct l2 as [|b l2]; [congruence|].
  cbn [zip_with map]. rewrite Hf.
  assert (E : forall l l', concat (map as_tuple
                 (map func (zip_with (fun a b => [a; b]) l l')))
              = zip_with (fun a b => f [a; b]) l l').
  { induction l as [|c l IH]; intros [|d l']; try reflexivity.
    cbn [zip_with map concat]. rewrite Hf, IH. reflexivity. }
  cbn [map as_tuple concat app]. rewrite E. reflexivity.
Qed.

End Truncation.

Lemma vectorized_truncates_witness :
  vectorized (fun (_ : Z) (x : list Z) => Ok (map (fun z => [z]) x))
             (fun (_ : Z) (l : list (list Z)) => Ok (concat l))
             (fun args => Single (concat args)) 0 [[1; 2; 3]; [10; 20]]
  = (let* r := (fun (_ : Z) (l : list (list Z)) => Ok (concat l)) 0
                 (zip_with (fun a b => concat [a; b]) [[1]; [2]; [3]] [[10]; [20]]) in
     Ok (Single r))
  /\ length (zip_with (fun a b => concat [a; b]) [[1]; [2]; [3]] [[10]; [20]])
     = Nat.min (length [[1]; [2]; [3]]) (length [[10]; [20]]).
Proof.
  apply (vectorized_truncates
           (fun (_ : Z) (x : list Z) => Ok (map (fun z => [z]) x))
           (fun (_ : Z) (l : list (list Z)) => Ok (concat l))
           (fun args => Single (concat args)) (@concat Z) 0
           [1; 2; 3] [10; 20] [[1]; [2]; [3]] [[10]; [20]]);
    try reflexivity; discriminate.
Defined.

End VmapTruncation.

(** ** Tensor products of barycentric coordinates *)

Module TensorProductFacts.
Import QSum TensorProduct.

Lemma qsum_kron (r1 r2 : list Q) :
  (qsum (kron r1 r2) == qsum r1 * qsum r2)%Q.
Proof.
  unfold kron. rewrite !qsum_sumq, sumq_concat, sumq_map.
  rewrite (sumq_ext _ (fun a => id a * sumq id r2)%Q).
  - induction r1 as [|a r1 IH]; [rewrite !sumq_nil; ring|].
    rewrite !sumq_cons, IH. ring.
  - intros a _. rewrite sumq_map. apply (sumq_scale a id).
Qed.

Lemma outer_rows (t1 t2 : list (list Q)) (u1 u2 : Q) :
  Forall (fun r => qsum r == u1)%Q t1 ->
  Forall (fun r => qsum r == u2)%Q t2 ->
  length (outer t1 t2) = (length t1 * length t2)%nat
  /\ Forall (fun r => qsum r == u1 * u2)%Q (outer t1 t2).
Proof.
  intros H1 H2. unfold outer. induction H1 as [|r1 t1 Hr1 _ [IHl IH]].
  - split; [reflexivity|constructor].
  - cbn [map concat length]. split.
    + rewrite length_app, length_map, IHl. lia.
    + apply Forall_app. split; [|exact IH].
      apply Forall_fmap. eapply Forall_impl; [exact H2|].
      intros r2 Hr2. cbv beta. unfold compose.
      rewrite qsum_kron, Hr1, Hr2. reflexivity.
Qed.

(** X16.  [tensorprod] of at most five non-empty arrays whose rows all sum to
    1 (the barycentric coordinates of quadrature points on the factors)
    returns one row for every combination of rows, and each of these rows
    sums to 1 again; with more than five arrays it raises an
    [IndexError]. *)
Theorem tensorprod_partition_of_unity (t : list (list Q))
  (ts : list (list (list Q))) :
  Forall (fun t' => t' <> [] /\ Forall (fun r => qsum r == 1)%Q t') (t :: ts) ->
  ((length (t :: ts) <= 5)%nat ->
   exists R,
     tensorprod t ts = Ok R
     /\ length R = foldl (fun n t' => n * length t')%nat (length t) ts
     /\ Forall (fun r => qsum r == 1)%Q R)
  /\ ((5 < length (t :: ts))%nat -> tensorprod t ts = Raise IndexError).
Proof.
  intros Hall. apply Forall_and in Hall as [_ Hall].
  apply Forall_cons in Hall as [Ht Hts]. split.
  - intros Hnum. unfold tensorprod.
    destruct (Nat.ltb_spec 5 (length (t :: ts))) as [|_]; [lia|].
    eexists. split; [reflexivity|]. clear Hnum.
    revert t Ht. induction Hts as [|t' ts Ht' _ IH]; intros t Ht.
    + split; [reflexivity|exact Ht].
    + cbn [foldl]. destruct (outer_rows t t' 1 1 Ht Ht') as [Hl Hr].
      destruct (IH (outer t t')) as [IHl IHr].
      { eapply Forall_impl; [exact Hr|]. intros r Hq. rewrite Hq. reflexivity. }
      split; [rewrite IHl, Hl; reflexivity|exact IHr].
  - intros Hnum. unfold tensorprod.
    destruct (Nat.ltb_spec 5 (length (t :: ts))) as [_|]; [reflexivity|lia].
Qed.

Lemma tensorprod_partition_of_unity_witness :
  ((length [[[1 # 2; 1 # 2]; [1; 0]]; [[1 # 3; 2 # 3]]]%Q <= 5)%nat ->
   exists R,
     tensorprod [[1 # 2; 1 # 2]; [1; 0]]%Q [[[1 # 3; 2 # 3]]]%Q = Ok R
     /\ length R
        = foldl (fun n t' => n * length t')%nat
                (length [[1 # 2; 1 # 2]; [1; 0]]%Q) [[[1 # 3; 2 # 3]]]%Q
     /\ Forall (fun r => qsum r == 1)%Q R)
  /\ ((5 < length [[[1 # 2; 1 # 2]; [1; 0]]; [[1 # 3; 2 # 3]]]%Q)%nat ->
      tensorprod [[1 # 2; 1 # 2]; [1; 0]]%Q [[[1 # 3; 2 # 3]]]%Q
      = Raise IndexError).
Proof.
  apply (tensorprod_partition_of_unity [[1 # 2; 1 # 2]; [1; 0]]%Q
           [[[1 # 3; 2 # 3]]]%Q).
  repeat constructor; discriminate.
Defined.

End TensorProductFacts.

(** ** Closed forms of the multi-indices on intervals and triangles *)

Module ClosedForms.
Export TriangleDefs.
Import MultiIndex MultiIndexFacts.

Lemma triangular_double n : (2 * triangular n = n * (n + 1))%nat.
Proof. induction n as [|n IH]; [reflexivity|]. cbn [triangular]. nia. Qed.

Lemma cwr_one {A} (l : list A) :
  combinations_with_replacement 1 l = map (fun x => [x]) l.
Proof.
  induction l as [|x l IH]; [reflexivity|].
  rewrite cwr_cons, IH. reflexivity.
Qed.

(** Pairs in lexicographic order, block by block. *)
Lemma cwr_pairs (n : nat) : forall a : nat,
  combinations_with_replacement 2 (map Z.of_nat (seq a n))
  = concat (map (fun i => map (fun j => [Z.of_nat i; Z.of_nat j])
                              (seq i (a + n - i)))
                (seq a n)).
Proof.
  induction n as [|n IH]; intros a; [reflexivity|].
  cbn [seq map concat]. rewrite cwr_cons, cwr_one, IH.
  replace (a + S n - a)%nat with (S n) by lia.
  f_equal.
  - cbn [seq map]. rewrite !map_map. reflexivity.
  - f_equal. apply map_ext_in. intros i Hi. apply in_seq in Hi.
    replace (S a + n - i)%nat with (a + S n - i)%nat by lia. reflexivity.
Qed.

Lemma rev_concat_map {A B} (f : A -> list B) (l : list A) :
  rev (concat (map f l)) = concat (map (fun x => rev (f x)) (rev l)).
Proof.
  induction l as [|x l IH]; [reflexivity|].
  cbn [map concat rev]. rewrite rev_app_distr, IH, map_app, concat_app.
  cbn [map concat]. rewrite app_nil_r. reflexivity.
Qed.

Lemma rev_seq (n : nat) : forall a,
  rev (seq a n) = map (fun t => (a + n - 1 - t)%nat) (seq 0 n).
Proof.
  induction n as [|n IH]; intros a; [reflexivity|].
  rewrite seq_S, rev_app_distr. cbn [rev app]. rewrite IH.
  cbn [seq map]. f_equal; [f_equal; lia|].
  rewrite <- seq_shift, map_map. apply map_ext_in. intros t Ht.
  apply in_seq in Ht. lia.
Qed.

(** The enumeration on a triangle, block by block. *)
Lemma rows_of_separators_triangle (p : nat) :
  rows_of_separators p 2 = triangle_rows p.
Proof.
  unfold rows_of_separators, triangle_rows, range.
  replace (p + 1)%nat with (S p) by lia.
  rewrite (cwr_pairs (S p) 0), rev_concat_map, rev_seq.
  rewrite map_map, concat_map, !map_map. f_equal.
  apply map_ext_in. intros t Ht. apply in_seq in Ht.
  rewrite <- map_rev, rev_seq, !map_map.
  replace (0 + S p - (0 + S p - 1 - t))%nat with (S t) by lia.
  apply map_ext_in. intros u Hu. apply in_seq in Hu.
  cbn [app diff_from]. f_equal; [lia|]. f_equal; [lia|]. f_equal. lia.
Qed.

(** The root of a triangular index. *)
Lemma tri_root_block (t u : nat) :
  (u <= t)%nat ->
  Jax.tri_root (Z.of_nat (triangular t + u)) = Some (Z.of_nat t).
Proof.
  intros Hu. unfold Jax.tri_root.
  pose proof (triangular_double t) as Hd.
  set (m := 1 + 8 * Z.of_nat (triangular t + u)).
  assert (Hm : m = (2 * Z.of_nat t + 1) ^ 2 + 8 * Z.of_nat u) by (unfold m; nia).
  destruct (Z.ltb_spec m 0) as [Hneg|_]; [nia|]. f_equal.
  pose proof (Z.sqrt_spec m ltac:(nia)) as [Hlo Hhi].
  pose proof (Z.sqrt_nonneg m) as Hs.
  assert (H1 : 2 * Z.of_nat t + 1 <= Z.sqrt m) by nia.
  assert (H2 : Z.sqrt m < 2 * Z.of_nat t + 3) by nia.
  symmetry. apply Z.div_unique with (r := Z.sqrt m - 1 - 2 * Z.of_nat t); lia.
Qed.

Lemma arange_app (a b : nat) :
  arange 0 (a + b) = arange 0 a ++ map (fun k => Z.of_nat (a + k)) (seq 0 b).
Proof.
  unfold arange. rewrite seq_app, map_app. f_equal.
  cbn [Nat.add].
  assert (E : seq a b = map (Nat.add a) (seq 0 b)).
  { change (map (Nat.add a) (seq 0 b)) with (Nat.add a <$> seq 0 b).
    rewrite fmap_add_seq. f_equal. lia. }
  rewrite E, map_map. apply map_ext. intros k. lia.
Qed.

Section Triangle.

Variables (nan_int : Z) (p : nat).
Hypothesis Hp : Z.of_nat p < 2 ^ 24.

(** One row of the closed form. *)
Let row (idx : Z) : list Z :=
  let idx0 := Jax.tri_root idx in
  let m2 := Jax.to_int nan_int
              (Jax.fsubZ (Some idx) (option_map (fun t => t * (t + 1) / 2) idx0)) in
  let m1 := Jax.to_int nan_int (Jax.fsubZ idx0 (Some m2)) in
  let m0 := int64 (int64 (Z.of_nat p - m1) - m2) in
  [m0; m1; m2].

Lemma row_block (t u : nat) :
  (t <= p)%nat -> (u <= t)%nat ->
  row (Z.of_nat (triangular t + u))
  = [Z.of_nat p - Z.of_nat t; Z.of_nat t - Z.of_nat u; Z.of_nat u].
Proof.
  intros Ht Hu. unfold row. rewrite (tri_root_block t u Hu).
  cbn [option_map Jax.fsubZ Jax.to_int].
  pose proof (triangular_double t) as Hd.
  assert (Hp' : Z.of_nat p < 16777216) by exact Hp.
  assert (E : Z.of_nat t * (Z.of_nat t + 1) / 2 = Z.of_nat (triangular t)).
  { symmetry. apply Z.div_unique with (r := 0); lia. }
  rewrite E.
  replace (Z.of_nat (triangular t + u) - Z.of_nat (triangular t))
    with (Z.of_nat u) by lia.
  rewrite (int64_small (Z.of_nat u)) by (change (2 ^ 63) with 9223372036854775808; lia).
  rewrite (int64_small (Z.of_nat t - Z.of_nat u))
    by (change (2 ^ 63) with 9223372036854775808; lia).
  rewrite (int64_small (Z.of_nat p - _))
    by (change (2 ^ 63) with 9223372036854775808; lia).
  rewrite int64_small by (change (2 ^ 63) with 9223372036854775808; lia).
  f_equal. lia.
Qed.

Lemma rows_blocks (n : nat) :
  (n <= S p)%nat ->
  map row (arange 0 (triangular n))
  = concat (map (fun t => map (fun u => [Z.of_nat p - Z.of_nat t;
                                         Z.of_nat t - Z.of_nat u; Z.of_nat u])
                              (seq 0 (S t)))
                (seq 0 n)).
Proof.
  induction n as [|n IH]; intros Hn; [reflexivity|].
  cbn [triangular]. rewrite arange_app, map_app, IH by lia.
  set (B := map row (map (fun k => Z.of_nat (triangular n + k)) (seq 0 (S n)))).
  rewrite seq_S, map_app, concat_app. cbn [map concat Nat.add].
  rewrite app_nil_r. f_equal. subst B.
  rewrite map_map. apply map_ext_in. intros u Hu. apply in_seq in Hu.
  apply row_block; lia.
Qed.

Lemma rows_of_separators_interval :
  rows_of_separators p 1
  = map (fun k => [Z.of_nat p - Z.of_nat k; Z.of_nat k]) (seq 0 (S p)).
Proof.
  unfold rows_of_separators, range. replace (p + 1)%nat with (S p) by lia.
  rewrite cwr_one, <- !map_rev, rev_seq, !map_map.
  apply map_ext_in. intros k Hk. apply in_seq in Hk.
  cbn [app diff_from]. f_equal; [lia|]. f_equal. lia.
Qed.

(** X17.  On intervals and on triangles the closed forms and the enumeration
    return the same matrix for every degree below [2 ^ 24], a range in
    which the square roots of the closed form are exact in double
    precision. *)
Theorem closed_form_agrees_below_dimension_3 :
  Jax.multi_index_matrix nan_int p 1 = Some (multi_index_matrix p 1)
  /\ Jax.multi_index_matrix nan_int p 2 = Some (multi_index_matrix p 2).
Proof.
  assert (Hp' : Z.of_nat p < 16777216) by exact Hp.
  assert (Hp31 : Z.of_nat p < 2 ^ 31)
    by (change (2 ^ 31) with 2147483648; lia).
  rewrite !multi_index_matrix_unwrapped by exact Hp31. split.
  - rewrite rows_of_separators_interval. unfold Jax.multi_index_matrix.
    change (1 =? 3) with false. change (1 =? 2) with false.
    change (1 =? 1) with true. cbv iota. f_equal.
    replace (Z.to_nat (Z.of_nat p + 1)) with (S p) by lia.
    unfold arange. rewrite map_map. apply map_ext_in. intros k Hk.
    apply in_seq in Hk. cbv zeta.
    rewrite int64_small by (change (2 ^ 63) with 9223372036854775808; lia).
    repeat f_equal; lia.
  - rewrite rows_of_separators_triangle. unfold Jax.multi_index_matrix.
    change (2 =? 3) with false. change (2 =? 2) with true. cbv iota. f_equal.
    assert (E : Z.to_nat ((Z.of_nat p + 1) * (Z.of_nat p + 2) / 2)
                = triangular (S p)).
    { pose proof (triangular_double (S p)) as Hd.
      assert (E : (Z.of_nat p + 1) * (Z.of_nat p + 2) / 2
                  = Z.of_nat (triangular (S p))).
      { symmetry. apply Z.div_unique with (r := 0); lia. }
      rewrite E. apply Nat2Z.id. }
    rewrite E. apply (rows_blocks (S p) (le_n _)).
Qed.

End Triangle.

Lemma closed_form_agrees_below_dimension_3_witness :
  Jax.multi_index_matrix 0 3 1 = Some (multi_index_matrix 3 1)
  /\ Jax.multi_index_matrix 0 3 2 = Some (multi_index_matrix 3 2).
Proof. apply (closed_form_agrees_below_dimension_3 0 3). reflexivity. Defined.

End ClosedForms.

(** ** Orientation of the simplices *)

Module MeasureOrientation.
Import QSum Geometry GeometryFacts.

Lemma traverse_getitem_ok {A} (node : list A) (entity : list Z) (pts : list A) :
  Forall2 (fun i pt => getitem node i = Ok pt) entity pts ->
  traverse (getitem node) entity = Ok pts.
Proof.
  induction 1 as [|i pt entity pts Hi _ IH]; [reflexivity|].
  cbn [traverse]. rewrite Hi. cbn [bind]. rewrite IH. reflexivity.
Qed.

Ltac measure_of H :=
  unfold simplex_measure; rewrite (traverse_getitem_ok _ _ _ H);
  cbn [bind length Nat.eqb negb]; reflexivity.

Ltac expand_det :=
  cbn -[Qmult Qplus Qminus Qdiv Qopp inject_Z]; unfold qsum; simpl foldl;
  repeat match goal with
         | |- context [inject_Z ?z] =>
             let q := eval vm_compute in (inject_Z z) in
             change (inject_Z z) with q
         end.

(** X18.  The measure is signed: exchanging the first two vertices of an
    interval, a triangle or a tetrahedron changes its sign, and moving the
    first vertex of a triangle behind the other two, or the first of a
    tetrahedron behind the next two, keeps it. *)
Theorem simplex_measure_orientation (node : list (list Q)) :
  (forall i j (x y : Q),
      getitem node i = Ok [x] -> getitem node j = Ok [y] ->
      exists a b,
        simplex_measure [i; j] node = Ok a
        /\ simplex_measure [j; i] node = Ok b
        /\ (b == - a)%Q)
  /\ (forall i j k (x0 y0 x1 y1 x2 y2 : Q),
      getitem node i = Ok [x0; y0] -> getitem node j = Ok [x1; y1] ->
      getitem node k = Ok [x2; y2] ->
      exists a b c,
        simplex_measure [i; j; k] node = Ok a
        /\ simplex_measure [j; i; k] node = Ok b
        /\ simplex_measure [j; k; i] node = Ok c
        /\ (b == - a)%Q /\ (c == a)%Q)
  /\ (forall i j k l (x0 y0 z0 x1 y1 z1 x2 y2 z2 x3 y3 z3 : Q),
      getitem node i = Ok [x0; y0; z0] -> getitem node j = Ok [x1; y1; z1] ->
      getitem node k = Ok [x2; y2; z2] -> getitem node l = Ok [x3; y3; z3] ->
      exists a b c,
        simplex_measure [i; j; k; l] node = Ok a
        /\ simplex_measure [j; i; k; l] node = Ok b
        /\ simplex_measure [j; k; i; l] node = Ok c
        /\ (b == - a)%Q /\ (c == a)%Q).
Proof.
  split; [|split].
  - intros i j x y Hi Hj. do 2 eexists.
    split; [|split].
    + assert (H : Forall2 (fun i pt => getitem node i = Ok pt) [i; j] [[x]; [y]])
        by (repeat constructor; assumption).
      measure_of H.
    + assert (H : Forall2 (fun i pt => getitem node i = Ok pt) [j; i] [[y]; [x]])
        by (repeat constructor; assumption).
      measure_of H.
    + expand_det. field.
  - intros i j k x0 y0 x1 y1 x2 y2 Hi Hj Hk. do 3 eexists.
    split; [|split; [|split; [|split]]].
    + assert (H : Forall2 (fun i pt => getitem node i = Ok pt) [i; j; k]
                    [[x0; y0]; [x1; y1]; [x2; y2]])
        by (repeat constructor; assumption).
      measure_of H.
    + assert (H : Forall2 (fun i pt => getitem node i = Ok pt) [j; i; k]
                    [[x1; y1]; [x0; y0]; [x2; y2]])
        by (repeat constructor; assumption).
      measure_of H.
    + assert (H : Forall2 (fun i pt => getitem node i = Ok pt) [j; k; i]
                    [[x1; y1]; [x2; y2]; [x0; y0]])
        by (repeat constructor; assumption).
      measure_of H.
    + expand_det. field.
    + expand_det. field.
  - intros i j k l x0 y0 z0 x1 y1 z1 x2 y2 z2 x3 y3 z3 Hi Hj Hk Hl.
    do 3 eexists.
    split; [|split; [|split; [|split]]].
    + assert (H : Forall2 (fun i pt => getitem node i = Ok pt) [i; j; k; l]
                    [[x0; y0; z0]; [x1; y1; z1]; [x2; y2; z2]; [x3; y3; z3]])
        by (repeat constructor; assumption).
      measure_of H.
    + assert (H : Forall2 (fun i pt => getitem node i = Ok pt) [j; i; k; l]
                    [[x1; y1; z1]; [x0; y0; z0]; [x2; y2; z2]; [x3; y3; z3]])
        by (repeat constructor; assumption).
      measure_of H.
    + assert (H : Forall2 (fun i pt => getitem node i = Ok pt) [j; k; i; l]
                    [[x1; y1; z1]; [x2; y2; z2]; [x0; y0; z0]; [x3; y3; z3]])
        by (repeat constructor; assumption).
      measure_of H.
    + expand_det. field.
    + expand_det. field.
Qed.

Lemma simplex_measure_orientation_witness :
  exists a b c,
    simplex_measure [0; 1; 2] unit_triangle = Ok a
    /\ simplex_measure [1; 0; 2] unit_triangle = Ok b
    /\ simplex_measure [1; 2; 0] unit_triangle = Ok c
    /\ (b == - a)%Q /\ (c == a)%Q.
Proof.
  apply (proj1 (proj2 (simplex_measure_orientation unit_triangle))
           0 1 2 0%Q 0%Q 1%Q 0%Q 0%Q 1%Q); reflexivity.
Defined.

End MeasureOrientation.

(** ** Normals and tangents of edges *)

Module EdgeFacts.
Import QSum Geometry GeometryFacts GradientDefs Edges.

(** X19.  In the plane [edge_normal] returns the tangent of [edge_tangent]
    turned by a quarter to the right: for an edge from [(x0, y0)] to
    [(x1, y1)] the tangent is [(x1 - x0, y1 - y0)] and the normal
    [(y1 - y0, -(x1 - x0))], so that the two are orthogonal, of the same
    length, and the pair (tangent, normal) is negatively oriented.  On a
    node array that does not have two columns, [edge_normal] raises a
    [ValueError] for every edge whose nodes can be gathered, while
    [edge_tangent] returns the difference of the end points in every
    dimension. *)
Theorem edge_normal_tangent :
  (forall (node : list (list Q)) (i j : Z) (x0 y0 x1 y1 : Q),
      columns node = 2%nat ->
      getitem node i = Ok [x0; y0] ->
      getitem node j = Ok [x1; y1] ->
      let t := [x1 - x0; y1 - y0]%Q in
      let n := [y1 - y0; - (x1 - x0)]%Q in
      edge_tangent [i; j] node = Ok t
      /\ edge_normal [i; j] node = Ok n
      /\ (dot n t == 0)%Q
      /\ (dot n n == dot t t)%Q
      /\ (det 2 [t; n] == - dot t t)%Q)
  /\ (forall (node : list (list Q)) (edge : list Z) (points : list (list Q)),
        columns node <> 2%nat ->
        traverse (getitem node) edge = Ok points ->
        edge_normal edge node = Raise (ValueError only_2d_msg))
  /\ (forall (node : list (list Q)) (i j : Z) (a b : list Q),
        getitem node i = Ok a ->
        getitem node j = Ok b ->
        edge_tangent [i; j] node = Ok (vsub b a)).
Proof.
  split; [|split].
  - intros node i j x0 y0 x1 y1 Hc Hi Hj t n. repeat split.
    + unfold edge_tangent.
      change (getitem [i; j] 1) with (Ok j). change (getitem [i; j] 0) with (Ok i).
      cbn [bind]. rewrite Hj. cbn [bind]. rewrite Hi. reflexivity.
    + unfold edge_normal. cbn [traverse]. rewrite Hi, Hj, Hc. reflexivity.
    + unfold dot, n, t, qsum. simpl. ring.
    + unfold dot, n, t, qsum. simpl. ring.
    + unfold dot, n, t, qsum. cbn -[Qmult Qplus Qminus Qopp]. unfold qsum.
      simpl foldl. ring.
  - intros node edge points Hc Hpts. unfold edge_normal. rewrite Hpts.
    cbn [bind].
    destruct (Nat.eqb_spec (columns node) 2) as [|_]; [contradiction|].
    reflexivity.
  - intros node i j a b Hi Hj. unfold edge_tangent.
    change (getitem [i; j] 1) with (Ok j). change (getitem [i; j] 0) with (Ok i).
    cbn [bind]. rewrite Hj. cbn [bind]. rewrite Hi. reflexivity.
Qed.

Lemma edge_normal_tangent_witness :
  (let t := [1 - 0; 2 - 0]%Q in
   let n := [2 - 0; - (1 - 0)]%Q in
   edge_tangent [0; 1] [[0; 0]; [1; 2]]%Q = Ok t
   /\ edge_normal [0; 1] [[0; 0]; [1; 2]]%Q = Ok n
   /\ (dot n t == 0)%Q
   /\ (dot n n == dot t t)%Q
   /\ (det 2 [t; n] == - dot t t)%Q)
  /\ edge_normal [0; 1] [[0; 0; 0]; [1; 2; 3]]%Q
     = Raise (ValueError only_2d_msg)
  /\ edge_tangent [0; 1] [[0; 0; 0]; [1; 2; 3]]%Q
     = Ok (vsub [1; 2; 3]%Q [0; 0; 0]%Q).
Proof.
  split; [|split].
  - apply (proj1 edge_normal_tangent [[0; 0]; [1; 2]]%Q 0 1 0%Q 0%Q 1%Q 2%Q);
      reflexivity.
  - apply (proj1 (proj2 edge_normal_tangent) [[0; 0; 0]; [1; 2; 3]]%Q [0; 1]
             [[0; 0; 0]; [1; 2; 3]]%Q); [discriminate|reflexivity].
  - apply (proj2 (proj2 edge_normal_tangent) [[0; 0; 0]; [1; 2; 3]]%Q 0 1
             [0; 0; 0]%Q [1; 2; 3]%Q); reflexivity.
Defined.

End EdgeFacts.

(** ** Entities of a JAX mesh *)

Module MeshBaseFacts.
Export MeshDefs.
Import Mesh MeshBase MeshFacts.

Section Base.

Context {Array Index : Type}.
Variable ndim : Array -> nat.
Variable getitem : Array -> Index -> outcome Array.
Variable class_name : string.
Variable last_axis : Array -> Z.
Variable reshape : Array -> Z -> outcome Array.

(** [ds_entity] is the attribute access of the data structure. *)
Lemma getattr_ds_entity (self : @instance Array) (name : string) :
  name ∈ _STORAGE_ATTR ->
  getattr ndim getitem class_name self name
  = do* a := ds_entity ndim getitem class_name self name in Returns (AArray a).
Proof.
  intros Hin. unfold getattr, __getattr__, ds_entity, dict_getitem.
  rewrite (bool_decide_eq_true_2 _ Hin). cbn [negb].
  destruct (storage_name_cases name Hin) as [->|[->|[->|[->| ->]]]];
    cbn [String.eqb Ascii.eqb Bool.eqb];
    (destruct (others self !! _); [reflexivity|]);
    cbn [fmap option_fmap option_map];
    (destruct (entity_str2dim self _) as [d|e]; [|reflexivity]);
    cbn [obind];
    destruct (entity_dim2array _ _ _ _ _ _ _); reflexivity.
Qed.

(** X20.  Entities by name and by dimension: on a mesh of topological dimension
    at least 1 whose data structure keeps the stored entities out of its
    instance dictionary, [entity] called with one of the names cell, edge,
    face, node and [entity] called with the dimension that
    [entity_str2dim] gives this name do the same; on a mesh of dimension 1
    the name face raises the [ValueError] of [entity_str2dim], although the
    dimension [TD - 1 = 0] is accepted and gives the nodes; a name or a
    dimension that is none of the four raises a [ValueError]. *)
Theorem entity_by_name_or_dimension (self : @mesh Array) (td : Z)
  (index : Index) :
  entities_stored_apart (ds self) ->
  TD (ds self) = Some td ->
  1 <= td ->
  let entity := entity ndim getitem class_name last_axis reshape self in
  (forall name d,
      name ∈ ["cell"; "edge"; "face"; "node"] ->
      entity_str2dim (ds self) name = Returns d ->
      entity (inr d) index = entity (inl name) index)
  /\ (td = 1 ->
      entity (inl "face") index
      = Raises (ValueError "the mesh has no face entity.")
      /\ entity (inr (td - 1)) index
         = do* a := reshape (node self) (last_axis (node self)) in
           getitem a index)
  /\ (forall etype,
        is_in etype "cell" td = false -> is_in etype "edge" 1 = false ->
        is_in etype "node" 0 = false -> is_in etype "face" (td - 1) = false ->
        entity etype index
        = Raises (ValueError ("Invalid etype '" ++ str etype ++ "'."))).
Proof.
  intros Hwf HTD Htd entity0.
  assert (Hds : forall name, name ∈ _STORAGE_ATTR ->
            ds_entity ndim getitem class_name (ds self) name
            = do* etype_dim := entity_str2dim (ds self) name in
              entity_dim2array ndim getitem class_name (ds self) etype_dim
                               None None).
  { intros name Hin. unfold ds_entity. rewrite (Hwf name Hin). reflexivity. }
  assert (Hcell : "cell" ∈ _STORAGE_ATTR)
    by (unfold _STORAGE_ATTR; rewrite !elem_of_cons; tauto).
  assert (Hedge : "edge" ∈ _STORAGE_ATTR)
    by (unfold _STORAGE_ATTR; rewrite !elem_of_cons; tauto).
  assert (Hface : "face" ∈ _STORAGE_ATTR)
    by (unfold _STORAGE_ATTR; rewrite !elem_of_cons; tauto).
  split; [|split].
  - intros name d Hin Hd. subst entity0. unfold entity, top_dimension.
    rewrite HTD. cbn [obind]. cbv zeta.
    rewrite !elem_of_cons, elem_of_nil in Hin.
    destruct Hin as [->|[->|[->|[->|[]]]]].
    + unfold entity_str2dim, top_dimension in Hd. rewrite HTD in Hd.
      cbn in Hd. injection Hd as <-.
      unfold is_in. rewrite Z.eqb_refl. reflexivity.
    + cbn in Hd. injection Hd as <-.
      unfold is_in. change (String.eqb "edge" "cell") with false.
      change (String.eqb "edge" "edge") with true. cbv iota.
      destruct (Z.eqb_spec 1 td) as [<-|Hne]; [|reflexivity].
      rewrite (Hds "cell" Hcell), (Hds "edge" Hedge).
      unfold entity_str2dim, top_dimension. rewrite HTD. reflexivity.
    + unfold entity_str2dim, top_dimension in Hd. rewrite HTD in Hd.
      cbn in Hd. destruct (Z.leb_spec td 1) as [|Hgt]; [discriminate|].
      injection Hd as <-.
      unfold is_in. change (String.eqb "face" "cell") with false.
      change (String.eqb "face" "edge") with false.
      change (String.eqb "face" "node") with false.
      change (String.eqb "face" "face") with true. cbv iota.
      destruct (Z.eqb_spec (td - 1) td) as [|_]; [lia|].
      destruct (Z.eqb_spec (td - 1) 0) as [|_]; [lia|].
      rewrite Z.eqb_refl.
      destruct (Z.eqb_spec (td - 1) 1) as [E|_]; [|reflexivity].
      rewrite (Hds "face" Hface), (Hds "edge" Hedge).
      unfold entity_str2dim, top_dimension. rewrite HTD. cbn [obind].
      destruct (Z.leb_spec td 1) as [|_]; [lia|]. rewrite E. reflexivity.
    + cbn in Hd. injection Hd as <-.
      unfold is_in. change (String.eqb "node" "cell") with false.
      change (String.eqb "node" "edge") with false.
      change (String.eqb "node" "node") with true. cbv iota.
      destruct (Z.eqb_spec 0 td) as [|_]; [lia|].
      change (0 =? 1) with false. change (0 =? 0) with true. reflexivity.
  - intros ->. subst entity0. unfold entity, top_dimension.
    rewrite HTD. cbn [obind]. cbv zeta. split.
    + unfold is_in. change (String.eqb "face" "cell") with false.
      change (String.eqb "face" "edge") with false.
      change (String.eqb "face" "node") with false.
      change (String.eqb "face" "face") with true. cbv iota.
      rewrite (Hds "face" Hface).
      unfold entity_str2dim, top_dimension. rewrite HTD. reflexivity.
    + reflexivity.
  - intros etype H1 H2 H3 H4. subst entity0. unfold entity, top_dimension.
    rewrite HTD. cbn [obind]. cbv zeta. rewrite H1, H2, H3, H4. reflexivity.
Qed.

End Base.

Lemma entity_by_name_or_dimension_witness :
  let entity :=
    entity (fun _ : nat => 2%nat) (fun (a : nat) (_ : nat) => Returns a)
           "MeshDataStructure" (fun _ : nat => 2)
           (fun (a : nat) (_ : Z) => Returns a)
           (mk_mesh (__init__ 4 2) 0%nat) in
  (forall name d,
      name ∈ ["cell"; "edge"; "face"; "node"] ->
      entity_str2dim (@__init__ nat 4 2) name = Returns d ->
      entity (inr d) 0%nat = entity (inl name) 0%nat)
  /\ (2 = 1 ->
      entity (inl "face") 0%nat
      = Raises (ValueError "the mesh has no face entity.")
      /\ entity (inr (2 - 1)) 0%nat
         = do* a := Returns 0%nat in Returns a)
  /\ (forall etype,
        is_in etype "cell" 2 = false -> is_in etype "edge" 1 = false ->
        is_in etype "node" 0 = false -> is_in etype "face" (2 - 1) = false ->
        entity etype 0%nat
        = Raises (ValueError ("Invalid etype '" ++ str etype ++ "'."))).
Proof.
  apply (entity_by_name_or_dimension (fun _ : nat => 2%nat)
           (fun (a : nat) (_ : nat) => Returns a) "MeshDataStructure"
           (fun _ : nat => 2) (fun (a : nat) (_ : Z) => Returns a)
           (mk_mesh (__init__ 4 2) 0%nat) 2 0%nat);
    [ apply initialised_apart | reflexivity | lia ].
Defined.

End MeshBaseFacts.

(** ** Linear shape functions *)

Module LinearGradient.
Import QSum Convolution MultiIndex MultiIndexFacts Shape ShapeTables ShapeSums ShapeGradients NodalBasis.

Lemma tabA_1_0 (x : Q) : (tabA 1 0 x == 1)%Q.
Proof. rewrite tabA_bq. reflexivity. Qed.

Lemma tabF_1_1 (x : Q) : (tabF 1 1 x == 1)%Q.
Proof.
  rewrite tabF_dbq by lia. cbn [dbq bq]. unfold nq. cbn [Z.of_nat].
  change (inject_Z (Z.pos (Pos.of_succ_nat 0))) with 1%Q.
  change (inject_Z 0) with 0%Q. field.
Qed.

(** Products at the zero multi-index. *)
Lemma prod_at_zeros_A (bc : list Q) :
  (prod_at (map (fun y k => tabA 1 k y) bc) (replicate (length bc) 0%Z) == 1)%Q.
Proof.
  induction bc as [|x bc IH]; [reflexivity|].
  cbn [map length replicate prod_at]. change (Z.to_nat 0) with 0%nat.
  rewrite tabA_1_0, IH. ring.
Qed.

Lemma prod_at_zeros_mixed (bc : list Q) : forall i,
  (i < length bc)%nat ->
  (prod_at (mixed (tabA 1) (tabF 1) i bc) (replicate (length bc) 0%Z) == 0)%Q.
Proof.
  induction bc as [|x bc IH]; intros i Hi; cbn [length] in Hi; [lia|].
  destruct i as [|i]; cbn [mixed length replicate prod_at];
    change (Z.to_nat 0) with 0%nat.
  - cbn [tabF]. ring.
  - rewrite IH by lia. ring.
Qed.

Lemma unit_row_0 dim : unit_row dim 0 = 1 :: replicate dim 0.
Proof. unfold unit_row. cbn [replicate app]. rewrite Nat.sub_0_r. reflexivity. Qed.

Lemma unit_row_S dim a : unit_row (S dim) (S a) = 0 :: unit_row dim a.
Proof. reflexivity. Qed.

Lemma prod_at_unit_row (bc : list Q) : forall dim a i,
  length bc = S dim -> (a <= dim)%nat -> (i <= dim)%nat ->
  (prod_at (mixed (tabA 1) (tabF 1) i bc) (unit_row dim a)
   == if decide (a = i) then 1 else 0)%Q.
Proof.
  induction bc as [|x bc IH]; intros dim a i Hl Ha Hi; [discriminate|].
  cbn [length] in Hl. injection Hl as Hl.
  destruct a as [|a]; destruct i as [|i].
  - rewrite unit_row_0. cbn [mixed prod_at]. change (Z.to_nat 1) with 1%nat.
    rewrite tabF_1_1, <- Hl, prod_at_zeros_A.
    destruct (decide (0 = 0)%nat); [ring|congruence].
  - rewrite unit_row_0. cbn [mixed prod_at]. rewrite <- Hl.
    rewrite prod_at_zeros_mixed by lia.
    destruct (decide (0 = S i)%nat); [discriminate|ring].
  - destruct dim as [|dim]; [lia|]. rewrite unit_row_S.
    cbn [mixed prod_at]. change (Z.to_nat 0) with 0%nat. cbn [tabF].
    destruct (decide (S a = 0)%nat); [discriminate|ring].
  - destruct dim as [|dim]; [lia|]. rewrite unit_row_S.
    cbn [mixed prod_at]. change (Z.to_nat 0) with 0%nat.
    rewrite tabA_1_0, (IH dim a i) by lia.
    destruct (decide (a = i)); destruct (decide (S a = S i)); try lia; ring.
Qed.

(** X21.  The gradients of the linear shape functions: at degree 1, in every
    dimension and at every point, [simplex_grad_shape_function] returns
    the identity matrix, the derivative of the barycentric coordinate [a]
    with respect to the coordinate [i] being 1 for [a = i] and 0
    otherwise. *)
Theorem linear_gradient_identity (bc : list Q) (a i : nat) :
  (a < length bc)%nat -> (i < length bc)%nat ->
  exists G row g,
    simplex_grad_shape_function bc 1 = Ok (map (map Some) G)
    /\ length G = length bc
    /\ G !! a = Some row
    /\ row !! i = Some g
    /\ (g == if decide (a = i) then 1 else 0)%Q.
Proof.
  intros Ha Hi. destruct bc as [|x rest]; [cbn [length] in Ha; lia|].
  cbn [length] in Ha, Hi. set (dim := length rest).
  assert (Hmi : multi_index_matrix 1 dim = map (unit_row dim) (seq 0 (S dim))).
  { rewrite multi_index_matrix_unwrapped
      by (change (2 ^ 31) with 2147483648; lia).
    apply rows_of_separators_1. }
  set (row_of := fun alpha : list Z =>
         imap (fun i m =>
                 (m * foldl Qmult 1
                        (remove_index i
                           (zip_with (fun a y => tabA 1 (Z.to_nat a) y)
                                     alpha (x :: rest))))%Q)
              (zip_with (fun a y => tabF 1 (Z.to_nat a) y) alpha (x :: rest))).
  assert (Hrow : length (unit_row dim a) = S dim).
  { unfold unit_row. rewrite !length_app, !length_replicate. cbn [length]. lia. }
  assert (Hlen : length (zip_with (fun a y => tabF 1 (Z.to_nat a) y)
                                  (unit_row dim a) (x :: rest)) = S dim).
  { rewrite length_zip_with, Hrow. cbn [length]. fold dim. lia. }
  exists (map row_of (multi_index_matrix 1 dim)), (row_of (unit_row dim a)),
         (nth i (row_of (unit_row dim a)) 0%Q).
  split; [|split; [|split; [|split]]].
  - rewrite simplex_grad_shape_function_values by lia. reflexivity.
  - rewrite length_map, Hmi, length_map, length_seq. reflexivity.
  - rewrite Hmi, !list_lookup_fmap, lookup_seq_lt by lia. reflexivity.
  - assert (Hl : (i < length (row_of (unit_row dim a)))%nat)
      by (unfold row_of; rewrite length_imap, Hlen; lia).
    destruct (lookup_lt_is_Some_2 _ _ Hl) as [y Hy].
    rewrite (nth_lookup_Some _ _ 0%Q _ Hy). exact Hy.
  - unfold row_of. rewrite (nth_imap _ _ 0%Q 0%Q) by (rewrite Hlen; lia).
    rewrite entry_prod_at by (rewrite ?Hrow; cbn [length]; fold dim; lia).
    apply prod_at_unit_row; [reflexivity|lia|lia].
Qed.

Lemma linear_gradient_identity_witness :
  exists G row g,
    simplex_grad_shape_function [1 # 3; 1 # 3; 1 # 3]%Q 1 = Ok (map (map Some) G)
    /\ length G = length [1 # 3; 1 # 3; 1 # 3]%Q
    /\ G !! 1%nat = Some row
    /\ row !! 2%nat = Some g
    /\ (g == if decide (1%nat = 2%nat) then 1 else 0)%Q.
Proof.
  apply (linear_gradient_identity [1 # 3; 1 # 3; 1 # 3]%Q 1 2); cbn [length]; lia.
Defined.

End LinearGradient.
